(** * chiplab.tools: font resolution and document normalisation

    A shallow embedding of [font-manager.js] and of the three document
    passes of [server.js] ([preprocessSvg], [preprocessSvgForBetterFonts],
    [modifySvgDimensions]).

    Layout of the development:
    - [JS]: the parts of the JavaScript runtime the sources call (strings,
      regular expressions, [path], numbers);
    - [FontManager]: [font-manager.js];
    - [Server]: the document passes of [server.js];
    - the properties of the specification, one theorem per claim;
    - further properties of the same code (X1 and following).

    Strings are sequences of 8-bit code units (the Latin-1 range of a
    JavaScript string); numbers are IEEE-754 binary64 values, as the
    kernel's primitive floats. *)

From Stdlib Require Import List Ascii String Bool Arith ZArith QArith Qminmax Lia Lqa.
From Stdlib Require Import Floats.PrimFloat Floats.SpecFloat Floats.FloatOps.
From Stdlib Require Import Sorting.Permutation.
Import ListNotations.

Set Warnings "-inexact-float".

Close Scope Q_scope.
Open Scope string_scope.
Open Scope nat_scope.
Open Scope list_scope.

(** A JavaScript string.  String literals of the sources are written as
    Rocq string literals and read as lists through the coercion. *)
Definition str := list ascii.
Coercion list_ascii_of_string : string >-> list.
Abbreviation length := List.length (only parsing).

(** The double quote and the line feed, written apart from the
    literals. *)
Definition dq : str := ["034"%char].
Definition nl : str := ["010"%char].

Module JS.

(** ** Characters *)

Definition code (c : ascii) : nat := nat_of_ascii c.

Definition between (lo hi : nat) (c : ascii) : bool :=
  (lo <=? code c) && (code c <=? hi).

Definition isDigit (c : ascii) : bool := between 48 57 c.

(** WhiteSpace and LineTerminator code units below 256: what [\s] matches
    and what [trim] strips. *)
Definition isWhiteSpace (c : ascii) : bool :=
  match code c with
  | 9 | 10 | 11 | 12 | 13 | 32 | 160 => true
  | _ => false
  end.

Definition isLineTerminator (c : ascii) : bool :=
  match code c with
  | 10 | 13 => true
  | _ => false
  end.

Definition toLowerChar (c : ascii) : ascii :=
  if between 65 90 c || (between 192 222 c && negb (code c =? 215))
  then ascii_of_nat (code c + 32) else c.

Definition toUpperChar (c : ascii) : ascii :=
  if between 97 122 c || (between 224 254 c && negb (code c =? 247))
  then ascii_of_nat (code c - 32) else c.

(** ** Strings *)

Fixpoint str_eqb (a b : str) : bool :=
  match a, b with
  | [], [] => true
  | x :: a', y :: b' => Ascii.eqb x y && str_eqb a' b'
  | _, _ => false
  end.

Definition toLowerCase (s : str) : str := map toLowerChar s.

Fixpoint dropWhile (p : ascii -> bool) (s : str) : str :=
  match s with
  | c :: s' => if p c then dropWhile p s' else s
  | [] => []
  end.

Fixpoint takeWhile (p : ascii -> bool) (s : str) : str :=
  match s with
  | c :: s' => if p c then c :: takeWhile p s' else []
  | [] => []
  end.

Definition trimStart (s : str) : str := dropWhile isWhiteSpace s.
Definition trimEnd (s : str) : str := rev (dropWhile isWhiteSpace (rev s)).
Definition trim (s : str) : str := trimEnd (trimStart s).

Fixpoint startsWith (s p : str) {struct p} : bool :=
  match p, s with
  | [], _ => true
  | x :: p', y :: s' => Ascii.eqb x y && startsWith s' p'
  | _ :: _, [] => false
  end.

Definition endsWith (s p : str) : bool := startsWith (rev s) (rev p).

(** [s.includes(sub)]: [sub] starts at some position of [s]. *)
Fixpoint includes (s sub : str) : bool :=
  startsWith s sub ||
  match s with
  | [] => false
  | _ :: s' => includes s' sub
  end.

(** [indexOfNat sub s i]: the first position at or after [i] (the position
    of [s] itself) where [sub] starts. *)
Fixpoint indexOfNat (sub s : str) (i : nat) : option nat :=
  if startsWith s sub then Some i
  else match s with
       | [] => None
       | _ :: s' => indexOfNat sub s' (S i)
       end.

Definition clamp (s : str) (i : Z) : nat :=
  Z.to_nat (Z.min (Z.max i 0) (Z.of_nat (length s))).

(** [s.indexOf(sub, from)], with [-1] for no occurrence. *)
Definition indexOf (s sub : str) (from : Z) : Z :=
  let k := clamp s from in
  match indexOfNat sub (skipn k s) k with
  | Some i => Z.of_nat i
  | None => (-1)%Z
  end.

Fixpoint lastIndexOfNat (sub s : str) (i : nat) (found : option nat) : option nat :=
  let found' := if startsWith s sub then Some i else found in
  match s with
  | [] => found'
  | _ :: s' => lastIndexOfNat sub s' (S i) found'
  end.

(** [s.lastIndexOf(sub)]. *)
Definition lastIndexOf (s sub : str) : Z :=
  match lastIndexOfNat sub s 0 None with
  | Some i => Z.of_nat i
  | None => (-1)%Z
  end.

(** [s.substring(a, b)]: both ends clamped to the string, and swapped when
    [a > b]. *)
Definition substring (s : str) (a b : Z) : str :=
  let a' := clamp s a in
  let b' := clamp s b in
  let lo := Nat.min a' b' in
  let hi := Nat.max a' b' in
  firstn (hi - lo) (skipn lo s).

(** [s.substring(a)]. *)
Definition substringFrom (s : str) (a : Z) : str := skipn (clamp s a) s.

(** [s.split(',')[0]]. *)
Definition beforeComma (s : str) : str :=
  takeWhile (fun c => negb (Ascii.eqb c ","%char)) s.

(** ** Replacement templates

    [GetSubstitution]: the text a replacement string stands for, given the
    matched text, what precedes and follows it, and the captures. *)

Definition digitVal (c : ascii) : nat := code c - 48.

Section Substitution.
Variables (matched pre post : str) (caps : list (option str)).

Definition capture (n : nat) : option str :=
  if (1 <=? n) && (n <=? length caps)
  then Some (match nth (n - 1) caps None with Some x => x | None => [] end)
  else None.

Fixpoint getSubstitution (tpl : str) : str :=
  match tpl with
  | [] => []
  | c :: rest =>
    if negb (Ascii.eqb c "$"%char) then c :: getSubstitution rest
    else
      match rest with
      | [] => [c]
      | d1 :: r =>
        if Ascii.eqb d1 "$"%char then "$"%char :: getSubstitution r
        else if Ascii.eqb d1 "&"%char then matched ++ getSubstitution r
        else if Ascii.eqb d1 "`"%char then pre ++ getSubstitution r
        else if Ascii.eqb d1 "'"%char then post ++ getSubstitution r
        else if isDigit d1 then
          let one :=
            match capture (digitVal d1) with
            | Some x => x ++ getSubstitution r
            | None => c :: getSubstitution rest
            end in
          match r with
          | d2 :: r2 =>
            if isDigit d2 then
              match capture (10 * digitVal d1 + digitVal d2) with
              | Some x => x ++ getSubstitution r2
              | None => one
              end
            else one
          | [] => one
          end
        else c :: getSubstitution rest
      end
  end.
End Substitution.

(** [s.replace(pat, tpl)] with a string pattern: the first occurrence
    only; a string pattern has no captures. *)
Definition replaceStr (s pat tpl : str) : str :=
  match indexOfNat pat s 0 with
  | None => s
  | Some i =>
    let pre := firstn i s in
    let post := skipn (i + length pat) s in
    pre ++ getSubstitution pat pre post [] tpl ++ post
  end.

(** ** Regular expressions

    The pattern syntax the sources use: characters, classes, [.], [$],
    sequence, alternation, greedy and lazy [*], capturing groups.  [a+] is
    [a] followed by [a*], [a?] is [a] or nothing. *)

Inductive classItem : Type :=
| One (c : ascii)
| Range (lo hi : ascii)
| Space
| NotSpace.

Inductive regex : Type :=
| Chr (c : ascii)
| Class (negated : bool) (items : list classItem)
| Dot
| AtEnd
| Eps
| Seq (a b : regex)
| Alt (a b : regex)
| Star (greedy : bool) (a : regex)
| Group (i : nat) (a : regex).

Record flags : Type := { ignoreCase : bool; dotAll : bool }.

Definition noFlags : flags := {| ignoreCase := false; dotAll := false |}.
Definition flag_i : flags := {| ignoreCase := true; dotAll := false |}.
Definition flag_is : flags := {| ignoreCase := true; dotAll := true |}.

Definition Plus (greedy : bool) (a : regex) : regex := Seq a (Star greedy a).
Definition Opt (a : regex) : regex := Alt a Eps.

Fixpoint Lit (s : str) : regex :=
  match s with
  | [] => Eps
  | [c] => Chr c
  | c :: s' => Seq (Chr c) (Lit s')
  end.

Fixpoint Seqs (l : list regex) : regex :=
  match l with
  | [] => Eps
  | [a] => a
  | a :: l' => Seq a (Seqs l')
  end.

Fixpoint countGroups (r : regex) : nat :=
  match r with
  | Seq a b | Alt a b => countGroups a + countGroups b
  | Star _ a => countGroups a
  | Group _ a => S (countGroups a)
  | _ => 0
  end.

(** Canonicalize: under [i] characters are compared upper-cased. *)
Definition canon (fl : flags) (c : ascii) : ascii :=
  if ignoreCase fl then toUpperChar c else c.

Definition charMatches (fl : flags) (x a : ascii) : bool :=
  Ascii.eqb (canon fl a) (canon fl x).

Definition inRange (lo hi a : ascii) : bool :=
  (code lo <=? code a) && (code a <=? code hi).

Definition itemMatches (fl : flags) (it : classItem) (a : ascii) : bool :=
  match it with
  | One c => charMatches fl c a
  | Range lo hi =>
    if ignoreCase fl
    then inRange lo hi a || inRange lo hi (toUpperChar a) || inRange lo hi (toLowerChar a)
    else inRange lo hi a
  | Space => isWhiteSpace a
  | NotSpace => negb (isWhiteSpace a)
  end.

Definition classMatches (fl : flags) (negated : bool) (items : list classItem)
    (a : ascii) : bool :=
  xorb negated (existsb (fun it => itemMatches fl it a) items).

(** Captures found so far, the latest first. *)
Definition captures := list (nat * str).

Fixpoint lookupCapture (i : nat) (c : captures) : option str :=
  match c with
  | [] => None
  | (j, x) :: c' => if i =? j then Some x else lookupCapture i c'
  end.

(** The backtracking matcher, in continuation-passing style: [matcher r s
    c k] matches [r] at the front of [s] and hands what is left to [k];
    the first success in the order of the pattern wins.

    [repeatMatcher] is RepeatMatcher for [*]: greedy, it tries one more
    iteration before the continuation, lazy, after; an iteration that
    consumes nothing is refused.  [n] bounds the iterations by the length
    of the text, which each of them shortens. *)
Section Matcher.
Variable fl : flags.
Variable R : Type.

Definition continuation : Type := str -> captures -> option R.

Definition repeatMatcher (greedy : bool)
    (m : str -> captures -> continuation -> option R) (k : continuation)
    : nat -> str -> captures -> option R :=
  fix loop (n : nat) (s : str) (c : captures) {struct n} : option R :=
    match n with
    | 0 => k s c
    | S n' =>
      let again (s1 : str) (c1 : captures) : option R :=
        if length s1 <? length s then loop n' s1 c1 else None in
      if greedy then
        match m s c again with
        | Some x => Some x
        | None => k s c
        end
      else
        match k s c with
        | Some x => Some x
        | None => m s c again
        end
    end.

Fixpoint matcher (r : regex) (s : str) (c : captures) (k : continuation)
    {struct r} : option R :=
  match r with
  | Chr x =>
    match s with
    | a :: s' => if charMatches fl x a then k s' c else None
    | [] => None
    end
  | Class negated items =>
    match s with
    | a :: s' => if classMatches fl negated items a then k s' c else None
    | [] => None
    end
  | Dot =>
    match s with
    | a :: s' => if dotAll fl || negb (isLineTerminator a) then k s' c else None
    | [] => None
    end
  | AtEnd => match s with [] => k s c | _ :: _ => None end
  | Eps => k s c
  | Seq a b => matcher a s c (fun s1 c1 => matcher b s1 c1 k)
  | Alt a b =>
    match matcher a s c k with
    | Some x => Some x
    | None => matcher b s c k
    end
  | Star greedy a => repeatMatcher greedy (matcher a) k (length s) s c
  | Group i a =>
    matcher a s c
      (fun s1 c1 => k s1 ((i, firstn (length s - length s1) s) :: c1))
  end.
End Matcher.

(** A match: where it starts, its text and the text of each group. *)
Record MatchResult : Type := {
  m_index : nat;
  m_text : str;
  m_groups : list (option str)
}.

Definition matchHere (fl : flags) (r : regex) (s : str) : option (str * captures) :=
  matcher fl (str * captures) r s [] (fun s1 c1 => Some (s1, c1)).

(** The leftmost match in [s], the text at position [i] of the subject. *)
Fixpoint searchFrom (fl : flags) (r : regex) (s : str) (i : nat)
    : option MatchResult :=
  match matchHere fl r s with
  | Some (rest, c) =>
    Some {| m_index := i;
            m_text := firstn (length s - length rest) s;
            m_groups := map (fun g => lookupCapture g c) (seq 1 (countGroups r)) |}
  | None =>
    match s with
    | [] => None
    | _ :: s' => searchFrom fl r s' (S i)
    end
  end.

(** [re.exec(s)] of a pattern without [g], [s.match(re)] likewise. *)
Definition exec (fl : flags) (r : regex) (s : str) : option MatchResult :=
  searchFrom fl r s 0.

(** [re.test(s)]. *)
Definition test (fl : flags) (r : regex) (s : str) : bool :=
  match exec fl r s with Some _ => true | None => false end.

Definition m_end (m : MatchResult) : nat := m_index m + length (m_text m).

(** The successive matches of a [g] pattern: each search starts where the
    last match ended, one further after an empty match.  This is the
    sequence [s.match], [s.replace] and a [while (re.exec(s))] loop go
    through (the loops of the sources use patterns that match no empty
    text). *)
Fixpoint matchAllFrom (fl : flags) (r : regex) (s : str) (n p : nat)
    : list MatchResult :=
  match n with
  | 0 => []
  | S n' =>
    if length s <? p then []
    else
      match searchFrom fl r (skipn p s) p with
      | None => []
      | Some m =>
        m :: matchAllFrom fl r s n'
               (if m_end m =? m_index m then S (m_end m) else m_end m)
      end
  end.

Definition matchAll (fl : flags) (r : regex) (s : str) : list MatchResult :=
  matchAllFrom fl r s (S (length s)) 0.

Definition substitute (s : str) (m : MatchResult) (tpl : str) : str :=
  getSubstitution (m_text m) (firstn (m_index m) s) (skipn (m_end m) s)
    (m_groups m) tpl.

(** [s.replace(re, tpl)] without [g]. *)
Definition replaceRe (fl : flags) (r : regex) (s tpl : str) : str :=
  match exec fl r s with
  | None => s
  | Some m => firstn (m_index m) s ++ substitute s m tpl ++ skipn (m_end m) s
  end.

Fixpoint rebuild (s : str) (ms : list MatchResult) (pos : nat) (tpl : str) : str :=
  match ms with
  | [] => skipn pos s
  | m :: ms' =>
    firstn (m_index m - pos) (skipn pos s) ++ substitute s m tpl
      ++ rebuild s ms' (m_end m) tpl
  end.

(** [s.replace(re, tpl)] with [g]. *)
Definition replaceAllRe (fl : flags) (r : regex) (s tpl : str) : str :=
  rebuild s (matchAll fl r s) 0 tpl.

(** ** [path]

    [path.extname] and [path.basename] on the name of a directory entry (a
    name without separator). *)

Fixpoint lastDot (s : str) (i : nat) (found : option nat) : option nat :=
  match s with
  | [] => found
  | c :: s' => lastDot s' (S i) (if Ascii.eqb c "."%char then Some i else found)
  end.

Definition extname (name : str) : str :=
  match lastDot name 0 None with
  | None => []
  | Some 0 => []
  | Some d => if str_eqb name ".." then [] else skipn d name
  end.

Definition basename (name suffix : str) : str :=
  match suffix with
  | [] => name
  | _ :: _ =>
    if str_eqb suffix name then []
    else if endsWith name suffix then firstn (length name - length suffix) name
    else name
  end.

(** [path.join(dir, name)] and [path.resolve(dir, name)] for the absolute,
    normalised directory the server passes and an entry name. *)
Definition pathJoin (dir name : str) : str := dir ++ "/" ++ name.

(** ** Numbers

    A Number is a binary64 value.  [decimalToNumber] is the Number value
    of the decimal [m * 10^e]: the nearest binary64, ties to even. *)

Definition num := float.

Definition roundRatio (n d : Z) : spec_float :=
  let l := (Z.log2 n - Z.log2 d)%Z in
  let e1 := (l - 52)%Z in
  let scaled (e : Z) : Z * Z :=
    if (0 <=? e)%Z then (n, d * 2 ^ e)%Z else (n * 2 ^ (- e), d)%Z in
  let e2 :=
    let '(n1, d1) := scaled e1 in
    if (2 ^ 52 <=? n1 / d1)%Z then e1 else (e1 - 1)%Z in
  let e := Z.max e2 (-1074) in
  let '(n', d') := scaled e in
  let q := (n' / d')%Z in
  let r := (n' mod d')%Z in
  let q' :=
    if (d' <? 2 * r)%Z then (q + 1)%Z
    else if ((d' =? 2 * r) && Z.odd q)%Z then (q + 1)%Z
    else q in
  match q' with
  | Zpos p => S754_finite false p e
  | _ => S754_zero false
  end.

Definition decimalToNumber (m e : Z) : num :=
  match m with
  | Zpos _ =>
    let bits := Z.log2 m in
    if (0 <=? e)%Z then
      if (1100 <? bits + 3 * e)%Z then infinity
      else SF2Prim (roundRatio (m * 10 ^ e) 1)
    else if (1100 <? bits + 4 * e)%Z then infinity
    else if (bits + 3 * e <? -1100)%Z then zero
    else SF2Prim (roundRatio m (10 ^ (- e)))
  | _ => zero
  end.

Fixpoint digitsValue (s : str) (acc : Z) : Z :=
  match s with
  | [] => acc
  | c :: s' => digitsValue s' (10 * acc + Z.of_nat (digitVal c))
  end.

(** The exponent part [e|E [+|-] digits] at the front of [s], [0] when
    there is none. *)
Definition exponentPart (s : str) : Z :=
  match s with
  | c :: r =>
    if Ascii.eqb c "e"%char || Ascii.eqb c "E"%char then
      let '(negative, r') :=
        match r with
        | x :: r1 =>
          if Ascii.eqb x "-"%char then (true, r1)
          else if Ascii.eqb x "+"%char then (false, r1)
          else (false, r)
        | [] => (false, r)
        end in
      let v := digitsValue (takeWhile isDigit r') 0 in
      if negative then (- v)%Z else v
    else 0%Z
  | [] => 0%Z
  end.

(** [parseFloat(s)]: the longest prefix of the trimmed text that is a
    decimal literal, [NaN] when there is none. *)
Definition parseFloat (s : str) : num :=
  let t := trimStart s in
  let '(negative, t1) :=
    match t with
    | c :: r =>
      if Ascii.eqb c "-"%char then (true, r)
      else if Ascii.eqb c "+"%char then (false, r)
      else (false, t)
    | [] => (false, t)
    end in
  let sign (x : num) : num := if negative then (- x)%float else x in
  if startsWith t1 "Infinity" then sign infinity
  else
    let ip := takeWhile isDigit t1 in
    let r1 := dropWhile isDigit t1 in
    let '(fp, r2) :=
      match r1 with
      | c :: r =>
        if Ascii.eqb c "."%char then (takeWhile isDigit r, dropWhile isDigit r)
        else ([], r1)
      | [] => ([], r1)
      end in
    match ip ++ fp with
    | [] => nan
    | ds => sign (decimalToNumber (digitsValue ds 0)
                    (exponentPart r2 - Z.of_nat (length fp)))
    end.

Definition isNaN (x : num) : bool := is_nan x.

(** [Math.max(x, y)]. *)
Definition Math_max (x y : num) : num :=
  if is_nan x || is_nan y then nan
  else if (x <? y)%float then y
  else if (y <? x)%float then x
  else if is_zero x then (x + y)%float else x.

(** [Number::toString]: the shortest decimal [s * 10^(n-k)], [s] of [k]
    digits, that reads back as the same Number. *)

Fixpoint digitsOfPos (fuel : nat) (z : Z) (acc : str) : str :=
  match fuel with
  | 0 => acc
  | S fuel' =>
    let acc' := ascii_of_nat (48 + Z.to_nat (z mod 10)) :: acc in
    if (z <? 10)%Z then acc' else digitsOfPos fuel' (z / 10) acc'
  end.

Definition digitsOf (z : Z) : str := digitsOfPos (S (Z.to_nat (Z.log2 z))) z [].

(** [n] with [10^(n-1) <= a/b < 10^n]. *)
Definition decimalExponent (a b : Z) : Z :=
  let est := ((Z.log2 a - Z.log2 b) * 30103 / 100000)%Z in
  let below (n : Z) : bool :=
    if (0 <=? n)%Z then (a <? b * 10 ^ n)%Z else (a * 10 ^ (- n) <? b)%Z in
  let n0 := (est - 2)%Z in
  (fix up (fuel : nat) (n : Z) : Z :=
     match fuel with
     | 0 => n
     | S fuel' => if below n then n else up fuel' (n + 1)%Z
     end) 8 n0.

(** The candidate [(s, n)] of [k] digits next to [a/b], if one reads back
    as [x]. *)
Definition shortest (x : num) (a b n : Z) (k : Z) : option (Z * Z) :=
  let p := (n - k)%Z in
  let '(a', b') :=
    if (0 <=? p)%Z then (a, b * 10 ^ p)%Z else (a * 10 ^ (- p), b)%Z in
  let lo := (a' / b')%Z in
  let r := (a' mod b')%Z in
  let hi := (lo + 1)%Z in
  let back (s : Z) : bool := (decimalToNumber s p =? x)%float in
  let norm (s : Z) : Z * Z :=
    if (s =? 10 ^ k)%Z then (10 ^ (k - 1), n + 1)%Z else (s, n) in
  let loFirst := (2 * r <? b')%Z || ((2 * r =? b')%Z && Z.even lo) in
  let pick (s1 s2 : Z) : option (Z * Z) :=
    if back s1 then Some (norm s1)
    else if back s2 then Some (norm s2)
    else None in
  if (lo =? 0)%Z then None
  else if loFirst then pick lo hi else pick hi lo.

Definition zeros (n : Z) : str := repeat "0"%char (Z.to_nat n).

Definition formatDecimal (s n k : Z) : str :=
  let ds := digitsOf s in
  if ((k <=? n) && (n <=? 21))%Z then ds ++ zeros (n - k)
  else if ((0 <? n) && (n <=? 21))%Z then
    firstn (Z.to_nat n) ds ++ "." ++ skipn (Z.to_nat n) ds
  else if ((-6 <? n) && (n <=? 0))%Z then "0." ++ zeros (- n) ++ ds
  else
    let e := (n - 1)%Z in
    let es := (if (e <? 0)%Z then "-" else "+") ++ digitsOf (Z.abs e) in
    match ds with
    | [d] => [d] ++ "e" ++ es
    | d :: rest => [d] ++ "." ++ rest ++ "e" ++ es
    | [] => []
    end.

Definition positiveToString (x : num) : str :=
  match Prim2SF x with
  | S754_finite _ m e =>
    let '(a, b) := if (0 <=? e)%Z then (Zpos m * 2 ^ e, 1)%Z
                   else (Zpos m, 2 ^ (- e))%Z in
    let n := decimalExponent a b in
    let found :=
      fold_left (fun acc k =>
                   match acc with
                   | Some _ => acc
                   | None => shortest x a b n k
                   end)
                (map Z.of_nat (seq 1 17)) None in
    match found with
    | Some (s, n') => formatDecimal s n' (Z.of_nat (length (digitsOf s)))
    | None => []
    end
  | _ => "Infinity"
  end.

Definition toString (x : num) : str :=
  if is_nan x then "NaN"
  else if is_zero x then "0"
  else if (x <? 0)%float then "-" ++ positiveToString (- x)%float
  else positiveToString x.

End JS.

(** * font-manager.js *)

Module FontManager.
Import JS.

Definition cdq : ascii := "034"%char.

(** The patterns are quoted with [\x22] for the double quote and [{0,}]
    for a star in front of a closing parenthesis.  [\s],
    ['\x22], [^\x22'] and [^>]: *)
Definition ws : regex := Class false [Space].
Definition quote : regex := Class false [One "'"%char; One cdq].
Definition notQuote : regex := Class true [One cdq; One "'"%char].
Definition notGt : regex := Class true [One ">"%char].

(** [Set.prototype.add]: a new value goes last, a known one changes
    nothing. *)
Definition setAdd (x : str) (l : list str) : list str :=
  if existsb (str_eqb x) l then l else l ++ [x].

(** A [while ((match = re.exec(text)) !== null) set.add(match[1].trim())]
    loop. *)
Definition group1 (m : MatchResult) : str :=
  match nth 0 (m_groups m) None with Some x => x | None => [] end.

Definition addMatches (fl : flags) (r : regex) (text : str) (set : list str)
    : list str :=
  fold_left (fun acc m => setAdd (trim (group1 m)) acc) (matchAll fl r text) set.

(** [/font-family\s*:\s*['\x22]?([^'\x22,;]+)['\x22]?/g] *)
Definition fontFamilyRegex : regex :=
  Seqs [Lit "font-family"; Star true ws; Chr ":"%char; Star true ws; Opt quote;
        Group 1 (Plus true (Class true [One "'"%char; One cdq; One ","%char; One ";"%char]));
        Opt quote].

(** [/font-family\s*=\s*[\x22']([^\x22']+)[\x22']/g] *)
Definition fontAttrRegex : regex :=
  Seqs [Lit "font-family"; Star true ws; Chr "="%char; Star true ws; quote;
        Group 1 (Plus true notQuote); quote].

(** [/<style[^>]*>([\s\S]*?)<\/style>/g] *)
Definition cssRegex : regex :=
  Seqs [Lit "<style"; Star true notGt; Chr ">"%char;
        Group 1 (Star false (Class false [Space; NotSpace])); Lit "</style>"].

(** [/<tspan[^>]*font-family\s*=\s*[\x22']([^\x22']+)[\x22'][^>]*>/g] and the same
    for [<text]. *)
Definition elementFontRegex (tag : str) : regex :=
  Seqs [Lit tag; Star true notGt; Lit "font-family"; Star true ws; Chr "="%char;
        Star true ws; quote; Group 1 (Plus true notQuote); quote;
        Star true notGt; Chr ">"%char].
Definition tspanRegex : regex := elementFontRegex "<tspan".
Definition textRegex : regex := elementFontRegex "<text".

(** [/@font-face\s*{[^}]*?font-family\s*:\s*['\x22]?([^'\x22,;]+)['\x22]?[^}]*?}/g] *)
Definition fontFaceRegex : regex :=
  Seqs [Lit "@font-face"; Star true ws; Chr "{"%char;
        Star false (Class true [One "}"%char]);
        Lit "font-family"; Star true ws; Chr ":"%char; Star true ws; Opt quote;
        Group 1 (Plus true (Class true [One "'"%char; One cdq; One ","%char; One ";"%char]));
        Opt quote; Star false (Class true [One "}"%char]); Chr "}"%char].

(** The set [fontFamilies] of [extractFontsFromSVG] after its passes, in
    insertion order. *)
Definition fontFamilySet (svgContent : str) : list str :=
  let fontFamilies := [] in
  let fontFamilies := addMatches noFlags fontFamilyRegex svgContent fontFamilies in
  let fontFamilies := addMatches noFlags fontAttrRegex svgContent fontFamilies in
  let fontFamilies :=
    fold_left (fun acc cssMatch =>
                 addMatches noFlags fontFamilyRegex (group1 cssMatch) acc)
              (matchAll noFlags cssRegex svgContent) fontFamilies in
  let fontFamilies := addMatches noFlags tspanRegex svgContent fontFamilies in
  let fontFamilies := addMatches noFlags textRegex svgContent fontFamilies in
  let fontFamilies := addMatches noFlags fontFaceRegex svgContent fontFamilies in
  fontFamilies.

(** [extractFontsFromSVG(svgContent)]: the primary font of each element of
    the set. *)
Definition extractFontsFromSVG (svgContent : str) : list str :=
  map (fun font => trim (beforeComma font)) (fontFamilySet svgContent).

(** ** The local index *)

(** [.toLowerCase().replace(/[^a-z0-9]/g, '')] *)
Definition notAlnum : regex :=
  Class true [Range "a"%char "z"%char; Range "0"%char "9"%char].

Definition normalizeName (s : str) : str :=
  replaceAllRe noFlags notAlnum (toLowerCase s) [].

(** [fontExistsLocally(fontName, fontsDir)].  [readdir] is what
    [fs.readdirSync(fontsDir)] gives: the entry names, or [None] when it
    throws. *)
Definition fontExistsLocally (fontName : str) (readdir : option (list str)) : bool :=
  match readdir with
  | None => false
  | Some files =>
    let normalizedFontName := normalizeName fontName in
    existsb (fun file =>
               let fileName := normalizeName (basename file (extname file)) in
               includes fileName normalizedFontName)
            files
  end.

(** ** The world the resolver runs in

    The environment variable, the font directory (entry names with their
    contents, in [readdir] order; [None] when the directory is absent),
    the remote side, the network calls issued so far and the lines written
    with [console.error]. *)

Record CatalogItem : Type := {
  family : str;          (* item.family *)
  regular : option str   (* item.files.regular *)
}.

Inductive Response : Type :=
| HttpFailure (message : str)          (* the request is rejected *)
| NoItems                              (* a body without an [items] array *)
| Items (items : list CatalogItem).

Record Network : Type := {
  catalog : str -> Response;           (* httpGet(url) *)
  headFailure : str -> option str;     (* httpHead(url): [None] on status 200,
                                          else the message of the rejection *)
  download : str -> str + str          (* https.get(url) piped to a file: the
                                          bytes, or the message of the failure *)
}.

Inductive NetCall : Type :=
| HttpGet (url : str)
| HttpHead (url : str)
| HttpDownload (url : str).

Definition directory := list (str * str).

Record World : Type := {
  apiKey : option str;                 (* process.env.GOOGLE_FONTS_API_KEY *)
  fonts : option directory;
  network : Network;
  calls : list NetCall;
  errorLog : list str
}.

Definition setFonts (d : option directory) (w : World) : World :=
  {| apiKey := apiKey w; fonts := d; network := network w;
     calls := calls w; errorLog := errorLog w |}.

Definition addCall (c : NetCall) (w : World) : World :=
  {| apiKey := apiKey w; fonts := fonts w; network := network w;
     calls := calls w ++ [c]; errorLog := errorLog w |}.

Definition addError (line : str) (w : World) : World :=
  {| apiKey := apiKey w; fonts := fonts w; network := network w;
     calls := calls w; errorLog := errorLog w ++ [line] |}.

Fixpoint readFile (name : str) (d : directory) : option str :=
  match d with
  | [] => None
  | (n, c) :: d' => if str_eqb n name then Some c else readFile name d'
  end.

Fixpoint writeFile (name content : str) (d : directory) : directory :=
  match d with
  | [] => [(name, content)]
  | (n, c) :: d' =>
    if str_eqb n name then (n, content) :: d' else (n, c) :: writeFile name content d'
  end.

Definition readdir (w : World) : option (list str) :=
  option_map (map fst) (fonts w).

(** A computation either completes with a value or throws an [Error] with
    a message; it threads the world. *)
Inductive Completion (A : Type) : Type :=
| Normal (a : A)
| Throw (message : str).
Arguments Normal {A} a.
Arguments Throw {A} message.

Definition M (A : Type) : Type := World -> Completion A * World.

Definition ret {A : Type} (a : A) : M A := fun w => (Normal a, w).
Definition throw {A : Type} (message : str) : M A := fun w => (Throw message, w).
Definition bind {A B : Type} (m : M A) (f : A -> M B) : M B :=
  fun w => match m w with
           | (Normal a, w') => f a w'
           | (Throw e, w') => (Throw e, w')
           end.
Definition tryCatch {A : Type} (m : M A) (handler : str -> M A) : M A :=
  fun w => match m w with
           | (Normal a, w') => (Normal a, w')
           | (Throw e, w') => handler e w'
           end.
Definition getWorld : M World := fun w => (Normal w, w).
Definition modify (f : World -> World) : M unit := fun w => (Normal tt, f w).
Definition consoleError (line : str) : M unit := modify (addError line).

Notation "x <- m ;; k" := (bind m (fun x => k))
  (at level 61, m at next level, right associativity).
Notation "m ;;; k" := (bind m (fun _ => k))
  (at level 61, right associativity).

(** ** The mapping file *)

(** The text of [new RegExp(`<type[^>]*family\\s*=\\s*[\x22']${fontName}[\x22'][^>]*>`, 'gi')].
    The family name is spliced into the pattern source; it is read here as
    literal text, which is what the pattern means for a name without
    pattern syntax characters ([literalName]). *)
Definition syntaxChar (c : ascii) : bool :=
  existsb (Ascii.eqb c) ("^$\.*+?()[]{}|" : str).

Definition literalName (fontName : str) : bool :=
  forallb (fun c => negb (syntaxChar c)) fontName.

Definition entryPattern (fontName : str) : regex :=
  Seqs [Lit "<type"; Star true notGt; Lit "family"; Star true ws; Chr "="%char;
        Star true ws; Class false [One cdq; One "'"%char]; Lit fontName;
        Class false [One cdq; One "'"%char]; Star true notGt; Chr ">"%char].

(** [.replace(/\s+/g, '')] *)
Definition stripSpaces (s : str) : str :=
  replaceAllRe noFlags (Plus true ws) s [].

(** The rows already in the file for the family, as the removal loop
    collects them. *)
Definition entriesToRemove (fontName xmlContent : str) : list str :=
  flat_map (fun m =>
              let startPos := Z.of_nat (m_index m) in
              let endPos := (indexOf xmlContent "/>" startPos + 2)%Z in
              if (startPos <? endPos)%Z
              then [substring xmlContent startPos endPos] else [])
           (matchAll flag_i (entryPattern fontName) xmlContent).

Definition removeEntries (xmlContent : str) (entries : list str) : str :=
  fold_left (fun xml entry => replaceStr xml entry []) entries xmlContent.

(** [path.resolve(fontsDir, fontFile).replace(/\\/g, '/')] *)
Definition glyphsPath (fontsDir fontFile : str) : str :=
  replaceAllRe noFlags (Chr "\"%char) (pathJoin fontsDir fontFile) "/".

Definition typeEntry (typeName fullname fontName style weight fontPath : str) : str :=
  "  <type name=" ++ dq ++ typeName ++ dq ++ " fullname=" ++ dq ++ fullname ++ dq
  ++ " family=" ++ dq ++ fontName ++ dq ++ " style=" ++ dq ++ style ++ dq
  ++ " stretch=" ++ dq ++ "Normal" ++ dq ++ " weight=" ++ dq ++ weight ++ dq
  ++ " glyphs=" ++ dq ++ fontPath ++ dq ++ " />" ++ nl.

(** The row written for one font file. *)
Definition fileEntry (fontName fontsDir fontFile : str) : str :=
  let filenameLower := toLowerCase fontFile in
  let isItalic := includes filenameLower "-italic" || includes filenameLower "-bolditalic" in
  let isBold := includes filenameLower "-bold" || includes filenameLower "-bolditalic" in
  let isSemiBold := includes filenameLower "-semibold" in
  let isLight := includes filenameLower "-light" in
  let isMedium := includes filenameLower "-medium" in
  let isRegular := includes filenameLower "-regular" in
  let isExtraBold := includes filenameLower "-extrabold" in
  let weight : str := "400" in
  let weight : str := if isBold then "700" else weight in
  let weight : str := if isSemiBold then "600" else weight in
  let weight : str := if isMedium then "500" else weight in
  let weight : str := if isLight then "300" else weight in
  let weight : str := if isExtraBold then "800" else weight in
  let style : str := if isItalic then "Italic" else "Normal" in
  let fullname : str :=
    fontName ++
    (if isBold && isItalic then " Bold Italic"
     else if isBold then " Bold"
     else if isSemiBold && isItalic then " SemiBold Italic"
     else if isSemiBold then " SemiBold"
     else if isMedium && isItalic then " Medium Italic"
     else if isMedium then " Medium"
     else if isLight && isItalic then " Light Italic"
     else if isLight then " Light"
     else if isItalic then " Italic"
     else if isRegular then " Regular"
     else if isExtraBold && isItalic then " ExtraBold Italic"
     else if isExtraBold then " ExtraBold"
     else " Regular" : str) in
  let typeName : str :=
    fontName ++
    (if isBold && isItalic then " Bold Italic"
     else if isBold then " Bold"
     else if isSemiBold && isItalic then " SemiBold Italic"
     else if isSemiBold then " SemiBold"
     else if isMedium && isItalic then " Medium Italic"
     else if isMedium then " Medium"
     else if isLight && isItalic then " Light Italic"
     else if isLight then " Light"
     else if isItalic then " Italic"
     else if negb isRegular && negb (includes fontFile "-") then " Regular"
     else [] : str) in
  typeEntry typeName fullname fontName style weight (glyphsPath fontsDir fontFile).

(** The additional row under the bare family name. *)
Definition defaultEntry (fontName fontsDir : str) (fontFiles : list str) : str :=
  let defaultFontFile :=
    match find (fun file => includes (toLowerCase file) "-regular") fontFiles with
    | Some (c :: f) => c :: f
    | _ => hd [] fontFiles
    end in
  typeEntry fontName (fontName ++ " Regular") fontName "Normal" "400"
            (glyphsPath fontsDir defaultFontFile).

Definition emptyTypeXml : str :=
  "<?xml version=" ++ dq ++ "1.0" ++ dq ++ "?>" ++ nl ++ "<typemap>" ++ nl ++ "</typemap>".

(** The font files of the family among the entries of the directory. *)
Definition fontFilesOf (fontName : str) (files : list str) : list str :=
  filter (fun file =>
            let normalizedName := toLowerCase (stripSpaces fontName) in
            startsWith (toLowerCase file) normalizedName
            && endsWith (toLowerCase file) ".ttf")
         files.

(** What [updateTypeXmlFile] does to the mapping file: it writes a new
    text, or returns early. *)
Inductive Update : Type :=
| Written (updatedXmlContent : str)
| NoFontFiles
| InvalidFormat.

Definition updatedTypeXml (fontName fontsDir : str) (files : list str)
    (existing : option str) : Update :=
  let xmlContent := match existing with None => emptyTypeXml | Some x => x end in
  let fontFiles := fontFilesOf fontName files in
  match fontFiles with
  | [] => NoFontFiles
  | _ :: _ =>
    let closingTagPos := lastIndexOf xmlContent "</typemap>" in
    if (closingTagPos =? -1)%Z then InvalidFormat
    else
      let xmlContent := removeEntries xmlContent (entriesToRemove fontName xmlContent) in
      let newEntries :=
        List.concat (map (fileEntry fontName fontsDir) fontFiles)
        ++ defaultEntry fontName fontsDir fontFiles in
      let updatedXmlContent := trim (substring xmlContent 0 closingTagPos) in
      let updatedXmlContent :=
        if endsWith updatedXmlContent nl then updatedXmlContent
        else updatedXmlContent ++ nl in
      Written (updatedXmlContent ++ newEntries ++ substringFrom xmlContent closingTagPos)
  end.

(** [updateTypeXmlFile(fontName, fontsDir)]: every error is caught and
    logged.  With the directory absent [fs.readdirSync] throws. *)
Definition updateTypeXmlFile (fontName fontsDir : str) : M unit :=
  w <- getWorld ;;
  match fonts w with
  | None => consoleError "Error updating type.xml: ENOENT"
  | Some d =>
    match updatedTypeXml fontName fontsDir (map fst d) (readFile "type.xml" d) with
    | NoFontFiles => ret tt
    | InvalidFormat => consoleError "Invalid type.xml format"
    | Written x => modify (setFonts (Some (writeFile "type.xml" x d)))
    end
  end.

(** ** The remote resolver *)

Definition systemFonts : list str :=
  ["Arial" : str; "Helvetica" : str; "Times" : str; "Times New Roman" : str;
   "Courier" : str; "Courier New" : str; "Verdana" : str; "Georgia" : str;
   "Palatino" : str; "Garamond" : str; "Bookman" : str; "Tahoma" : str;
   "Trebuchet MS" : str].

Definition httpGet (url : str) : M (list CatalogItem) :=
  modify (addCall (HttpGet url)) ;;;
  w <- getWorld ;;
  match catalog (network w) url with
  | HttpFailure message => throw message
  | NoItems => throw "Invalid response from Google Fonts API"
  | Items items => ret items
  end.

Definition httpHead (url : str) : M unit :=
  modify (addCall (HttpHead url)) ;;;
  w <- getWorld ;;
  match headFailure (network w) url with
  | None => ret tt
  | Some message => throw message
  end.

(** [/\.woff2$|\.woff$/] *)
Definition woffRegex : regex :=
  Alt (Seq (Lit ".woff2") AtEnd) (Seq (Lit ".woff") AtEnd).

(** The download of the file and the registration, the inner [try]. *)
Definition fetchAndRegister (fontName fontsDir ttfUrl : str) : M bool :=
  let normalizedName := stripSpaces fontName in
  let fileName := normalizedName ++ "-Regular.ttf" in
  modify (addCall (HttpDownload ttfUrl)) ;;;
  w <- getWorld ;;
  match download (network w) ttfUrl with
  | inr message => throw message
  | inl bytes =>
    modify (fun w => setFonts
                       (Some (writeFile fileName bytes
                                (match fonts w with Some d => d | None => [] end))) w) ;;;
    updateTypeXmlFile fontName fontsDir ;;;
    ret true
  end.

(** [downloadGoogleFont(fontName, fontsDir)] *)
Definition downloadGoogleFont (fontName fontsDir : str) : M bool :=
  tryCatch
    (if existsb (str_eqb fontName) systemFonts then ret false
     else
       w <- getWorld ;;
       match apiKey w with
       | Some (c :: key) =>
         let apiUrl : str :=
           "https://www.googleapis.com/webfonts/v1/webfonts?key=" ++ c :: key in
         items <- httpGet apiUrl ;;
         match find (fun item => str_eqb (toLowerCase (family item))
                                         (toLowerCase fontName)) items with
         | None =>
           throw ("Font " ++ dq ++ fontName ++ dq
                  ++ " not found in Google Fonts catalog - check spelling or try a different font")
         | Some fontInfo =>
           match regular fontInfo with
           | Some (u :: rl) =>
             let fontUrl := u :: rl in
             let ttfUrl := replaceRe noFlags woffRegex fontUrl ".ttf" in
             tryCatch (httpHead ttfUrl)
               (fun _ =>
                  throw ("TTF format not available for " ++ dq ++ fontName ++ dq
                         ++ " - Google Fonts may only provide WOFF/WOFF2 for this font")) ;;;
             modify (fun w => match fonts w with
                              | None => setFonts (Some []) w
                              | Some _ => w
                              end) ;;;
             tryCatch (fetchAndRegister fontName fontsDir ttfUrl)
               (fun message =>
                  consoleError ("Error downloading TTF font: " ++ message) ;;;
                  ret false)
           | _ => throw ("No files information available for " ++ fontName)
           end
         end
       | _ =>
         throw "Google Fonts API key not configured - set GOOGLE_FONTS_API_KEY environment variable"
       end)
    (fun message =>
       consoleError ("Error downloading Google Font " ++ fontName ++ ": " ++ message) ;;;
       ret false).

(** ** The aggregate report *)

Record Results : Type := {
  fontsDetected : list str;
  fontsFoundLocally : list str;
  fontsDownloaded : list str;
  fontsFailed : list str;
  errors : list str
}.

Definition emptyResults : Results :=
  {| fontsDetected := []; fontsFoundLocally := []; fontsDownloaded := [];
     fontsFailed := []; errors := [] |}.

Definition pushFoundLocally (fontName : str) (r : Results) : Results :=
  {| fontsDetected := fontsDetected r;
     fontsFoundLocally := fontsFoundLocally r ++ [fontName];
     fontsDownloaded := fontsDownloaded r;
     fontsFailed := fontsFailed r;
     errors := errors r |}.

Definition pushDownloaded (fontName : str) (r : Results) : Results :=
  {| fontsDetected := fontsDetected r;
     fontsFoundLocally := fontsFoundLocally r;
     fontsDownloaded := fontsDownloaded r ++ [fontName];
     fontsFailed := fontsFailed r;
     errors := errors r |}.

Definition pushFailed (fontName : str) (r : Results) : Results :=
  {| fontsDetected := fontsDetected r;
     fontsFoundLocally := fontsFoundLocally r;
     fontsDownloaded := fontsDownloaded r;
     fontsFailed := fontsFailed r ++ [fontName];
     errors := errors r |}.

Definition pushError (errorMsg : str) (r : Results) : Results :=
  {| fontsDetected := fontsDetected r;
     fontsFoundLocally := fontsFoundLocally r;
     fontsDownloaded := fontsDownloaded r;
     fontsFailed := fontsFailed r;
     errors := errors r ++ [errorMsg] |}.

(** One turn of the loop over the detected fonts, with its [try] and
    [catch]. *)
Definition ensureFont (fontsDir : str) (results : Results) (fontName : str)
    (w : World) : Results * World :=
  if fontExistsLocally fontName (readdir w) then (pushFoundLocally fontName results, w)
  else
    match downloadGoogleFont fontName fontsDir w with
    | (Normal true, w') => (pushDownloaded fontName results, w')
    | (Normal false, w') => (pushFailed fontName results, w')
    | (Throw message, w') =>
      let errorMsg : str :=
        "Download failed for " ++ dq ++ fontName ++ dq ++ ": " ++ message in
      (pushError errorMsg (pushFailed fontName results), addError errorMsg w')
    end.

Fixpoint ensureFonts (fontsDir : str) (results : Results) (fontFamilies : list str)
    (w : World) : Results * World :=
  match fontFamilies with
  | [] => (results, w)
  | fontName :: rest =>
    let '(results', w') := ensureFont fontsDir results fontName w in
    ensureFonts fontsDir results' rest w'
  end.

(** [ensureFontsAvailable(svgPath, fontsDir)].  [svgFile] is what
    [fs.readFileSync(svgPath)] gives: the text, or the message of the
    error it throws.  The status callback, which only reports, is left
    out.  The function returns its report and never throws. *)
Definition ensureFontsAvailable (svgFile : str + str) (fontsDir : str)
    : World -> Results * World :=
  fun w =>
    match svgFile with
    | inr message =>
      let errorMsg : str := "Error ensuring fonts available: " ++ message in
      (pushError errorMsg emptyResults, addError errorMsg w)
    | inl svgContent =>
      let fontFamilies := extractFontsFromSVG svgContent in
      let results :=
        {| fontsDetected := fontFamilies; fontsFoundLocally := [];
           fontsDownloaded := []; fontsFailed := []; errors := [] |} in
      ensureFonts fontsDir results fontFamilies w
    end.

End FontManager.

(** * server.js: the document passes *)

Module Server.
Import JS FontManager.

(** [const TARGET_PDF_SIZE = 102] *)
Definition TARGET_PDF_SIZE : num := 102%float.

(** [/<svg[^>]*>/i] *)
Definition svgTagRegex : regex := Seqs [Lit "<svg"; Star true notGt; Chr ">"%char].

(** [/<svg[^>]*viewBox\s*=\s*[\x22'][^\x22']*[\x22']/i] *)
Definition viewBoxRegex : regex :=
  Seqs [Lit "<svg"; Star true notGt; Lit "viewBox"; Star true ws; Chr "="%char;
        Star true ws; Class false [One cdq; One "'"%char]; Star true notQuote;
        Class false [One cdq; One "'"%char]].

(** [/<svg[^>]*width\s*=\s*[\x22']([^\x22']{0,})[\x22']/i] and the same for
    [height]. *)
Definition svgAttrRegex (attr : str) : regex :=
  Seqs [Lit "<svg"; Star true notGt; Lit attr; Star true ws; Chr "="%char;
        Star true ws; Class false [One cdq; One "'"%char];
        Group 1 (Star true notQuote); Class false [One cdq; One "'"%char]].

(** [/>$/] *)
Definition closingGt : regex := Seq (Chr ">"%char) AtEnd.

(** [svgTag.replace(/>$/, ` ${attrs}>`)] followed by
    [svgContent.replace(svgTag, newSvgTag)]. *)
Definition addToSvgTag (svgContent svgTag attrs : str) : str :=
  let newSvgTag := replaceRe noFlags closingGt svgTag (" " ++ attrs ++ ">") in
  replaceStr svgContent svgTag newSvgTag.

(** The first part of [preprocessSvg]: the coordinate frame. *)
Definition inferViewBox (svgContent : str) : str :=
  let hasViewBox := test flag_i viewBoxRegex svgContent in
  let svgTagMatch := exec flag_i svgTagRegex svgContent in
  match svgTagMatch with
  | Some svgTag =>
    if hasViewBox then svgContent
    else
      let widthMatch := exec flag_i (svgAttrRegex "width") svgContent in
      let heightMatch := exec flag_i (svgAttrRegex "height") svgContent in
      match widthMatch, heightMatch with
      | Some wm, Some hm =>
        let widthValue := trim (group1 wm) in
        let heightValue := trim (group1 hm) in
        let width := parseFloat widthValue in
        let height := parseFloat heightValue in
        if negb (isNaN width) && negb (isNaN height)
           && (0 <? width)%float && (0 <? height)%float
        then
          let viewBox := "0 0 " ++ toString width ++ " " ++ toString height in
          addToSvgTag svgContent (m_text svgTag) ("viewBox=" ++ dq ++ viewBox ++ dq)
        else svgContent
      | _, _ => svgContent
      end
  | None => svgContent
  end.

(** [/<text[^>]*>[^<]*<\/text>/gi] *)
Definition plainTextRegex : regex :=
  Seqs [Lit "<text"; Star true notGt; Chr ">"%char;
        Star true (Class true [One "<"%char]); Lit "</text>"].

(** [/<text/] *)
Definition textOpen : regex := Lit "<text".

(** The second part of [preprocessSvg]: rendering hints on the root and on
    the text elements. *)
Definition enhanceText (svgContent : str) : str :=
  let textElements := map m_text (matchAll flag_i plainTextRegex svgContent) in
  match textElements with
  | [] => svgContent
  | _ :: _ =>
    let svgContent :=
      match exec flag_i svgTagRegex svgContent with
      | Some svgTag =>
        if includes svgContent "text-rendering" then svgContent
        else addToSvgTag svgContent (m_text svgTag)
               ("text-rendering=" ++ dq ++ "geometricPrecision" ++ dq
                ++ " shape-rendering=" ++ dq ++ "geometricPrecision" ++ dq)
      | None => svgContent
      end in
    fold_left
      (fun svgContent textElement =>
         if negb (includes textElement "font-weight")
            && negb (includes textElement "font-style")
         then
           let enhancedText :=
             replaceRe noFlags textOpen textElement
               ("<text font-weight=" ++ dq ++ "normal" ++ dq
                ++ " font-style=" ++ dq ++ "normal" ++ dq) in
           replaceStr svgContent textElement enhancedText
         else svgContent)
      textElements svgContent
  end.

(** [preprocessSvg(svgPath)] on the text of the file.  Nothing in it
    reads another file. *)
Definition preprocessSvg (svgContent : str) : str :=
  enhanceText (inferViewBox svgContent).

(** ** Canvas normalisation *)

(** The arithmetic of the scaling transform, over the operations it uses.
    The code runs it on Numbers ([binary64]); [exact] reads the same
    formulas over the rationals. *)
Class Arithmetic (N : Type) : Type := {
  divide : N -> N -> N;
  times : N -> N -> N;
  minus : N -> N -> N;
  maximum : N -> N -> N;
  two : N
}.

#[export] Instance binary64 : Arithmetic num := {|
  divide := PrimFloat.div;
  times := PrimFloat.mul;
  minus := PrimFloat.sub;
  maximum := Math_max;
  two := 2%float
|}.

#[export] Instance exact : Arithmetic Q := {|
  divide := Qdiv;
  times := Qmult;
  minus := Qminus;
  maximum := fun x y => if Qle_bool x y then y else x;
  two := 2%Q
|}.

Record ScalingTransform (N : Type) : Type := {
  scaleFactor : N;
  centerX : N;
  centerY : N
}.
Arguments scaleFactor {N} _.
Arguments centerX {N} _.
Arguments centerY {N} _.

Definition scalingTransform {N : Type} `{Arithmetic N}
    (targetSize originalWidth originalHeight : N) : ScalingTransform N :=
  let scaleFactor := divide targetSize (maximum originalWidth originalHeight) in
  let scaledWidth := times originalWidth scaleFactor in
  let scaledHeight := times originalHeight scaleFactor in
  {| scaleFactor := scaleFactor;
     centerX := divide (minus targetSize scaledWidth) two;
     centerY := divide (minus targetSize scaledHeight) two |}.

(** [/width=\x22([^\x22]+)\x22/i] and the same for [height]. *)
Definition dimensionRegex (attr : str) : regex :=
  Seqs [Lit attr; Chr "="%char; Chr cdq;
        Group 1 (Plus true (Class true [One cdq])); Chr cdq].

(** The original dimensions [modifySvgDimensions] works from. *)
Definition originalDimensions (svgContent : str) : num * num :=
  let widthMatch := exec flag_i (dimensionRegex "width") svgContent in
  let heightMatch := exec flag_i (dimensionRegex "height") svgContent in
  let originalWidth := 151.1712%float in
  let originalHeight := 151.1712%float in
  match widthMatch, heightMatch with
  | Some wm, Some hm => (parseFloat (group1 wm), parseFloat (group1 hm))
  | _, _ => (originalWidth, originalHeight)
  end.

(** The transform [modifySvgDimensions] applies to a document. *)
Definition documentTransform (svgContent : str) (targetSize : num)
    : ScalingTransform num :=
  let '(originalWidth, originalHeight) := originalDimensions svgContent in
  scalingTransform targetSize originalWidth originalHeight.

(** [modifySvgDimensions(svgPath, targetSize)] on the text of the file. *)
Definition modifySvgDimensions (svgContent : str) (targetSize : num) : str :=
  let t := documentTransform svgContent targetSize in
  match exec flag_i svgTagRegex svgContent with
  | Some svgTag =>
    let size := toString targetSize in
    let newSvgTag : str :=
      "<svg width=" ++ dq ++ size ++ "pt" ++ dq ++ " height=" ++ dq ++ size ++ "pt" ++ dq
      ++ " viewBox=" ++ dq ++ "0 0 " ++ size ++ " " ++ size ++ dq
      ++ " xmlns=" ++ dq ++ "http://www.w3.org/2000/svg" ++ dq
      ++ " xmlns:xlink=" ++ dq ++ "http://www.w3.org/1999/xlink" ++ dq
      ++ " xmlns:dc=" ++ dq ++ "http://purl.org/dc/elements/1.1/" ++ dq
      ++ " xmlns:cc=" ++ dq ++ "http://creativecommons.org/ns#" ++ dq
      ++ " xmlns:se=" ++ dq ++ "http://www.pixopa.com" ++ dq ++ ">" in
    let contentAfterSvgTag := skipn (m_end svgTag) svgContent in
    let scaledContent : str :=
      "<g transform=" ++ dq ++ "translate(" ++ toString (centerX t) ++ ", "
      ++ toString (centerY t) ++ ") scale(" ++ toString (scaleFactor t) ++ ")" ++ dq ++ ">"
      ++ replaceStr contentAfterSvgTag "</svg>" [] ++ "</g></svg>" in
    newSvgTag ++ scaledContent
  | None => svgContent
  end.

(** ** Font-face injection *)

Record FontMapping : Type := {
  fm_name : str;
  fm_family : str;
  fm_path : str
}.

(** [/<type\s+name=\x22([^\x22]+)\x22\s+[^>]*?family=\x22([^\x22]+)\x22[^>]*?glyphs=\x22([^\x22]+)\x22/gi] *)
Definition fontEntryRegex : regex :=
  let quoted (i : nat) : regex :=
    Seqs [Chr cdq; Group i (Plus true (Class true [One cdq])); Chr cdq] in
  Seqs [Lit "<type"; Plus true ws; Lit "name="; quoted 1; Plus true ws;
        Star false notGt; Lit "family="; quoted 2;
        Star false notGt; Lit "glyphs="; quoted 3].

Definition groupN (n : nat) (m : MatchResult) : str :=
  match nth (n - 1) (m_groups m) None with Some x => x | None => [] end.

(** The rows of the mapping file, as the pass reads them. *)
Definition fontMappings (typeXmlContent : str) : list FontMapping :=
  map (fun m => {| fm_name := groupN 1 m; fm_family := groupN 2 m;
                   fm_path := groupN 3 m |})
      (matchAll flag_i fontEntryRegex typeXmlContent).

Record AvailableFont : Type := {
  fileName : str;
  af_fontName : str
}.

(** The true-type files of the directory with the font name read off
    each: [path.basename(file, '.ttf').replace(/-.*$/, '')
    .replace(/([A-Z])/g, ' $1').trim()]. *)
Definition availableFonts (files : list str) : list AvailableFont :=
  map (fun file =>
         let fontName :=
           trim (replaceAllRe noFlags (Group 1 (Class false [Range "A"%char "Z"%char]))
                   (replaceRe noFlags (Seqs [Chr "-"%char; Star true Dot; AtEnd])
                      (basename file ".ttf") [])
                   " $1") in
         {| fileName := file; af_fontName := fontName |})
      (filter (fun file => endsWith (toLowerCase file) ".ttf") files).

(** [/<text[^>]*>.*?<\/text>/gis] *)
Definition textElementRegex : regex :=
  Seqs [Lit "<text"; Star true notGt; Chr ">"%char; Star false Dot; Lit "</text>"].

(** [/font-family\s*=\s*[\x22']([^\x22']{0,})[\x22']/i] *)
Definition familyAttrRegex : regex :=
  Seqs [Lit "font-family"; Star true ws; Chr "="%char; Star true ws;
        Class false [One cdq; One "'"%char]; Group 1 (Star true notQuote);
        Class false [One cdq; One "'"%char]].

(** [/font-family\s*:\s*([^;]{0,})/i] *)
Definition familyStyleRegex : regex :=
  Seqs [Lit "font-family"; Star true ws; Chr ":"%char; Star true ws;
        Group 1 (Star true (Class true [One ";"%char]))].

(** [text.match(attr) || text.match(style)] *)
Definition fontMatch (text : str) : option MatchResult :=
  match exec flag_i familyAttrRegex text with
  | Some m => Some m
  | None => exec flag_i familyStyleRegex text
  end.

(** The family names referenced on the text elements, in a [Set]. *)
Definition referencedFamilies (textElements : list str) : list str :=
  fold_left
    (fun fontFamilies text =>
       match fontMatch text with
       | Some m =>
         let fontFamily :=
           replaceAllRe noFlags (Star true (Class false [One "'"%char; One cdq]))
             (beforeComma (trim (group1 m))) [] in
         setAdd fontFamily fontFamilies
       | None => fontFamilies
       end)
    textElements [].

Definition fontFace (fontFamily : str) (src : option str) : str :=
  "@font-face {" ++ nl
  ++ "  font-family: '" ++ fontFamily ++ "';" ++ nl
  ++ "  font-style: normal;" ++ nl
  ++ "  font-weight: normal;" ++ nl
  ++ match src with
     | Some url => "  src: url(" ++ dq ++ url ++ dq ++ ") format(" ++ dq ++ "truetype" ++ dq ++ ");" ++ nl
     | None => []
     end
  ++ "}" ++ nl.

(** The declaration emitted for one family. *)
Definition fontFaceFor (fontPath : str) (mappings : list FontMapping)
    (available : list AvailableFont) (fontFamily : str) : str :=
  let lower := toLowerCase in
  let exactMapping :=
    find (fun m => str_eqb (lower (fm_family m)) (lower fontFamily)) mappings in
  let similarMapping :=
    find (fun m => includes (lower (fm_family m)) (lower fontFamily)
                   || includes (lower fontFamily) (lower (fm_family m))) mappings in
  let mapping := match exactMapping with Some m => Some m | None => similarMapping end in
  match mapping with
  | Some m => fontFace fontFamily (Some (fm_path m))
  | None =>
    let matchingFont :=
      find (fun font => str_eqb (lower (af_fontName font)) (lower fontFamily)
                        || includes (lower fontFamily) (lower (af_fontName font))
                        || includes (lower (af_fontName font)) (lower fontFamily))
           available in
    match matchingFont with
    | Some font => fontFace fontFamily (Some (pathJoin fontPath (fileName font)))
    | None => fontFace fontFamily None
    end
  end.

(** [/<style[^>]*>[\s\S]*?@font-face[\s\S]*?<\/style>/gi] *)
Definition fontFaceBlockRegex : regex :=
  let any : regex := Star false (Class false [Space; NotSpace]) in
  Seqs [Lit "<style"; Star true notGt; Chr ">"%char; any; Lit "@font-face"; any;
        Lit "</style>"].

(** The style block replaces the existing ones and goes after the opening
    tag of the root.  The second component is the [modified] flag. *)
Definition injectStyleBlock (svgContent styleBlock : str) : str * bool :=
  let svgContent := replaceAllRe flag_i fontFaceBlockRegex svgContent [] in
  match exec flag_i svgTagRegex svgContent with
  | Some m =>
    let pos := m_end m in
    (firstn pos svgContent ++ nl ++ styleBlock ++ skipn pos svgContent, true)
  | None => (svgContent, false)
  end.

(** [/style=\x22([^\x22]{0,})\x22/i] *)
Definition styleAttrRegex : regex :=
  Seqs [Lit "style="; Chr cdq; Group 1 (Star true (Class true [One cdq])); Chr cdq].

(** The enhanced form of one text element, [None] when it names no
    family. *)
Definition enhanceElement (originalText : str) : option str :=
  match fontMatch originalText with
  | None => None
  | Some m =>
    let fontFamily := beforeComma (trim (group1 m)) in
    let newText := originalText in
    let newText :=
      if includes originalText "font-weight" then newText
      else replaceRe noFlags textOpen newText
             ("<text font-weight=" ++ dq ++ "bold" ++ dq) in
    let fontStyle : str :=
      "font-family: '" ++ fontFamily ++ "', sans-serif; text-rendering: geometricPrecision;" in
    let newText :=
      if includes newText ("style=" ++ dq)
      then replaceRe flag_i styleAttrRegex newText
             ("style=" ++ dq ++ "$1; " ++ fontStyle ++ dq)
      else replaceRe noFlags textOpen newText
             ("<text style=" ++ dq ++ fontStyle ++ dq) in
    Some newText
  end.

Definition enhanceElements (state : str * bool) (textElements : list str)
    : str * bool :=
  fold_left
    (fun '(svgContent, modified) originalText =>
       match enhanceElement originalText with
       | Some newText =>
         if str_eqb newText originalText then (svgContent, modified)
         else (replaceStr svgContent originalText newText, true)
       | None => (svgContent, modified)
       end)
    textElements state.

(** [preprocessSvgForBetterFonts(svgPath)] on the text of the file.
    [fontPath] is the font directory, [typeXml] the mapping file when it
    exists and [files] the entries of the directory ([None] when reading
    it throws, which leaves the document as it is).  The file is written
    only when [modified] is set. *)
Definition preprocessSvgForBetterFonts (fontPath : str) (typeXml : option str)
    (files : option (list str)) (svgContent : str) : str :=
  let textElements := map m_text (matchAll flag_is textElementRegex svgContent) in
  match textElements, files with
  | [], _ => svgContent
  | _ :: _, None => svgContent
  | _ :: _, Some files =>
    let mappings :=
      match typeXml with
      | Some typeXmlContent => fontMappings typeXmlContent
      | None => []
      end in
    let available := availableFonts files in
    let fontFamilies := referencedFamilies textElements in
    let state :=
      match fontFamilies with
      | [] => (svgContent, false)
      | _ :: _ =>
        let styleBlock : str :=
          "<style type=" ++ dq ++ "text/css" ++ dq ++ ">" ++ nl
          ++ List.concat (map (fontFaceFor fontPath mappings available) fontFamilies)
          ++ "</style>" in
        injectStyleBlock svgContent styleBlock
      end in
    let '(newContent, modified) := enhanceElements state textElements in
    if modified then newContent else svgContent
  end.

End Server.

(** * Notions and examples of the statements *)

Import JS FontManager Server.

(** ** Notions *)

(** The normalisation of a name in the words of the specification:
    lower-case, then keep the letters [a-z] and the digits. *)
Definition isAlnum (c : ascii) : bool := between 97 122 c || between 48 57 c.

Definition normalized (s : str) : str := filter isAlnum (toLowerCase s).

(** A text without [$], which the replacement patterns leave as it is. *)
Definition plain (s : str) : bool := forallb (fun c => negb (Ascii.eqb c "$")) s.

(** The attribute frame inference adds, with the bracket that closes the
    tag. *)
Definition frameAttribute (width height : num) : str :=
  " viewBox=" ++ dq ++ "0 0 " ++ toString width ++ " " ++ toString height ++ dq ++ ">".

(** The size a document declares: the values of [width] and [height] that
    [preprocessSvg] reads off the root tag, when both are there and, unit
    suffix dropped, are numbers greater than zero (its test). *)
Definition declaredSize (svgContent : str) : option (num * num) :=
  match exec flag_i (svgAttrRegex "width") svgContent,
        exec flag_i (svgAttrRegex "height") svgContent with
  | Some wm, Some hm =>
    let width := parseFloat (trim (group1 wm)) in
    let height := parseFloat (trim (group1 hm)) in
    if negb (isNaN width) && negb (isNaN height)
       && (0 <? width)%float && (0 <? height)%float
    then Some (width, height) else None
  | _, _ => None
  end.

(** ** Worlds *)

(** A remote side that answers nothing. *)
Definition offline : Network := {|
  catalog := fun _ => HttpFailure "HTTP error: 503";
  headFailure := fun _ => Some ("HTTP error: 503" : str);
  download := fun _ => inr ("Failed to download font: 503" : str)
|}.

(** No credential and an empty font directory. *)
Definition noCredential : World := {|
  apiKey := None;
  fonts := Some [];
  network := offline;
  calls := [];
  errorLog := []
|}.


(** The font directory, and what it holds after the download of [Roboto],
    and of [Roboto] and [Lato] (the contents of the font files play no
    part); there is no mapping file yet. *)
Definition fontsDir : str := "/srv/fonts".

Definition oneFont : World := {|
  apiKey := None;
  fonts := Some [("Roboto-Regular.ttf" : str, [])];
  network := offline;
  calls := [];
  errorLog := []
|}.

Definition twoFonts : World := {|
  apiKey := None;
  fonts := Some [("Roboto-Regular.ttf" : str, []); ("Lato-Regular.ttf" : str, [])];
  network := offline;
  calls := [];
  errorLog := []
|}.

(** The world after [updateTypeXmlFile(fontName, fontsDir)], and the text
    of the mapping file in a world. *)
Definition register (fontName : str) (w : World) : World :=
  snd (updateTypeXmlFile fontName fontsDir w).

Definition typeXml (w : World) : str :=
  match fonts w with
  | Some d => match readFile "type.xml" d with Some x => x | None => [] end
  | None => []
  end.

(** [Roboto] registered twice, then [Lato] once and twice. *)
Definition robotoTwice : World := register "Roboto" (register "Roboto" twoFonts).
Definition latoOnce : World := register "Lato" robotoTwice.
Definition latoTwice : World := register "Lato" latoOnce.

(** The row written for [Roboto-Regular.ttf], and the rows as
    [preprocessSvgForBetterFonts] reads them back. *)
Definition robotoRow : str :=
  typeEntry "Roboto" "Roboto Regular" "Roboto" "Normal" "400"
            "/srv/fonts/Roboto-Regular.ttf".

Definition roboto : FontMapping :=
  {| fm_name := "Roboto"; fm_family := "Roboto";
     fm_path := "/srv/fonts/Roboto-Regular.ttf" |}.

Definition lato : FontMapping :=
  {| fm_name := "Lato"; fm_family := "Lato";
     fm_path := "/srv/fonts/Lato-Regular.ttf" |}.

(** What is read back of a [Roboto] row that has [Lato] rows written
    into its [glyphs] attribute. *)
Definition brokenRow : FontMapping :=
  {| fm_name := "Roboto"; fm_family := "Roboto";
     fm_path := "/" ++ nl ++ "  <type name=" |}.

(** ** Documents *)

(** Two text elements that name [Arial], the first with a fallback
    chain. *)
Definition twoArialElements : str :=
  "<svg><text font-family=" ++ dq ++ "Arial, sans-serif" ++ dq ++ ">A</text>"
  ++ "<text font-family=" ++ dq ++ "Arial" ++ dq ++ ">B</text></svg>".


(** Two catalog fonts. *)
Definition robotoAndLato : str :=
  "<svg><text font-family=" ++ dq ++ "Roboto" ++ dq ++ ">A</text>"
  ++ "<text font-family=" ++ dq ++ "Lato" ++ dq ++ ">B</text></svg>".


Definition arialText : str :=
  "<svg><text font-family=" ++ dq ++ "Arial" ++ dq ++ ">Hi</text></svg>".


(** The example of the specification, 200 by 100, with its root tag as a
    match. *)
Definition sized : str :=
  "<svg width=" ++ dq ++ "200" ++ dq ++ " height=" ++ dq ++ "100" ++ dq ++ "><rect/></svg>".





(** Dimensions that are not numbers. *)
Definition autoSized : str :=
  "<svg width=" ++ dq ++ "auto" ++ dq ++ " height=" ++ dq ++ "auto" ++ dq
  ++ "><rect/></svg>".

(** ** Notions of the further properties *)

(** [if (!fs.existsSync(fontsDir)) fs.mkdirSync(fontsDir, { recursive: true })] *)
Definition ensureDirectory (w : World) : World :=
  match fonts w with
  | None => setFonts (Some []) w
  | Some _ => w
  end.

(** The files of the font directory, none when it is absent. *)
Definition entriesOf (w : World) : directory :=
  match fonts w with Some d => d | None => [] end.

(** The address of the catalog query. *)
Definition apiUrlOf (key : str) : str :=
  "https://www.googleapis.com/webfonts/v1/webfonts?key=" ++ key.

(** [`${fontName.replace(/\s+/g, '')}-Regular.ttf`] *)
Definition regularFileName (fontName : str) : str :=
  stripSpaces fontName ++ "-Regular.ttf".

(** The world once the three calls of a resolution have been issued. *)
Definition afterProbe (key ttfUrl : str) (w : World) : World :=
  addCall (HttpDownload ttfUrl)
    (ensureDirectory (addCall (HttpHead ttfUrl) (addCall (HttpGet (apiUrlOf key)) w))).



(** ** What a pattern matches

    [matches fl r s c s' c']: the pattern [r] matches a prefix of [s],
    [s'] is what follows it, and the captures [c] become [c'].  The
    matcher explores these matches in the order of the pattern; the
    relation forgets the order. *)
Inductive matches (fl : flags) : regex -> str -> captures -> str -> captures -> Prop :=
| matches_Chr (x a : ascii) (s : str) (c : captures) :
    charMatches fl x a = true -> matches fl (Chr x) (a :: s) c s c
| matches_Class (negated : bool) (items : list classItem) (a : ascii) (s : str)
    (c : captures) :
    classMatches fl negated items a = true ->
    matches fl (Class negated items) (a :: s) c s c
| matches_Dot (a : ascii) (s : str) (c : captures) :
    dotAll fl || negb (isLineTerminator a) = true -> matches fl Dot (a :: s) c s c
| matches_AtEnd (c : captures) : matches fl AtEnd [] c [] c
| matches_Eps (s : str) (c : captures) : matches fl Eps s c s c
| matches_Seq (a b : regex) (s s1 s2 : str) (c c1 c2 : captures) :
    matches fl a s c s1 c1 -> matches fl b s1 c1 s2 c2 ->
    matches fl (Seq a b) s c s2 c2
| matches_AltL (a b : regex) (s s1 : str) (c c1 : captures) :
    matches fl a s c s1 c1 -> matches fl (Alt a b) s c s1 c1
| matches_AltR (a b : regex) (s s1 : str) (c c1 : captures) :
    matches fl b s c s1 c1 -> matches fl (Alt a b) s c s1 c1
| matches_Star0 (greedy : bool) (a : regex) (s : str) (c : captures) :
    matches fl (Star greedy a) s c s c
| matches_StarS (greedy : bool) (a : regex) (s s1 s2 : str) (c c1 c2 : captures) :
    matches fl a s c s1 c1 -> length s1 < length s ->
    matches fl (Star greedy a) s1 c1 s2 c2 ->
    matches fl (Star greedy a) s c s2 c2
| matches_Group (i : nat) (a : regex) (s s1 : str) (c c1 : captures) :
    matches fl a s c s1 c1 ->
    matches fl (Group i a) s c s1 ((i, firstn (length s - length s1) s) :: c1).

(** Characters compared as the flags have it. *)
Definition canonStr (fl : flags) (s : str) : str := map (canon fl) s.

(** The one text a pattern made of characters matches, flags apart. *)
Fixpoint fixedText (r : regex) : option str :=
  match r with
  | Chr c => Some [c]
  | Eps => Some []
  | Seq a b =>
    match fixedText a, fixedText b with
    | Some x, Some y => Some (x ++ y)
    | _, _ => None
    end
  | Group _ a => fixedText a
  | _ => None
  end.

(** [requires l fl r]: every match of [r] holds the text [l]. *)
Fixpoint requires (l : str) (fl : flags) (r : regex) : bool :=
  match fixedText r with
  | Some t => includes (canonStr fl t) (canonStr fl l)
  | None => false
  end
  || match r with
     | Seq a b => requires l fl a || requires l fl b
     | Alt a b => requires l fl a && requires l fl b
     | Group _ a => requires l fl a
     | _ => false
     end.

(** Every code unit. *)
Definition allAscii : list ascii := map ascii_of_nat (seq 0 256).

(** [onlyChars p fl r]: [r] matches texts of characters in [p] only. *)
Fixpoint onlyChars (p : ascii -> bool) (fl : flags) (r : regex) : bool :=
  match r with
  | Chr x => forallb (fun a => implb (charMatches fl x a) (p a)) allAscii
  | Class negated items =>
    forallb (fun a => implb (classMatches fl negated items a) (p a)) allAscii
  | Dot => forallb (fun a => implb (dotAll fl || negb (isLineTerminator a)) (p a)) allAscii
  | AtEnd | Eps => true
  | Seq a b | Alt a b => onlyChars p fl a && onlyChars p fl b
  | Star _ a | Group _ a => onlyChars p fl a
  end.

(** [groupsOnly p fl r]: the groups of [r] capture texts of characters in
    [p] only. *)
Fixpoint groupsOnly (p : ascii -> bool) (fl : flags) (r : regex) : bool :=
  match r with
  | Group _ a => onlyChars p fl a && groupsOnly p fl a
  | Seq a b | Alt a b => groupsOnly p fl a && groupsOnly p fl b
  | Star _ a => groupsOnly p fl a
  | _ => true
  end.

(** A character that is no quote. *)
Definition noQuote (c : ascii) : bool :=
  negb (Ascii.eqb c cdq) && negb (Ascii.eqb c "'").

(** The rows [updateTypeXmlFile] writes for a family: one for each of
    its font files, then the default row. *)
Definition newEntries (fontName fontsDir : str) (files : list str) : str :=
  List.concat (map (fileEntry fontName fontsDir) (fontFilesOf fontName files))
  ++ defaultEntry fontName fontsDir (fontFilesOf fontName files).



(** The characters of a printed Number. *)
Definition numberChar (c : ascii) : bool :=
  isDigit c || existsb (Ascii.eqb c) (".e+-NaInfity" : str).

(** The root tag [modifySvgDimensions] writes for the target size of the
    server, and the document it makes of what follows the old root
    tag. *)
Definition targetSvgTag : str :=
  "<svg width=" ++ dq ++ "102pt" ++ dq ++ " height=" ++ dq ++ "102pt" ++ dq
  ++ " viewBox=" ++ dq ++ "0 0 102 102" ++ dq
  ++ " xmlns=" ++ dq ++ "http://www.w3.org/2000/svg" ++ dq
  ++ " xmlns:xlink=" ++ dq ++ "http://www.w3.org/1999/xlink" ++ dq
  ++ " xmlns:dc=" ++ dq ++ "http://purl.org/dc/elements/1.1/" ++ dq
  ++ " xmlns:cc=" ++ dq ++ "http://creativecommons.org/ns#" ++ dq
  ++ " xmlns:se=" ++ dq ++ "http://www.pixopa.com" ++ dq ++ ">".

(** [/<text[^>]*>/i] *)
Definition textTagRegex : regex := Seqs [Lit "<text"; Star true notGt; Chr ">"%char].

(** The passes of the [/convert] handler over the uploaded document, in
    its order, on the text of the file: [fontPath], [typeXml] and [files]
    are the font directory as font resolution has left it. *)
Definition prepareDocument (fontPath : str) (typeXml : option str)
    (files : option (list str)) (svgContent : str) : str :=
  let svgContent := preprocessSvg svgContent in
  let svgContent := modifySvgDimensions svgContent TARGET_PDF_SIZE in
  let hasTextElements := test flag_i textTagRegex svgContent in
  if hasTextElements
  then preprocessSvgForBetterFonts fontPath typeXml files svgContent
  else svgContent.

(** A text that starts like a tag other than the root tag: [<], then
    two characters that are not [sv] in any case. *)
Definition otherTag (t : str) : Prop :=
  exists c1 c2 c3 rest,
    t = c1 :: c2 :: c3 :: rest
    /\ canon flag_i c1 = "<"%char
    /\ (canon flag_i c2 <> "S"%char \/ canon flag_i c3 <> "V"%char).

(** A document with a root tag: the characters of [<svg], in any case,
    with a [>] somewhere behind them. *)
Definition hasRootTag (s : str) : Prop :=
  exists p head t,
    s = p ++ head ++ t
    /\ canonStr flag_i head = canonStr flag_i "<svg"
    /\ In ">"%char t.

(** A document without [$] that has a root tag.  The rewriting steps that
    substitute document text keep both properties. *)
Definition rooted (s : str) : Prop := plain s = true /\ hasRootTag s.

(** * Properties *)

(** ** Strings *)

Lemma str_eqb_refl (a : str) : str_eqb a a = true.
Proof.
  induction a as [|x a IH]; simpl; [reflexivity|].
  now rewrite Ascii.eqb_refl, IH.
Qed.

Lemma str_eqb_eq (a b : str) : str_eqb a b = true <-> a = b.
Proof.
  split; [|intros ->; apply str_eqb_refl].
  revert b; induction a as [|x a IH]; intros [|y b]; simpl; try easy.
  intros H; apply andb_true_iff in H as [Hc Hs].
  apply Ascii.eqb_eq in Hc; apply IH in Hs; now subst.
Qed.

Lemma startsWith_iff (s p : str) :
  startsWith s p = true <-> exists post, s = p ++ post.
Proof.
  revert s; induction p as [|x p IH]; intros s; simpl.
  - split; [intros _; now exists s|reflexivity].
  - destruct s as [|y s].
    + split; [discriminate|intros [post H]; discriminate].
    + rewrite andb_true_iff, Ascii.eqb_eq, IH; split.
      * intros [-> [post ->]]; now exists post.
      * intros [post H]; injection H as -> ->; split; [reflexivity|now exists post].
Qed.

Lemma includes_unfold (s sub : str) :
  includes s sub =
  startsWith s sub || match s with [] => false | _ :: s' => includes s' sub end.
Proof. destruct s; reflexivity. Qed.

(** [includes] is the substring relation. *)
Lemma includes_iff (s sub : str) :
  includes s sub = true <-> exists pre post, s = pre ++ sub ++ post.
Proof.
  induction s as [|c s IH]; rewrite includes_unfold, orb_true_iff, startsWith_iff.
  - split.
    + intros [[post H]|H]; [|discriminate]; exists [], post; exact H.
    + intros [pre [post H]]; left; destruct pre as [|x pre]; [|discriminate].
      now exists post.
  - rewrite IH; split.
    + intros [[post H]|[pre [post H]]].
      * exists [], post; exact H.
      * exists (c :: pre), post; simpl; now rewrite H.
    + intros [[|x pre] [post H]].
      * left; now exists post.
      * right; injection H as -> ->; now exists pre, post.
Qed.

(** ** The matcher

    The matcher hands to its continuation a suffix of the text it was
    given: what a match consumes is a prefix. *)

Lemma repeatMatcher_suffix (R : Type) (greedy : bool)
    (m : str -> captures -> continuation R -> option R) (k : continuation R) :
  (forall s c k' res,
      m s c k' = Some res -> exists x s' c', s = x ++ s' /\ k' s' c' = Some res) ->
  forall (n : nat) (s : str) (c : captures) (res : R),
    repeatMatcher R greedy m k n s c = Some res ->
    exists x s' c', s = x ++ s' /\ k s' c' = Some res.
Proof.
  intros Hm; induction n as [|n IH]; intros s c res H; cbn [repeatMatcher] in H.
  - now exists [], s, c.
  - assert (Hagain :
      m s c (fun s1 c1 => if length s1 <? length s
                          then repeatMatcher R greedy m k n s1 c1 else None) = Some res ->
      exists x s' c', s = x ++ s' /\ k s' c' = Some res).
    { intros Ha; apply Hm in Ha as [x [s1 [c1 [-> Hk]]]].
      destruct (length s1 <? length (x ++ s1)); [|discriminate].
      apply IH in Hk as [y [s' [c' [-> Hk]]]].
      exists (x ++ y), s', c'; split; [now rewrite app_assoc|exact Hk]. }
    destruct greedy.
    + destruct (m s c _) as [r|] eqn:E.
      * injection H as <-; now apply Hagain.
      * now exists [], s, c.
    + destruct (k s c) as [r|] eqn:E.
      * injection H as <-; now exists [], s, c.
      * now apply Hagain.
Qed.

Lemma matcher_suffix (fl : flags) (R : Type) (r : regex) :
  forall (s : str) (c : captures) (k : continuation R) (res : R),
    matcher fl R r s c k = Some res ->
    exists x s' c', s = x ++ s' /\ k s' c' = Some res.
Proof.
  induction r as [x|negated items| | | |a IHa b IHb|a IHa b IHb|greedy a IHa|i a IHa];
    intros s c k res H; cbn [matcher] in H.
  - destruct s as [|a s]; [discriminate|].
    destruct (charMatches fl x a); [|discriminate]; now exists [a], s, c.
  - destruct s as [|a s]; [discriminate|].
    destruct (classMatches fl negated items a); [|discriminate]; now exists [a], s, c.
  - destruct s as [|a s]; [discriminate|].
    destruct (dotAll fl || negb (isLineTerminator a)); [|discriminate];
      now exists [a], s, c.
  - destruct s as [|a s]; [|discriminate]; now exists [], [], c.
  - now exists [], s, c.
  - apply IHa in H as [x [s1 [c1 [-> H]]]].
    apply IHb in H as [y [s' [c' [-> H]]]].
    exists (x ++ y), s', c'; split; [now rewrite app_assoc|exact H].
  - destruct (matcher fl R a s c k) as [r|] eqn:E.
    + injection H as <-; now apply IHa in E.
    + now apply IHb in H.
  - revert H; apply repeatMatcher_suffix; intros s0 c0 k' res0; apply IHa.
  - apply IHa in H as [x [s1 [c1 [-> H]]]]; eexists x, s1, _; split; [reflexivity|exact H].
Qed.

Lemma firstn_consumed (x rest : str) :
  firstn (length (x ++ rest) - length rest) (x ++ rest) = x.
Proof.
  rewrite length_app, Nat.add_sub, firstn_app, firstn_all, Nat.sub_diag.
  cbn [firstn]; now rewrite app_nil_r.
Qed.

(** A match lies inside the text, and one of a pattern that starts with
    a character is never empty: the loops over [re.exec] advance. *)
Lemma searchFrom_inside (fl : flags) (r : regex) :
  forall (s : str) (i : nat) (m : MatchResult),
    searchFrom fl r s i = Some m ->
    exists pre post, s = pre ++ m_text m ++ post /\ m_index m = i + length pre.
Proof.
  induction s as [|a s IH]; intros i m; cbn [searchFrom];
    destruct (matchHere fl r _) as [[rest c]|] eqn:E; intros H; try discriminate.
  - injection H as <-; exists [], []; cbn [m_text m_index app length]; split;
      [reflexivity|lia].
  - injection H as <-; apply matcher_suffix in E as [x [s' [c' [Hs Hk]]]].
    injection Hk as -> ->.
    exists [], rest; cbn [m_text m_index app]; split; [|cbn; lia].
    change (a :: s = firstn (length (a :: s) - length rest) (a :: s) ++ rest).
    now rewrite Hs, firstn_consumed.
  - apply IH in H as [pre [post [-> ->]]].
    exists (a :: pre), post; cbn [app length]; split; [reflexivity|lia].
Qed.

Lemma match_nonempty (fl : flags) (x : ascii) (r : regex) :
  forall (s : str) (i : nat) (m : MatchResult),
    searchFrom fl (Seq (Chr x) r) s i = Some m -> m_text m <> [].
Proof.
  induction s as [|a s IH]; intros i m; cbn [searchFrom];
    destruct (matchHere fl _ _) as [[rest c]|] eqn:E; intros H; try discriminate.
  - injection H as <-; unfold matchHere in E; cbn [matcher] in E.
    destruct (charMatches fl x a); [|discriminate E].
    apply matcher_suffix in E as [y [s' [c' [-> Hk]]]]; injection Hk as -> ->.
    cbn [m_text].
    change (firstn (length ((a :: y) ++ rest) - length rest) ((a :: y) ++ rest) <> []).
    rewrite firstn_consumed; discriminate.
  - now apply IH in H.
Qed.

(** ** Global replacement of one character class *)

Lemma searchFrom_index (fl : flags) (r : regex) (s : str) :
  forall i m, searchFrom fl r s i = Some m -> i <= m_index m.
Proof.
  induction s as [|c s IH]; intros i m; simpl;
    destruct (matchHere fl r _) as [[rest caps]|]; intros H;
    try (injection H as <-; simpl; lia); try discriminate.
  apply IH in H; lia.
Qed.

Section ClassReplace.
Variables (negated : bool) (items : list classItem).

Let r : regex := Class negated items.
Let keep (c : ascii) : bool := negb (classMatches noFlags negated items c).

Lemma matchHere_class (s : str) :
  matchHere noFlags r s =
  match s with
  | a :: s' => if classMatches noFlags negated items a then Some (s', []) else None
  | [] => None
  end.
Proof. destruct s; reflexivity. Qed.

Lemma rebuild_class :
  forall (t pre : str) (n : nat),
    length t < n ->
    rebuild (pre ++ t) (matchAllFrom noFlags r (pre ++ t) n (length pre))
            (length pre) []
    = filter keep t.
Proof.
  induction t as [|c t IH]; intros pre n Hn; (destruct n as [|n]; [simpl in Hn; lia|]).
  - cbn [matchAllFrom].
    replace (length (pre ++ []) <? length pre) with false
      by (symmetry; apply Nat.ltb_ge; rewrite length_app; simpl; lia).
    rewrite skipn_app, skipn_all, Nat.sub_diag; simpl.
    rewrite skipn_app, skipn_all, Nat.sub_diag; reflexivity.
  - cbn [matchAllFrom].
    replace (length (pre ++ c :: t) <? length pre) with false
      by (symmetry; apply Nat.ltb_ge; rewrite length_app; simpl; lia).
    assert (Hskip : skipn (length pre) (pre ++ c :: t) = c :: t)
      by (rewrite skipn_app, skipn_all, Nat.sub_diag; reflexivity).
    rewrite Hskip.
    assert (Hpre : (pre ++ [c]) ++ t = pre ++ c :: t)
      by (rewrite <- app_assoc; reflexivity).
    assert (Hlen : length (pre ++ [c]) = S (length pre))
      by (rewrite length_app; simpl; lia).
    cbn [searchFrom]; rewrite matchHere_class.
    unfold keep at 1; cbn [filter].
    destruct (classMatches noFlags negated items c) eqn:Ec; cbn [negb].
    + unfold m_end; cbn [m_index m_text].
      replace (length (c :: t) - length t) with 1 by (cbn [length]; lia).
      cbn [firstn length].
      replace (length pre + 1 =? length pre) with false
        by (symmetry; apply Nat.eqb_neq; lia).
      cbn [rebuild]; unfold substitute; cbn [getSubstitution].
      rewrite Nat.sub_diag; cbn [firstn app].
      unfold m_end; cbn [m_index m_text length].
      specialize (IH (pre ++ [c]) n).
      rewrite Hpre, Hlen in IH.
      replace (length pre + 1) with (S (length pre)) by lia.
      apply IH; simpl in Hn; lia.
    + specialize (IH (pre ++ [c]) (S n)).
      rewrite Hpre, Hlen in IH.
      cbn [matchAllFrom] in IH.
      replace (length (pre ++ c :: t) <? S (length pre)) with false in IH
        by (symmetry; apply Nat.ltb_ge; rewrite length_app; simpl; lia).
      assert (Hskip' : skipn (S (length pre)) (pre ++ c :: t) = t).
      { change (S (length pre)) with (1 + length pre).
        rewrite <- skipn_skipn, Hskip; reflexivity. }
      rewrite Hskip' in IH.
      destruct (searchFrom noFlags r t (S (length pre))) as [m|] eqn:Es.
      * apply searchFrom_index in Es.
        cbn [rebuild] in IH |- *.
        rewrite Hskip' in IH; rewrite Hskip.
        replace (m_index m - length pre) with (S (m_index m - S (length pre))) by lia.
        cbn [firstn app]; f_equal; apply IH; simpl in Hn; lia.
      * cbn [rebuild] in IH |- *.
        rewrite Hskip' in IH; rewrite Hskip.
        f_equal; apply IH; simpl in Hn; lia.
Qed.

(** [s.replace(/[...]/g, '')] keeps the characters outside the class. *)
Lemma replaceAll_class (s : str) :
  replaceAllRe noFlags r s [] = filter keep s.
Proof.
  unfold replaceAllRe, matchAll.
  apply (rebuild_class s [] (S (length s))); lia.
Qed.
End ClassReplace.

(** ** The local index (C10) *)

Lemma normalizeName_normalized (s : str) : normalizeName s = normalized s.
Proof.
  unfold normalizeName, normalized, notAlnum.
  rewrite replaceAll_class.
  apply filter_ext; intros c.
  unfold classMatches; cbn [existsb itemMatches noFlags ignoreCase].
  unfold inRange, isAlnum, between.
  change (code "a"%char) with 97; change (code "z"%char) with 122.
  change (code "0"%char) with 48; change (code "9"%char) with 57.
  now rewrite orb_false_r; destruct (_ || _).
Qed.

(** C10.  [fontExistsLocally] answers [true] exactly when some entry of
    the directory has a base name (the name without its extension) whose
    normalised form contains the normalised query as a substring; when
    reading the directory fails it answers [false].  A query
    ["Open Sans"] finds [OpenSans-Bold.ttf], and nothing is found in an
    empty directory. *)
Theorem fontExistsLocally_spec :
  (forall (fontName : str) (files : list str),
      fontExistsLocally fontName (Some files) = true <->
      exists file pre post,
        In file files /\
        normalized (basename file (extname file)) = pre ++ normalized fontName ++ post)
  /\ (forall fontName : str, fontExistsLocally fontName None = false)
  /\ fontExistsLocally "Open Sans" (Some ["OpenSans-Bold.ttf" : str]) = true
  /\ (forall fontName : str, fontExistsLocally fontName (Some []) = false).
Proof.
  split; [|split; [reflexivity|split; [vm_compute; reflexivity|reflexivity]]].
  intros fontName files; unfold fontExistsLocally.
  rewrite existsb_exists; split.
  - intros [file [Hin H]].
    rewrite !normalizeName_normalized in H.
    apply includes_iff in H as [pre [post H]].
    now exists file, pre, post.
  - intros [file [pre [post [Hin H]]]].
    exists file; split; [exact Hin|].
    rewrite !normalizeName_normalized.
    apply includes_iff; now exists pre, post.
Qed.

(** ** The extractor (C1) *)

Lemma setAdd_NoDup (x : str) (l : list str) : NoDup l -> NoDup (setAdd x l).
Proof.
  intros Hl; unfold setAdd; destruct (existsb (str_eqb x) l) eqn:E; [exact Hl|].
  apply NoDup_app; [exact Hl|repeat constructor; intros []|].
  intros y Hy [<-|[]].
  assert (existsb (str_eqb x) l = true); [|congruence].
  apply existsb_exists; exists x; split; [exact Hy|apply str_eqb_refl].
Qed.

Lemma addMatches_NoDup (fl : flags) (r : regex) (text : str) (set : list str) :
  NoDup set -> NoDup (addMatches fl r text set).
Proof.
  unfold addMatches; revert set.
  induction (matchAll fl r text) as [|m ms IH]; intros set Hs; cbn [fold_left];
    [exact Hs|].
  now apply IH, setAdd_NoDup.
Qed.

Lemma styleBlocks_NoDup (blocks : list MatchResult) :
  forall set : list str,
    NoDup set ->
    NoDup (fold_left (fun acc cssMatch =>
                        addMatches noFlags fontFamilyRegex (group1 cssMatch) acc)
                     blocks set).
Proof.
  induction blocks as [|m ms IH]; intros set Hs; cbn [fold_left]; [exact Hs|].
  now apply IH, addMatches_NoDup.
Qed.

(** The set itself holds no value twice: the values are compared as they
    were captured, fallback chain included. *)
Lemma fontFamilySet_NoDup (svgContent : str) : NoDup (fontFamilySet svgContent).
Proof.
  unfold fontFamilySet.
  repeat (apply addMatches_NoDup || apply styleBlocks_NoDup); constructor.
Qed.

(** C1.  The set of [extractFontsFromSVG] holds the captured values as
    they stand; the fallback chains are cut after the set is turned into
    an array.  Two values with the same primary name therefore give that
    name twice: the result is not free of duplicates. *)
Theorem extractFonts_repeats_primary_name :
  fontFamilySet twoArialElements = ["Arial, sans-serif" : str; "Arial" : str]
  /\ extractFontsFromSVG twoArialElements = ["Arial" : str; "Arial" : str]
  /\ ~ NoDup (extractFontsFromSVG twoArialElements).
Proof.
  assert (H : extractFontsFromSVG twoArialElements = ["Arial" : str; "Arial" : str])
    by (vm_compute; reflexivity).
  split; [vm_compute; reflexivity|]; split; [exact H|].
  rewrite H; intros Hn; inversion Hn as [|x l Hin _]; subst.
  apply Hin; left; reflexivity.
Qed.

(** ** The resolver (C4, C9) *)

Lemma systemFonts_includes (fontName : str) :
  existsb (str_eqb fontName) systemFonts = true <-> In fontName systemFonts.
Proof.
  rewrite existsb_exists; split.
  - intros [x [Hin Heq]]; apply str_eqb_eq in Heq; now subst.
  - intros Hin; exists fontName; split; [exact Hin|apply str_eqb_refl].
Qed.

(** [downloadGoogleFont] catches what its body throws: it always
    completes normally. *)
Lemma downloadGoogleFont_returns (fontName fontsDir : str) (w : World) :
  exists (success : bool) (w' : World),
    downloadGoogleFont fontName fontsDir w = (Normal success, w').
Proof.
  unfold downloadGoogleFont, tryCatch.
  match goal with |- context [match ?body with _ => _ end] => destruct body as [[b|e] w1] end.
  - now exists b, w1.
  - now exists false, (addError ("Error downloading Google Font " ++ fontName ++ ": " ++ e) w1).
Qed.

(** So the [catch] of the loop never runs and the report never gains an
    entry in [errors]. *)
Lemma ensureFont_errors (fontsDir : str) (results : Results) (fontName : str) (w : World) :
  errors (fst (ensureFont fontsDir results fontName w)) = errors results.
Proof.
  unfold ensureFont.
  destruct (fontExistsLocally _ _); [reflexivity|].
  destruct (downloadGoogleFont_returns fontName fontsDir w) as [b [w' H]].
  rewrite H; now destruct b.
Qed.

Lemma ensureFonts_errors (fontsDir : str) (fontFamilies : list str) :
  forall (results : Results) (w : World),
    errors (fst (ensureFonts fontsDir results fontFamilies w)) = errors results.
Proof.
  induction fontFamilies as [|fontName rest IH]; intros results w; simpl; [reflexivity|].
  pose proof (ensureFont_errors fontsDir results fontName w) as He.
  destruct (ensureFont fontsDir results fontName w) as [r1 w1]; simpl in He.
  now rewrite IH.
Qed.






(** The whole run on a document that names [Roboto] and [Lato]: both are
    tried and listed as failed, [errors] is empty, no call is issued and
    two lines are logged. *)
Lemma report_without_credential :
  let (results, w) := ensureFontsAvailable (inl robotoAndLato) "/srv/fonts" noCredential in
  fontsFailed results = ["Roboto" : str; "Lato" : str]
  /\ errors results = []
  /\ calls w = []
  /\ length (errorLog w) = 2.
Proof. vm_compute; repeat split; reflexivity. Qed.

(** ** The mapping file (C3, C5) *)

(** C5.  For the file [Roboto-Regular.ttf], the one [downloadGoogleFont]
    creates, the row of the file is named by the bare family name (the
    chain that builds [typeName] has no case for [-regular], the chain
    for [fullname] has), so it is the same row as the additional default
    row: after the write the mapping holds the tuple
    [(Roboto, Roboto, Normal, 400)] twice. *)
Theorem default_row_repeats_regular_row :
  fileEntry "Roboto" fontsDir "Roboto-Regular.ttf" = robotoRow
  /\ defaultEntry "Roboto" fontsDir ["Roboto-Regular.ttf" : str] = robotoRow
  /\ typeXml (register "Roboto" oneFont)
     = "<?xml version=" ++ dq ++ "1.0" ++ dq ++ "?>" ++ nl ++ "<typemap>" ++ nl
       ++ robotoRow ++ robotoRow ++ "</typemap>".
Proof. repeat split; vm_compute; reflexivity. Qed.

(** The names and the directory of the scenario are those the embedding
    covers, and the second registration of [Roboto] has put its rows
    behind the closing tag. *)
Lemma rows_behind_closing_tag :
  literalName "Roboto" = true
  /\ literalName "Lato" = true
  /\ typeXml robotoTwice
     = "<?xml version=" ++ dq ++ "1.0" ++ dq ++ "?>" ++ nl ++ "<typemap>" ++ nl
       ++ "  " ++ nl ++ "  " ++ nl ++ "</typemap>" ++ nl ++ robotoRow ++ robotoRow.
Proof. repeat split; vm_compute; reflexivity. Qed.

(** C3.  [closingTagPos] is taken before the stale rows are removed and
    used after.  From the file two registrations of [Roboto] leave, a
    first registration of [Lato] gives the rows of both families; the
    second one, with the same files present, removes the [Lato] rows in
    front of the stale position and writes the new ones into the second
    [Roboto] row: the rows are not those the first call left. *)
Theorem second_register_changes_rows :
  fontMappings (typeXml robotoTwice) = [roboto; roboto]
  /\ fontMappings (typeXml latoOnce) = [lato; lato; roboto; roboto]
  /\ fontMappings (typeXml latoTwice) = [roboto; brokenRow; lato].
Proof. repeat split; vm_compute; reflexivity. Qed.

(** ** Canvas normalisation (C2, C8) *)





(** C8.  The default pair is used only when an attribute is not found; a
    value that is found and does not parse gives [NaN], which
    [modifySvgDimensions] does not test for (the frame inference of
    [preprocessSvg] does, and leaves such a document alone).  The scale
    factor and the offsets are then [NaN], and so written into the
    document. *)
Theorem unparseable_dimensions_give_NaN :
  isNaN (scaleFactor (documentTransform autoSized TARGET_PDF_SIZE)) = true
  /\ isNaN (centerX (documentTransform autoSized TARGET_PDF_SIZE)) = true
  /\ isNaN (centerY (documentTransform autoSized TARGET_PDF_SIZE)) = true
  /\ includes (modifySvgDimensions autoSized TARGET_PDF_SIZE)
              "translate(NaN, NaN) scale(NaN)" = true
  /\ inferViewBox autoSized = autoSized.
Proof. repeat split; vm_compute; reflexivity. Qed.

(** With an attribute missing the default pair is used. *)
Lemma missing_dimension_gives_default (svgContent : str) :
  exec flag_i (dimensionRegex "width") svgContent = None
  \/ exec flag_i (dimensionRegex "height") svgContent = None ->
  originalDimensions svgContent = (151.1712%float, 151.1712%float).
Proof.
  unfold originalDimensions; intros [-> | ->]; [reflexivity|].
  now destruct (exec flag_i (dimensionRegex "width") svgContent).
Qed.

(** ** The root tag *)

(** What a greedy [*] over one character class consumes. *)
Lemma repeat_class_sound (fl : flags) (R : Type) (negated : bool)
    (items : list classItem) (k : continuation R) :
  forall (n : nat) (s : str) (c : captures) (res : R),
    repeatMatcher R true (matcher fl R (Class negated items)) k n s c = Some res ->
    exists b s',
      s = b ++ s'
      /\ Forall (fun a => classMatches fl negated items a = true) b
      /\ k s' c = Some res.
Proof.
  induction n as [|n IH]; intros s c res H.
  - exists [], s; repeat split; [constructor|exact H].
  - cbn [repeatMatcher] in H.
    destruct s as [|a s]; cbn [matcher] in H.
    + exists [], []; repeat split; [constructor|exact H].
    + destruct (classMatches fl negated items a) eqn:Ea.
      * replace (length s <? length (a :: s)) with true in H
          by (symmetry; apply Nat.ltb_lt; simpl; lia).
        destruct (repeatMatcher R true _ k n s c) as [x|] eqn:E.
        -- injection H as <-.
           apply IH in E as [b [s' [-> [Hb Hk]]]].
           exists (a :: b), s'; repeat split; [now constructor|exact Hk].
        -- exists [], (a :: s); repeat split; [constructor|exact H].
      * exists [], (a :: s); repeat split; [constructor|exact H].
Qed.

Lemma charMatches_gt (fl : flags) (a : ascii) :
  charMatches fl ">" a = true -> a = ">"%char.
Proof.
  destruct fl as [[|] d];
    destruct a as [[|] [|] [|] [|] [|] [|] [|] [|]]; vm_compute; congruence.
Qed.

Lemma notGt_matches (fl : flags) (a : ascii) :
  classMatches fl true [One ">"%char] a = true -> a <> ">"%char.
Proof.
  intros H ->; destruct fl as [[|] d]; vm_compute in H; discriminate.
Qed.

(** The text [/<svg[^>]*>/i] matches ends with the first [>]. *)
Lemma svgTag_shape (s rest : str) (c : captures) :
  matchHere flag_i svgTagRegex s = Some (rest, c) ->
  exists body, s = body ++ ">"%char :: rest /\ ~ In ">"%char body.
Proof.
  unfold matchHere, svgTagRegex, notGt.
  change (Lit "<svg")
    with (Seq (Chr "<") (Seq (Chr "s") (Seq (Chr "v") (Chr "g")))).
  cbn [Seqs matcher].
  destruct s as [|a1 [|a2 [|a3 [|a4 s]]]]; cbn [matcher];
    repeat match goal with
           | |- context [if ?b then _ else _] => destruct b eqn:?; try discriminate
           | |- None = Some _ -> _ => discriminate
           end.
  intros H.
  apply repeat_class_sound in H as [b [s' [-> [Hb Hk]]]].
  destruct s' as [|g s']; [discriminate|].
  destruct (charMatches flag_i ">" g) eqn:Eg; [|discriminate].
  apply charMatches_gt in Eg; injection Hk as Hr Hc; subst g s'.
  exists (a1 :: a2 :: a3 :: a4 :: b); split; [reflexivity|].
  intros [E|[E|[E|[E|Hin]]]]; try (subst; vm_compute in *; discriminate).
  rewrite Forall_forall in Hb; apply Hb in Hin.
  now apply notGt_matches in Hin.
Qed.

Lemma searchFrom_sound (fl : flags) (r : regex) :
  forall (s : str) (i : nat) (m : MatchResult),
    searchFrom fl r s i = Some m ->
    exists pre suf rest c,
      s = pre ++ suf
      /\ matchHere fl r suf = Some (rest, c)
      /\ m_index m = i + length pre
      /\ m_text m = firstn (length suf - length rest) suf.
Proof.
  induction s as [|a s IH]; intros i m; cbn [searchFrom];
    destruct (matchHere fl r _) as [[rest c]|] eqn:E; intros H;
    try discriminate.
  - injection H as <-; exists [], [], rest, c; cbn; repeat split; [exact E|lia].
  - injection H as <-; exists [], (a :: s), rest, c; cbn; repeat split; [exact E|lia].
  - apply IH in H as [pre [suf [rest [c [-> [Hm [Hi Ht]]]]]]].
    exists (a :: pre), suf, rest, c; cbn [length app]; repeat split;
      [exact Hm|lia|exact Ht].
Qed.

(** [tag.replace(/>$/, tpl)] on a text that ends with its only [>]. *)
Lemma search_closingGt (body : str) :
  ~ In ">"%char body ->
  forall i : nat,
    searchFrom noFlags closingGt (body ++ ">") i
    = Some {| m_index := i + length body; m_text := ">"; m_groups := [] |}.
Proof.
  induction body as [|a body IH]; intros Hnot i.
  - cbn; now rewrite Nat.add_0_r.
  - assert (Ha : Ascii.eqb a ">" = false).
    { apply Ascii.eqb_neq; intros ->; apply Hnot; now left. }
    cbn [app searchFrom]; unfold matchHere, closingGt; cbn [matcher].
    unfold charMatches, canon; cbn [ignoreCase noFlags]; rewrite Ha.
    fold closingGt; rewrite IH; [|intros Hin; apply Hnot; now right].
    cbn [length]; do 2 f_equal; lia.
Qed.

Lemma replace_closingGt (body tpl : str) :
  ~ In ">"%char body ->
  replaceRe noFlags closingGt (body ++ ">") tpl
  = body ++ getSubstitution ">" body [] [] tpl.
Proof.
  intros Hnot; unfold replaceRe, exec; rewrite search_closingGt by exact Hnot.
  unfold substitute, m_end; cbn [m_index m_text m_groups length Nat.add].
  rewrite firstn_app, firstn_all, Nat.sub_diag; cbn [firstn]; rewrite app_nil_r.
  rewrite <- length_app, skipn_all, app_nil_r; reflexivity.
Qed.

(** ** Replacement of a string pattern *)

Lemma indexOfNat_sound (pat : str) :
  forall (s : str) (i0 i : nat),
    indexOfNat pat s i0 = Some i ->
    exists pre post, s = pre ++ pat ++ post /\ i = i0 + length pre.
Proof.
  induction s as [|a s IH]; intros i0 i; cbn [indexOfNat];
    destruct (startsWith _ pat) eqn:E; intros H; try discriminate.
  - injection H as <-; apply startsWith_iff in E as [post E].
    exists [], post; split; [exact E|cbn; lia].
  - injection H as <-; apply startsWith_iff in E as [post E].
    exists [], post; split; [exact E|cbn; lia].
  - apply IH in H as [pre [post [-> ->]]].
    exists (a :: pre), post; split; [reflexivity|cbn; lia].
Qed.

Lemma indexOfNat_complete (pat : str) :
  forall (pre post : str) (i0 : nat),
    exists i, indexOfNat pat (pre ++ pat ++ post) i0 = Some i.
Proof.
  induction pre as [|a pre IH]; intros post i0.
  - exists i0; cbn [app].
    assert (E : startsWith (pat ++ post) pat = true)
      by (apply startsWith_iff; now exists post).
    destruct (pat ++ post); cbn [indexOfNat]; now rewrite E.
  - cbn [app indexOfNat]; destruct (startsWith _ pat); [now exists i0|apply IH].
Qed.

(** [s.replace(pat, tpl)] rewrites an occurrence of [pat], when there is
    one. *)
Lemma replaceStr_occurrence (s pat tpl a b : str) :
  s = a ++ pat ++ b ->
  exists pre post,
    s = pre ++ pat ++ post
    /\ replaceStr s pat tpl = pre ++ getSubstitution pat pre post [] tpl ++ post.
Proof.
  intros Hs; unfold replaceStr.
  destruct (indexOfNat_complete pat a b 0) as [i Hi]; rewrite <- Hs in Hi; rewrite Hi.
  apply indexOfNat_sound in Hi as [pre [post [-> ->]]].
  exists pre, post; split; [reflexivity|]; cbn [Nat.add].
  rewrite firstn_app, firstn_all, Nat.sub_diag; cbn [firstn]; rewrite app_nil_r.
  rewrite skipn_app.
  replace (length pre + length pat - length pre) with (length pat) by lia.
  rewrite (skipn_all2 pre) by lia; cbn [app].
  rewrite skipn_app, skipn_all, Nat.sub_diag; reflexivity.
Qed.

(** ** Templates without [$] *)

Lemma plain_app (a b : str) : plain (a ++ b) = plain a && plain b.
Proof. apply forallb_app. Qed.


Lemma getSubstitution_plain (matched pre post : str) (caps : list (option str)) :
  forall tpl : str, plain tpl = true -> getSubstitution matched pre post caps tpl = tpl.
Proof.
  induction tpl as [|c tpl IH]; [reflexivity|]; cbn [plain forallb getSubstitution].
  intros H; apply andb_true_iff in H as [Hc Ht].
  rewrite Hc; f_equal; now apply IH.
Qed.

Lemma plain_firstn (n : nat) (s : str) : plain s = true -> plain (firstn n s) = true.
Proof.
  revert n; induction s as [|c s IH]; intros [|n]; cbn; try reflexivity.
  intros H; apply andb_true_iff in H as [Hc Hs]; rewrite Hc; now apply IH.
Qed.

Lemma plain_skipn (n : nat) (s : str) : plain s = true -> plain (skipn n s) = true.
Proof.
  revert n; induction s as [|c s IH]; intros [|n]; cbn; try reflexivity; try easy.
  intros H; apply andb_true_iff in H as [Hc Hs]; now apply IH.
Qed.

Lemma plain_zeros (n : Z) : plain (zeros n) = true.
Proof. unfold zeros; induction (Z.to_nat n); cbn; [reflexivity|assumption]. Qed.

Lemma plain_digit (k : nat) :
  k < 10 -> negb (Ascii.eqb (ascii_of_nat (48 + k)) "$") = true.
Proof. do 10 (destruct k as [|k]; [reflexivity|]); lia. Qed.

Lemma plain_digitsOfPos (fuel : nat) :
  forall (z : Z) (acc : str), plain acc = true -> plain (digitsOfPos fuel z acc) = true.
Proof.
  induction fuel as [|fuel IH]; intros z acc Hacc; cbn [digitsOfPos]; [exact Hacc|].
  assert (Hd : plain (ascii_of_nat (48 + Z.to_nat (z mod 10)) :: acc) = true).
  { cbn [plain forallb]; rewrite plain_digit; [exact Hacc|].
    pose proof (Z.mod_pos_bound z 10 eq_refl); lia. }
  destruct (z <? 10)%Z; [exact Hd|now apply IH].
Qed.

Lemma plain_digitsOf (z : Z) : plain (digitsOf z) = true.
Proof. now apply plain_digitsOfPos. Qed.

Ltac plain_parts :=
  rewrite ?plain_app, ?andb_true_iff; repeat split;
  auto using plain_digitsOf, plain_zeros, plain_firstn, plain_skipn.

Lemma plain_formatDecimal (s n k : Z) : plain (formatDecimal s n k) = true.
Proof.
  unfold formatDecimal.
  pose proof (plain_digitsOf s) as Hs.
  repeat match goal with |- context [if ?b then _ else _] => destruct b end;
    try (plain_parts; fail).
  all: destruct (digitsOf s) as [|d rest]; [reflexivity|].
  all: cbn [plain forallb] in Hs; apply andb_true_iff in Hs as [Hd Hr].
  all: destruct rest; plain_parts; cbn [plain forallb]; rewrite ?Hd; auto.
Qed.

Lemma plain_positiveToString (x : num) : plain (positiveToString x) = true.
Proof.
  unfold positiveToString.
  destruct (Prim2SF x) as [sign| | |sign m e]; try reflexivity.
  destruct (if (0 <=? e)%Z then _ else _) as [a b].
  destruct (fold_left _ _ _) as [[s n]|]; [apply plain_formatDecimal|reflexivity].
Qed.

(** A printed Number holds no [$]. *)
Lemma plain_toString (x : num) : plain (toString x) = true.
Proof.
  unfold toString.
  repeat match goal with |- context [if ?b then _ else _] => destruct b end;
    try reflexivity; plain_parts; apply plain_positiveToString.
Qed.

(** ** Frame inference (C7) *)

Lemma plain_frameAttribute (width height : num) :
  plain (frameAttribute width height) = true.
Proof. unfold frameAttribute; plain_parts; apply plain_toString. Qed.

Lemma addToSvgTag_frame (svgContent body : str) (width height : num) :
  ~ In ">"%char body ->
  addToSvgTag svgContent (body ++ ">")
    ("viewBox=" ++ dq ++ ("0 0 " ++ toString width ++ " " ++ toString height) ++ dq)
  = replaceStr svgContent (body ++ ">") (body ++ frameAttribute width height).
Proof.
  intros Hnot; unfold addToSvgTag.
  rewrite replace_closingGt by exact Hnot.
  rewrite getSubstitution_plain.
  - unfold frameAttribute; now rewrite <- !app_assoc.
  - pose proof (plain_frameAttribute width height) as H.
    unfold frameAttribute in H; now rewrite <- !app_assoc in *.
Qed.


(** A declared frame is kept. *)
Lemma declared_frame_kept (svgContent : str) :
  test flag_i viewBoxRegex svgContent = true -> inferViewBox svgContent = svgContent.
Proof.
  intros H; unfold inferViewBox; rewrite H.
  now destruct (exec flag_i svgTagRegex svgContent).
Qed.

(** [width=\x22200\x22 height=\x22100\x22] yields the frame [0 0 200 100]. *)
Lemma frame_of_200_by_100 :
  inferViewBox sized
  = "<svg width=" ++ dq ++ "200" ++ dq ++ " height=" ++ dq ++ "100" ++ dq
    ++ " viewBox=" ++ dq ++ "0 0 200 100" ++ dq ++ "><rect/></svg>".
Proof. vm_compute; reflexivity. Qed.



(** ** Font-face injection (C6) *)






(** * Further properties *)





(** [updateTypeXmlFile] completes normally and writes nothing but the
    mapping file. *)
Lemma updateTypeXmlFile_cases (fontName fontsDir : str) (w : World) :
  updateTypeXmlFile fontName fontsDir w = (Normal tt, w)
  \/ (exists line, updateTypeXmlFile fontName fontsDir w = (Normal tt, addError line w))
  \/ (exists d x,
         fonts w = Some d
         /\ updatedTypeXml fontName fontsDir (map fst d) (readFile "type.xml" d) = Written x
         /\ updateTypeXmlFile fontName fontsDir w
            = (Normal tt, setFonts (Some (writeFile "type.xml" x d)) w)).
Proof.
  unfold updateTypeXmlFile, bind, getWorld.
  destruct (fonts w) as [d|] eqn:Ed.
  - destruct (updatedTypeXml _ _ _ _) as [x| |] eqn:Eu.
    + right; right; now exists d, x.
    + now left.
    + right; left; now eexists.
  - right; left; now eexists.
Qed.

Lemma downloadGoogleFont_cases (fontName fontsDir : str) (w : World) :
  (In fontName systemFonts /\ downloadGoogleFont fontName fontsDir w = (Normal false, w))
  \/ (exists line,
         (apiKey w = None \/ apiKey w = Some [])
         /\ downloadGoogleFont fontName fontsDir w = (Normal false, addError line w))
  \/ (exists key line,
         apiKey w = Some key /\ key <> []
         /\ downloadGoogleFont fontName fontsDir w
            = (Normal false, addError line (addCall (HttpGet (apiUrlOf key)) w)))
  \/ (exists key ttfUrl line,
         apiKey w = Some key /\ key <> []
         /\ downloadGoogleFont fontName fontsDir w
            = (Normal false,
               addError line (addCall (HttpHead ttfUrl) (addCall (HttpGet (apiUrlOf key)) w))))
  \/ (exists key ttfUrl line,
         apiKey w = Some key /\ key <> []
         /\ downloadGoogleFont fontName fontsDir w
            = (Normal false, addError line (afterProbe key ttfUrl w)))
  \/ (exists key ttfUrl bytes w',
         apiKey w = Some key /\ key <> []
         /\ download (network w) ttfUrl = inl bytes
         /\ updateTypeXmlFile fontName fontsDir
              (setFonts (Some (writeFile (regularFileName fontName) bytes
                                 (entriesOf (afterProbe key ttfUrl w))))
                        (afterProbe key ttfUrl w))
            = (Normal tt, w')
         /\ downloadGoogleFont fontName fontsDir w = (Normal true, w')).
Proof.
  remember (downloadGoogleFont fontName fontsDir w) as r eqn:Er.
  cbv [downloadGoogleFont tryCatch bind getWorld throw ret httpGet httpHead modify
       consoleError fetchAndRegister] in Er.
  destruct (existsb (str_eqb fontName) systemFonts) eqn:Esys.
  { left; split; [now apply systemFonts_includes|exact Er]. }
  right.
  destruct (apiKey w) as [[|c key]|] eqn:Ekey;
    try (left; eexists; split; [auto|exact Er]).
  right.
  cbn [network addCall] in Er.
  destruct (catalog (network w) _) as [message| |items];
    try (left; exists (c :: key); eexists; repeat split; [discriminate|exact Er]).
  destruct (find _ items) as [fontInfo|];
    [|left; exists (c :: key); eexists; repeat split; [discriminate|exact Er]].
  destruct (regular fontInfo) as [[|u rl]|];
    try (left; exists (c :: key); eexists; repeat split; [discriminate|exact Er]).
  right.
  set (ttfUrl := replaceRe noFlags woffRegex (u :: rl) ".ttf") in Er.
  change (network (addCall _ w)) with (network w) in Er.
  destruct (headFailure (network w) ttfUrl) as [message|].
  { left; exists (c :: key), ttfUrl; eexists; repeat split; [discriminate|exact Er]. }
  right.
  change (network _) with (network (afterProbe (c :: key) ttfUrl w)) in Er.
  replace (network (afterProbe (c :: key) ttfUrl w)) with (network w) in Er
    by (unfold afterProbe, ensureDirectory; cbn; destruct (fonts w); reflexivity).
  destruct (download (network w) ttfUrl) as [bytes|message] eqn:Edl.
  - right.
    destruct (updateTypeXmlFile_cases fontName fontsDir
                (setFonts (Some (writeFile (regularFileName fontName) bytes
                                   (entriesOf (afterProbe (c :: key) ttfUrl w))))
                          (afterProbe (c :: key) ttfUrl w)))
      as [H|[[line H]|[d [x [_ [_ H]]]]]];
      exists (c :: key), ttfUrl, bytes; eexists; (split; [reflexivity|]);
      (split; [discriminate|]); (split; [exact Edl|]); (split; [exact H|]);
      rewrite Er;
      change (updateTypeXmlFile fontName fontsDir _)
        with (updateTypeXmlFile fontName fontsDir
                (setFonts (Some (writeFile (regularFileName fontName) bytes
                                   (entriesOf (afterProbe (c :: key) ttfUrl w))))
                          (afterProbe (c :: key) ttfUrl w)));
      rewrite H; reflexivity.
  - left; exists (c :: key), ttfUrl; eexists; repeat split; [discriminate|exact Er].
Qed.

Tactic Notation "download_cases" constr(name) constr(dir) constr(world) :=
  destruct (downloadGoogleFont_cases name dir world)
    as [[Hsys Hrun]
       |[[line [Hkey Hrun]]
        |[[key [line [Hkey [Hnonempty Hrun]]]]
         |[[key [ttfUrl [line [Hkey [Hnonempty Hrun]]]]]
          |[[key [ttfUrl [line [Hkey [Hnonempty Hrun]]]]]
           |[key [ttfUrl [bytes [w' [Hkey [Hnonempty [Hdl [Hu Hrun]]]]]]]]]]]]].

(** ** The resolver: calls and files *)








(** ** The aggregate report *)

Lemma ensureFont_cases (fontsDir : str) (results : Results) (fontName : str) (w : World) :
  (fontExistsLocally fontName (readdir w) = true
   /\ ensureFont fontsDir results fontName w = (pushFoundLocally fontName results, w))
  \/ (fontExistsLocally fontName (readdir w) = false
      /\ downloadGoogleFont fontName fontsDir w
         = (Normal true, snd (downloadGoogleFont fontName fontsDir w))
      /\ ensureFont fontsDir results fontName w
         = (pushDownloaded fontName results, snd (downloadGoogleFont fontName fontsDir w)))
  \/ (fontExistsLocally fontName (readdir w) = false
      /\ downloadGoogleFont fontName fontsDir w
         = (Normal false, snd (downloadGoogleFont fontName fontsDir w))
      /\ ensureFont fontsDir results fontName w
         = (pushFailed fontName results, snd (downloadGoogleFont fontName fontsDir w))).
Proof.
  unfold ensureFont.
  destruct (fontExistsLocally fontName (readdir w)); [now left|right].
  destruct (downloadGoogleFont_returns fontName fontsDir w) as [[|] [w' H]]; rewrite H;
    [left|right]; now repeat split.
Qed.

Lemma pushed_Permutation (fontName : str) (results : Results) :
  let placed (r : Results) := fontsFoundLocally r ++ fontsDownloaded r ++ fontsFailed r in
  Permutation (placed (pushFoundLocally fontName results)) (fontName :: placed results)
  /\ Permutation (placed (pushDownloaded fontName results)) (fontName :: placed results)
  /\ Permutation (placed (pushFailed fontName results)) (fontName :: placed results).
Proof.
  cbn [fontsFoundLocally fontsDownloaded fontsFailed
       pushFoundLocally pushDownloaded pushFailed].
  split; [|split].
  - rewrite <- app_assoc; cbn [app]; apply Permutation_sym, Permutation_middle.
  - rewrite !app_assoc, <- (app_assoc _ [fontName]); cbn [app].
    apply Permutation_sym, Permutation_middle.
  - rewrite !app_assoc; apply Permutation_sym, Permutation_cons_append.
Qed.

Lemma ensureFonts_partition (fontsDir : str) (fontFamilies : list str) :
  forall (results : Results) (w : World),
    fontsDetected (fst (ensureFonts fontsDir results fontFamilies w)) = fontsDetected results
    /\ Permutation
         (fontsFoundLocally (fst (ensureFonts fontsDir results fontFamilies w))
          ++ fontsDownloaded (fst (ensureFonts fontsDir results fontFamilies w))
          ++ fontsFailed (fst (ensureFonts fontsDir results fontFamilies w)))
         ((fontsFoundLocally results ++ fontsDownloaded results ++ fontsFailed results)
          ++ fontFamilies).
Proof.
  induction fontFamilies as [|fontName rest IH]; intros results w; cbn [ensureFonts].
  - rewrite app_nil_r; split; [reflexivity|apply Permutation_refl].
  - destruct (pushed_Permutation fontName results) as [Pl [Pd Pf]].
    destruct (ensureFont_cases fontsDir results fontName w)
      as [[_ H]|[[_ [_ H]]|[_ [_ H]]]]; rewrite H;
      match goal with
      | |- context [ensureFonts fontsDir ?r rest ?w1] =>
        destruct (IH r w1) as [Hd Hp]; rewrite Hd; split; [reflexivity|];
        eapply Permutation_trans; [exact Hp|]
      end;
      (eapply Permutation_trans;
       [apply Permutation_app_tail; eassumption|apply Permutation_middle]).
Qed.

(** X4.  The report places every detected font, occurrence by occurrence,
    in exactly one of the lists found locally, downloaded and failed. *)
Theorem report_places_every_detected_font (svgContent fontsDir : str) (w : World) :
  fontsDetected (fst (ensureFontsAvailable (inl svgContent) fontsDir w))
  = extractFontsFromSVG svgContent
  /\ Permutation
       (fontsFoundLocally (fst (ensureFontsAvailable (inl svgContent) fontsDir w))
        ++ fontsDownloaded (fst (ensureFontsAvailable (inl svgContent) fontsDir w))
        ++ fontsFailed (fst (ensureFontsAvailable (inl svgContent) fontsDir w)))
       (extractFontsFromSVG svgContent).
Proof.
  unfold ensureFontsAvailable.
  match goal with
  | |- context [ensureFonts fontsDir ?r ?l w] => destruct (ensureFonts_partition fontsDir l r w) as [Hd Hp]
  end.
  split; [exact Hd|exact Hp].
Qed.

(** X5.  The [errors] list of the report is empty whenever the document
    could be read, whatever the remote side answers: every error of a
    resolution is caught inside [downloadGoogleFont].  It holds one entry
    when the document cannot be read, and the lists of fonts are then
    empty. *)
Theorem errors_only_for_an_unreadable_document
    (svgFile : str + str) (fontsDir : str) (w : World) :
  match svgFile with
  | inl _ => errors (fst (ensureFontsAvailable svgFile fontsDir w)) = []
  | inr message =>
    ensureFontsAvailable svgFile fontsDir w
    = (pushError ("Error ensuring fonts available: " ++ message) emptyResults,
       addError ("Error ensuring fonts available: " ++ message) w)
  end.
Proof.
  destruct svgFile as [svgContent|message]; [|reflexivity].
  unfold ensureFontsAvailable; now rewrite ensureFonts_errors.
Qed.




Lemma download_without_credential (fontName fontsDir : str) (w : World) :
  apiKey w = None \/ apiKey w = Some [] ->
  exists w',
    downloadGoogleFont fontName fontsDir w = (Normal false, w')
    /\ apiKey w' = apiKey w /\ calls w' = calls w /\ fonts w' = fonts w
    /\ network w' = network w.
Proof.
  intros Hcred.
  download_cases fontName fontsDir w;
    try (exfalso; destruct Hcred as [Hcred|Hcred]; rewrite Hcred in Hkey;
         [discriminate|injection Hkey as <-; now apply Hnonempty]);
    rewrite Hrun; eexists; (split; [reflexivity|]); now repeat split.
Qed.

Lemma ensureFont_without_credential (fontsDir : str) (results : Results)
    (fontName : str) (w : World) :
  apiKey w = None \/ apiKey w = Some [] ->
  let out := ensureFont fontsDir results fontName w in
  apiKey (snd out) = apiKey w /\ calls (snd out) = calls w /\ fonts (snd out) = fonts w
  /\ network (snd out) = network w
  /\ fontsDownloaded (fst out) = fontsDownloaded results.
Proof.
  intros Hcred out; subst out; unfold ensureFont.
  destruct (fontExistsLocally fontName (readdir w)); [now repeat split|].
  destruct (download_without_credential fontName fontsDir w Hcred)
    as [w' [H [Hk [Hc [Hf Hn]]]]].
  rewrite H; now repeat split.
Qed.

Lemma ensureFonts_without_credential (fontsDir : str) (fontFamilies : list str) :
  forall (results : Results) (w : World),
    apiKey w = None \/ apiKey w = Some [] ->
    calls (snd (ensureFonts fontsDir results fontFamilies w)) = calls w
    /\ fonts (snd (ensureFonts fontsDir results fontFamilies w)) = fonts w
    /\ network (snd (ensureFonts fontsDir results fontFamilies w)) = network w
    /\ fontsDownloaded (fst (ensureFonts fontsDir results fontFamilies w))
       = fontsDownloaded results.
Proof.
  induction fontFamilies as [|fontName rest IH]; intros results w Hkey; cbn [ensureFonts].
  - now repeat split.
  - destruct (ensureFont_without_credential fontsDir results fontName w Hkey)
      as [Hk [Hc [Hf [Hn Hd]]]].
    destruct (ensureFont fontsDir results fontName w) as [r1 w1]; cbn [fst snd] in *.
    destruct (IH r1 w1) as [Hc' [Hf' [Hn' Hd']]]; [now rewrite Hk|].
    now rewrite Hc', Hf', Hn', Hd'.
Qed.

(** X7.  Without a credential (the variable unset or empty) a whole run
    issues no network call, writes no file and lists no font as
    downloaded, whatever the document names. *)
Theorem run_without_credential_stays_offline
    (svgFile : str + str) (fontsDir : str) (w : World) :
  apiKey w = None \/ apiKey w = Some [] ->
  calls (snd (ensureFontsAvailable svgFile fontsDir w)) = calls w
  /\ fonts (snd (ensureFontsAvailable svgFile fontsDir w)) = fonts w
  /\ fontsDownloaded (fst (ensureFontsAvailable svgFile fontsDir w)) = [].
Proof.
  intros Hkey; destruct svgFile as [svgContent|message]; [|now repeat split].
  unfold ensureFontsAvailable.
  match goal with
  | |- context [ensureFonts fontsDir ?r ?l w] =>
    destruct (ensureFonts_without_credential fontsDir l r w Hkey) as [Hc [Hf [_ Hd]]]
  end.
  now repeat split.
Qed.

Lemma run_without_credential_stays_offline_witness :
  calls (snd (ensureFontsAvailable (inl robotoAndLato) fontsDir noCredential))
  = calls noCredential
  /\ fonts (snd (ensureFontsAvailable (inl robotoAndLato) fontsDir noCredential))
     = fonts noCredential
  /\ fontsDownloaded (fst (ensureFontsAvailable (inl robotoAndLato) fontsDir noCredential))
     = [].
Proof.
  apply (run_without_credential_stays_offline (inl robotoAndLato) fontsDir noCredential).
  left; reflexivity.
Defined.

(** ** Global removal of runs of one class *)

Lemma takeWhile_dropWhile (p : ascii -> bool) (s : str) :
  takeWhile p s ++ dropWhile p s = s.
Proof.
  induction s as [|c s IH]; cbn [takeWhile dropWhile]; [reflexivity|].
  destruct (p c); cbn [app]; [now rewrite IH|reflexivity].
Qed.




Section RunReplace.
Variables (r : regex) (p : ascii -> bool).
Hypothesis matchHere_nil : matchHere noFlags r [] = None.
Hypothesis matchHere_cons :
  forall (a : ascii) (s : str),
    matchHere noFlags r (a :: s) = if p a then Some (dropWhile p s, []) else None.


End RunReplace.


(** ** The file a download creates *)

Lemma fontExistsLocally_true (fontName : str) (files : list str) :
  fontExistsLocally fontName (Some files) = true <->
  exists file,
    In file files
    /\ includes (normalized (basename file (extname file))) (normalized fontName) = true.
Proof.
  unfold fontExistsLocally; rewrite existsb_exists.
  split; intros [file [Hin H]]; exists file; (split; [exact Hin|]);
    now rewrite !normalizeName_normalized in *.
Qed.












(** ** Fonts reported as available *)







(** ** The matcher and the relation *)

(** Every result of the matcher comes from a match of the pattern
    followed by a success of the continuation. *)
Lemma repeatMatcher_matches (fl : flags) (R : Type) (greedy : bool) (a : regex)
    (k : continuation R) :
  (forall s c k' res,
      matcher fl R a s c k' = Some res ->
      exists s' c', matches fl a s c s' c' /\ k' s' c' = Some res) ->
  forall (n : nat) (s : str) (c : captures) (res : R),
    repeatMatcher R greedy (matcher fl R a) k n s c = Some res ->
    exists s' c', matches fl (Star greedy a) s c s' c' /\ k s' c' = Some res.
Proof.
  intros Hm; induction n as [|n IH]; intros s c res H; cbn [repeatMatcher] in H.
  - exists s, c; split; [constructor|exact H].
  - assert (Hagain :
      matcher fl R a s c
        (fun s1 c1 => if length s1 <? length s
                      then repeatMatcher R greedy (matcher fl R a) k n s1 c1 else None)
      = Some res ->
      exists s' c', matches fl (Star greedy a) s c s' c' /\ k s' c' = Some res).
    { intros Ha; apply Hm in Ha as [s1 [c1 [Hone Hk]]].
      destruct (length s1 <? length s) eqn:El; [|discriminate].
      apply Nat.ltb_lt in El.
      apply IH in Hk as [s' [c' [Hrest Hk]]].
      exists s', c'; split; [|exact Hk].
      now apply (matches_StarS fl greedy a s s1 s' c c1 c'). }
    destruct greedy.
    + destruct (matcher fl R a s c _) as [x|] eqn:E.
      * injection H as <-; now apply Hagain.
      * exists s, c; split; [constructor|exact H].
    + destruct (k s c) as [x|] eqn:E.
      * injection H as <-; exists s, c; split; [constructor|exact E].
      * now apply Hagain.
Qed.

Lemma matcher_matches (fl : flags) (R : Type) (r : regex) :
  forall (s : str) (c : captures) (k : continuation R) (res : R),
    matcher fl R r s c k = Some res ->
    exists s' c', matches fl r s c s' c' /\ k s' c' = Some res.
Proof.
  induction r as [x|negated items| | | |a IHa b IHb|a IHa b IHb|greedy a IHa|i a IHa];
    intros s c k res H; cbn [matcher] in H.
  - destruct s as [|a s]; [discriminate|].
    destruct (charMatches fl x a) eqn:E; [|discriminate].
    exists s, c; split; [now constructor|exact H].
  - destruct s as [|a s]; [discriminate|].
    destruct (classMatches fl negated items a) eqn:E; [|discriminate].
    exists s, c; split; [now constructor|exact H].
  - destruct s as [|a s]; [discriminate|].
    destruct (dotAll fl || negb (isLineTerminator a)) eqn:E; [|discriminate].
    exists s, c; split; [now constructor|exact H].
  - destruct s as [|a s]; [|discriminate].
    exists [], c; split; [constructor|exact H].
  - exists s, c; split; [constructor|exact H].
  - apply IHa in H as [s1 [c1 [Ha H]]].
    apply IHb in H as [s2 [c2 [Hb H]]].
    exists s2, c2; split; [now apply (matches_Seq fl a b s s1 s2 c c1 c2)|exact H].
  - destruct (matcher fl R a s c k) as [x|] eqn:E.
    + injection H as <-; apply IHa in E as [s1 [c1 [Ha Hk]]].
      exists s1, c1; split; [now apply matches_AltL|exact Hk].
    + apply IHb in H as [s1 [c1 [Hb Hk]]].
      exists s1, c1; split; [now apply matches_AltR|exact Hk].
  - revert H; apply repeatMatcher_matches; intros s0 c0 k' res0; apply IHa.
  - apply IHa in H as [s1 [c1 [Ha H]]].
    eexists s1, _; split; [apply matches_Group; exact Ha|exact H].
Qed.

(** Conversely the matcher finds a result whenever the pattern has a
    match that the continuation accepts. *)
Lemma matches_matcher (fl : flags) (R : Type) (r : regex) (s s' : str) (c c' : captures) :
  matches fl r s c s' c' ->
  forall k : continuation R,
    k s' c' <> None ->
    matcher fl R r s c k <> None
    /\ (forall greedy a,
           r = Star greedy a ->
           forall n, length s <= n ->
                     repeatMatcher R greedy (matcher fl R a) k n s c <> None).
Proof.
  induction 1 as [x a s c E|negated items a s c E|a s c E|c|s c
                  |a b s s1 s2 c c1 c2 Ha IHa Hb IHb
                  |a b s s1 c c1 Ha IHa|a b s s1 c c1 Hb IHb
                  |greedy a s c|greedy a s s1 s2 c c1 c2 Ha IHa Hlt Hrest IHrest
                  |i a s s1 c c1 Ha IHa];
    intros k Hk; (split; [|try (intros g0 a0 E0; discriminate E0)]); cbn [matcher].
  - now rewrite E.
  - now rewrite E.
  - now rewrite E.
  - exact Hk.
  - exact Hk.
  - apply IHa, IHb, Hk.
  - destruct (matcher fl R a s c k) eqn:E; [discriminate|].
    exfalso; revert E; now apply IHa.
  - destruct (matcher fl R a s c k); [discriminate|now apply IHb].
  - destruct (length s); cbn [repeatMatcher]; [exact Hk|].
    destruct greedy; [destruct (matcher fl R a s c _); [discriminate|exact Hk]|].
    destruct (k s c); [discriminate|now contradiction Hk].
  - intros g0 a0 E0 n Hn; injection E0 as <- <-.
    destruct n; cbn [repeatMatcher]; [exact Hk|].
    destruct greedy; [destruct (matcher fl R a s c _); [discriminate|exact Hk]|].
    destruct (k s c); [discriminate|now contradiction Hk].
  - assert (Hn : length s = S (pred (length s))) by lia.
    rewrite Hn at 1; cbn [repeatMatcher].
    assert (Hagain :
      matcher fl R a s c
        (fun s3 c3 => if length s3 <? length s
                      then repeatMatcher R greedy (matcher fl R a) k (pred (length s)) s3 c3
                      else None) <> None).
    { apply IHa.
      replace (length s1 <? length s) with true by (symmetry; now apply Nat.ltb_lt).
      apply (proj2 (IHrest k Hk) greedy a eq_refl); lia. }
    destruct greedy.
    + destruct (matcher fl R a s c _); [discriminate|now contradiction Hagain].
    + destruct (k s c); [discriminate|exact Hagain].
  - intros g0 a0 E0 n Hn; injection E0 as <- <-.
    destruct n as [|n]; [lia|]; cbn [repeatMatcher].
    assert (Hagain :
      matcher fl R a s c
        (fun s3 c3 => if length s3 <? length s
                      then repeatMatcher R greedy (matcher fl R a) k n s3 c3
                      else None) <> None).
    { apply IHa.
      replace (length s1 <? length s) with true by (symmetry; now apply Nat.ltb_lt).
      apply (proj2 (IHrest k Hk) greedy a eq_refl); lia. }
    destruct greedy.
    + destruct (matcher fl R a s c _); [discriminate|now contradiction Hagain].
    + destruct (k s c); [discriminate|exact Hagain].
  - apply IHa, Hk.
Qed.

Lemma matches_suffix (fl : flags) (r : regex) (s s' : str) (c c' : captures) :
  matches fl r s c s' c' -> exists x, s = x ++ s'.
Proof.
  induction 1 as [x a s c E|negated items a s c E|a s c E|c|s c
                  |a b s s1 s2 c c1 c2 Ha [x Hx] Hb [y Hy]
                  |a b s s1 c c1 Ha IHa|a b s s1 c c1 Hb IHb
                  |greedy a s c|greedy a s s1 s2 c c1 c2 Ha [x Hx] Hlt Hrest [y Hy]
                  |i a s s1 c c1 Ha IHa];
    try (now exists [a]); try (now exists []); try assumption;
    exists (x ++ y); now rewrite <- app_assoc, <- Hy.
Qed.

Lemma matchHere_matches (fl : flags) (r : regex) (s rest : str) (c : captures) :
  matchHere fl r s = Some (rest, c) -> matches fl r s [] rest c.
Proof.
  unfold matchHere; intros H.
  apply matcher_matches in H as [s' [c' [Hm Hk]]]; now injection Hk as <- <-.
Qed.

Lemma matches_matchHere (fl : flags) (r : regex) (s rest : str) (c : captures) :
  matches fl r s [] rest c -> matchHere fl r s <> None.
Proof.
  intros H; unfold matchHere.
  now apply (matches_matcher fl (str * captures) r s rest [] c H).
Qed.

(** [test] succeeds exactly when the pattern matches at some position. *)
Lemma test_true (fl : flags) (r : regex) (s : str) :
  test fl r s = true <->
  exists pre suf rest c, s = pre ++ suf /\ matches fl r suf [] rest c.
Proof.
  unfold test, exec; generalize 0 as i; split.
  - destruct (searchFrom fl r s i) as [m|] eqn:E; [intros _|discriminate].
    apply searchFrom_sound in E as [pre [suf [rest [c [Hs [Hm _]]]]]].
    exists pre, suf, rest, c; split; [exact Hs|now apply matchHere_matches].
  - intros [pre [suf [rest [c [-> Hm]]]]].
    apply matches_matchHere in Hm.
    revert i; induction pre as [|a pre IH]; intros i; cbn [app].
    + destruct suf; cbn [searchFrom]; destruct (matchHere fl r _) as [[? ?]|];
        try reflexivity; now contradiction Hm.
    + cbn [searchFrom]; destruct (matchHere fl r (a :: pre ++ suf)) as [[? ?]|];
        [reflexivity|apply IH].
Qed.

Lemma In_allAscii (a : ascii) : In a allAscii.
Proof.
  unfold allAscii; rewrite <- (ascii_nat_embedding a).
  apply in_map, in_seq; pose proof (nat_ascii_bounded a); lia.
Qed.

Lemma forallb_allAscii (q : ascii -> bool) :
  forallb q allAscii = true -> forall a, q a = true.
Proof. intros H a; rewrite forallb_forall in H; apply H, In_allAscii. Qed.

Lemma onlyChars_matches (p : ascii -> bool) (fl : flags) (r : regex)
    (s s' : str) (c c' : captures) :
  matches fl r s c s' c' ->
  onlyChars p fl r = true ->
  exists x, s = x ++ s' /\ forallb p x = true.
Proof.
  induction 1 as [x a s c E|negated items a s c E|a s c E|c|s c
                  |a b s s1 s2 c c1 c2 Ha IHa Hb IHb
                  |a b s s1 c c1 Ha IHa|a b s s1 c c1 Hb IHb
                  |greedy a s c|greedy a s s1 s2 c c1 c2 Ha IHa Hlt Hrest IHrest
                  |i a s s1 c c1 Ha IHa];
    cbn [onlyChars]; intros Hp;
    try (exists [a]; split; [reflexivity|]; cbn [forallb];
         apply forallb_allAscii with (a := a) in Hp; rewrite E in Hp;
         cbn [implb] in Hp; now rewrite Hp);
    try (now exists []).
  - apply andb_true_iff in Hp as [Hpa Hpb].
    destruct (IHa Hpa) as [x [-> Hx]]; destruct (IHb Hpb) as [y [-> Hy]].
    exists (x ++ y); split; [now rewrite app_assoc|].
    now rewrite forallb_app, Hx, Hy.
  - apply andb_true_iff in Hp as [Hpa Hpb]; now apply IHa.
  - apply andb_true_iff in Hp as [Hpa Hpb]; now apply IHb.
  - destruct (IHa Hp) as [x [-> Hx]]; destruct (IHrest Hp) as [y [-> Hy]].
    exists (x ++ y); split; [now rewrite app_assoc|].
    now rewrite forallb_app, Hx, Hy.
  - now apply IHa.
Qed.

Lemma groupsOnly_matches (p : ascii -> bool) (fl : flags) (r : regex)
    (s s' : str) (c c' : captures) :
  matches fl r s c s' c' ->
  groupsOnly p fl r = true ->
  Forall (fun ic => forallb p (snd ic) = true) c ->
  Forall (fun ic => forallb p (snd ic) = true) c'.
Proof.
  induction 1 as [x a s c E|negated items a s c E|a s c E|c|s c
                  |a b s s1 s2 c c1 c2 Ha IHa Hb IHb
                  |a b s s1 c c1 Ha IHa|a b s s1 c c1 Hb IHb
                  |greedy a s c|greedy a s s1 s2 c c1 c2 Ha IHa Hlt Hrest IHrest
                  |i a s s1 c c1 Ha IHa];
    cbn [groupsOnly]; intros Hp Hc; try exact Hc.
  - apply andb_true_iff in Hp as [Hpa Hpb]; auto.
  - apply andb_true_iff in Hp as [Hpa Hpb]; auto.
  - apply andb_true_iff in Hp as [Hpa Hpb]; auto.
  - auto.
  - apply andb_true_iff in Hp as [Hpa Hpb]; constructor; [|auto].
    cbn [snd]; destruct (onlyChars_matches p fl a s s1 c c1 Ha Hpa) as [x [-> Hx]].
    now rewrite firstn_consumed.
Qed.

Lemma lookupCapture_Forall (q : str -> Prop) (i : nat) (c : captures) (x : str) :
  Forall (fun ic => q (snd ic)) c -> lookupCapture i c = Some x -> q x.
Proof.
  induction 1 as [|[j y] c Hy Hc IH]; cbn [lookupCapture]; [discriminate|].
  destruct (i =? j); [intros E; injection E as <-; exact Hy|exact IH].
Qed.

(** The first group of a match of a pattern whose groups capture
    characters of [p] only. *)
Lemma group1_onlyChars (p : ascii -> bool) (fl : flags) (r : regex) :
  groupsOnly p fl r = true ->
  forall (s : str) (i : nat) (m : MatchResult),
    searchFrom fl r s i = Some m -> forallb p (group1 m) = true.
Proof.
  intros Hp s i m H.
  assert (Hg : Forall (fun g => match g with Some x => forallb p x = true | None => True end)
                      (m_groups m)).
  { revert i m H; induction s as [|a s IH]; intros i m; cbn [searchFrom];
      destruct (matchHere fl r _) as [[rest c]|] eqn:E; intros H; try discriminate;
      try (now apply IH in H);
      injection H as <-; cbn [m_groups]; apply Forall_map, Forall_forall; intros g _;
      destruct (lookupCapture g c) as [x|] eqn:El; try exact I;
      apply matchHere_matches, (groupsOnly_matches p) in E; auto;
      now apply (lookupCapture_Forall (fun x => forallb p x = true) g c x E). }
  unfold group1; destruct (m_groups m) as [|[x|] gs]; cbn [nth]; try reflexivity.
  now inversion Hg.
Qed.

Lemma includes_app (s sub : str) (a b : str) :
  includes s sub = true -> includes (a ++ s ++ b) sub = true.
Proof.
  rewrite !includes_iff; intros [pre [post ->]].
  exists (a ++ pre), (post ++ b); now rewrite <- !app_assoc.
Qed.

Lemma canonStr_noFlags (s : str) : canonStr noFlags s = s.
Proof. unfold canonStr, canon; cbn [ignoreCase noFlags]; apply map_id. Qed.

Lemma fixedText_matches (fl : flags) (r : regex) (s s' : str) (c c' : captures) :
  matches fl r s c s' c' ->
  forall t, fixedText r = Some t ->
            exists x, s = x ++ s' /\ canonStr fl x = canonStr fl t.
Proof.
  induction 1 as [x a s c E|negated items a s c E|a s c E|c|s c
                  |a b s s1 s2 c c1 c2 Ha IHa Hb IHb
                  |a b s s1 c c1 Ha IHa|a b s s1 c c1 Hb IHb
                  |greedy a s c|greedy a s s1 s2 c c1 c2 Ha IHa Hlt Hrest IHrest
                  |i a s s1 c c1 Ha IHa];
    cbn [fixedText]; intros t Ht; try discriminate.
  - injection Ht as <-; exists [a]; split; [reflexivity|].
    unfold charMatches in E; apply Ascii.eqb_eq in E; cbn; now rewrite E.
  - injection Ht as <-; now exists [].
  - destruct (fixedText a) as [ta|]; [|discriminate].
    destruct (fixedText b) as [tb|]; [|discriminate].
    injection Ht as <-.
    destruct (IHa ta eq_refl) as [x [-> Hx]]; destruct (IHb tb eq_refl) as [y [-> Hy]].
    exists (x ++ y); split; [now rewrite app_assoc|].
    unfold canonStr in *; now rewrite !map_app, Hx, Hy.
  - now apply IHa.
Qed.

Lemma requires_matches (l : str) (fl : flags) (r : regex) (s s' : str) (c c' : captures) :
  matches fl r s c s' c' ->
  requires l fl r = true ->
  exists x, s = x ++ s' /\ includes (canonStr fl x) (canonStr fl l) = true.
Proof.
  intros H; pose proof (fixedText_matches fl r s s' c c' H) as Hfix; revert Hfix.
  induction H as [x a s c E|negated items a s c E|a s c E|c|s c
                  |a b s s1 s2 c c1 c2 Ha IHa Hb IHb
                  |a b s s1 c c1 Ha IHa|a b s s1 c c1 Hb IHb
                  |greedy a s c|greedy a s s1 s2 c c1 c2 Ha IHa Hlt Hrest IHrest
                  |i a s s1 c c1 Ha IHa];
    intros Hfix Hreq;
    match type of Hreq with
    | requires l fl ?r = true =>
      cbn [requires] in Hreq; apply orb_true_iff in Hreq as [Hreq|Hreq];
      [destruct (fixedText r) as [t|] eqn:Et; [|discriminate];
       destruct (Hfix t eq_refl) as [y [Hs Hy]]; exists y; split; [exact Hs|];
       now rewrite Hy
      |try discriminate]
    end.
  - pose proof (fixedText_matches fl a s s1 c c1 Ha) as Fa.
    pose proof (fixedText_matches fl b s1 s2 c1 c2 Hb) as Fb.
    destruct (matches_suffix fl a s s1 c c1 Ha) as [xa Hxa].
    destruct (matches_suffix fl b s1 s2 c1 c2 Hb) as [xb Hxb].
    apply orb_true_iff in Hreq as [Hreq|Hreq].
    + destruct (IHa Fa Hreq) as [x [Hx Hi]].
      assert (x = xa) by (rewrite Hx in Hxa; now apply app_inv_tail in Hxa).
      subst x; exists (xa ++ xb); split; [now rewrite Hxa, Hxb, app_assoc|].
      unfold canonStr in *; rewrite map_app.
      apply (includes_app _ _ [] (map (canon fl) xb)) in Hi; exact Hi.
    + destruct (IHb Fb Hreq) as [x [Hx Hi]].
      assert (x = xb) by (rewrite Hx in Hxb; now apply app_inv_tail in Hxb).
      subst x; exists (xa ++ xb); split; [now rewrite Hxa, Hxb, app_assoc|].
      unfold canonStr in *; rewrite map_app.
      apply (includes_app _ _ (map (canon fl) xa) []) in Hi; now rewrite app_nil_r in Hi.
  - apply andb_true_iff in Hreq as [Hra Hrb].
    apply IHa; [exact (fixedText_matches fl a s s1 c c1 Ha)|exact Hra].
  - apply andb_true_iff in Hreq as [Hra Hrb].
    apply IHb; [exact (fixedText_matches fl b s s1 c c1 Hb)|exact Hrb].
  - apply IHa; [exact (fixedText_matches fl a s s1 c c1 Ha)|exact Hreq].
Qed.

(** A text without [l] has no match of a pattern that requires [l]. *)
Lemma requires_search (l : str) (fl : flags) (r : regex) :
  requires l fl r = true ->
  forall (s : str) (i : nat),
    includes (canonStr fl s) (canonStr fl l) = false -> searchFrom fl r s i = None.
Proof.
  intros Hreq s i Hno.
  destruct (searchFrom fl r s i) as [m|] eqn:E; [exfalso|reflexivity].
  apply searchFrom_sound in E as [pre [suf [rest [c [-> [Hm _]]]]]].
  apply matchHere_matches in Hm.
  destruct (requires_matches l fl r suf rest [] c Hm Hreq) as [x [-> Hi]].
  unfold canonStr in *; rewrite !map_app in Hno.
  apply (includes_app _ _ (map (canon fl) pre) (map (canon fl) rest)) in Hi.
  congruence.
Qed.

Lemma includes_tail (s sub : str) (n : nat) :
  includes s sub = false -> includes (skipn n s) sub = false.
Proof.
  intros H; destruct (includes (skipn n s) sub) eqn:E; [|reflexivity].
  apply includes_iff in E as [pre [post E]].
  assert (includes s sub = true); [|congruence].
  apply includes_iff; exists (firstn n s ++ pre), post.
  now rewrite <- app_assoc, <- E, firstn_skipn.
Qed.

Lemma requires_matchAll (l : str) (r : regex) :
  requires l noFlags r = true ->
  forall s : str, includes s l = false -> matchAll noFlags r s = [].
Proof.
  intros Hreq s Hno; unfold matchAll; cbn [matchAllFrom].
  rewrite (requires_search l noFlags r Hreq); [reflexivity|].
  now rewrite !canonStr_noFlags.
Qed.

(** ** The matches of a loop *)

Lemma matchAllFrom_In (fl : flags) (r : regex) (s : str) (m : MatchResult) :
  forall n p : nat,
    In m (matchAllFrom fl r s n p) ->
    exists q, searchFrom fl r (skipn q s) q = Some m.
Proof.
  induction n as [|n IH]; intros p; cbn [matchAllFrom]; [intros []|].
  destruct (length s <? p); [intros []|].
  destruct (searchFrom fl r (skipn p s) p) as [m0|] eqn:E; [|intros []].
  intros [<-|Hin]; [now exists p|now apply IH in Hin].
Qed.

Lemma matchAll_In (fl : flags) (r : regex) (s : str) (m : MatchResult) :
  In m (matchAll fl r s) -> exists q, searchFrom fl r (skipn q s) q = Some m.
Proof. apply matchAllFrom_In. Qed.

(** Captures are parts of the subject. *)
Lemma captures_inside (fl : flags) (r : regex) (s s' : str) (c c' : captures) :
  matches fl r s c s' c' ->
  forall (T p : str),
    T = p ++ s ->
    Forall (fun ic => includes T (snd ic) = true) c ->
    Forall (fun ic => includes T (snd ic) = true) c'.
Proof.
  induction 1 as [x a s c E|negated items a s c E|a s c E|c|s c
                  |a b s s1 s2 c c1 c2 Ha IHa Hb IHb
                  |a b s s1 c c1 Ha IHa|a b s s1 c c1 Hb IHb
                  |greedy a s c|greedy a s s1 s2 c c1 c2 Ha IHa Hlt Hrest IHrest
                  |i a s s1 c c1 Ha IHa];
    intros T p HT Hc; try exact Hc; eauto.
  - destruct (matches_suffix fl a s s1 c c1 Ha) as [x Hx].
    apply (IHb T (p ++ x)); [now rewrite <- app_assoc, <- Hx|eauto].
  - destruct (matches_suffix fl a s s1 c c1 Ha) as [x Hx].
    apply (IHrest T (p ++ x)); [now rewrite <- app_assoc, <- Hx|eauto].
  - constructor; [|eauto].
    cbn [snd]; destruct (matches_suffix fl a s s1 c c1 Ha) as [x ->].
    rewrite firstn_consumed, HT; apply includes_iff; now exists p, s1.
Qed.

Lemma searchFrom_groups (fl : flags) (r : regex) :
  forall (s : str) (i : nat) (m : MatchResult),
    searchFrom fl r s i = Some m ->
    exists pre suf rest c,
      s = pre ++ suf
      /\ matchHere fl r suf = Some (rest, c)
      /\ m_groups m = map (fun g => lookupCapture g c) (seq 1 (countGroups r)).
Proof.
  induction s as [|a s IH]; intros i m; cbn [searchFrom];
    destruct (matchHere fl r _) as [[rest c]|] eqn:E; intros H;
    try discriminate.
  - injection H as <-; now exists [], [], rest, c.
  - injection H as <-; now exists [], (a :: s), rest, c.
  - apply IH in H as [pre [suf [rest [c [-> [Hm Hg]]]]]].
    now exists (a :: pre), suf, rest, c.
Qed.

Lemma group1_inside (fl : flags) (r : regex) :
  forall (s : str) (i : nat) (m : MatchResult),
    searchFrom fl r s i = Some m -> includes s (group1 m) = true.
Proof.
  intros s i m H.
  apply searchFrom_groups in H as [pre [suf [rest [c [-> [Hm Hg]]]]]].
  assert (Hnil : includes (pre ++ suf) [] = true)
    by (apply includes_iff; now exists [], (pre ++ suf)).
  apply matchHere_matches in Hm.
  pose proof (captures_inside _ _ _ _ _ _ Hm (pre ++ suf) pre eq_refl
                (Forall_nil _)) as Hc.
  unfold group1; rewrite Hg.
  destruct (countGroups r); cbn [seq map nth]; [exact Hnil|].
  destruct (lookupCapture 1 c) as [x|] eqn:El; [|exact Hnil].
  now apply (lookupCapture_Forall (fun x => includes (pre ++ suf) x = true) 1 c x Hc).
Qed.

(** ** The extractor *)

Lemma addMatches_nil (fl : flags) (r : regex) (text : str) (set : list str) :
  matchAll fl r text = [] -> addMatches fl r text set = set.
Proof. unfold addMatches; now intros ->. Qed.

Lemma requires_font_family :
  requires "font-family" noFlags fontFamilyRegex = true
  /\ requires "font-family" noFlags fontAttrRegex = true
  /\ requires "font-family" noFlags tspanRegex = true
  /\ requires "font-family" noFlags textRegex = true
  /\ requires "font-family" noFlags fontFaceRegex = true.
Proof. repeat split; vm_compute; reflexivity. Qed.

(** X10.  A document that does not hold the text [font-family] (in lower
    case: the patterns are case-sensitive) yields no font. *)
Theorem no_font_family_text_no_fonts (svgContent : str) :
  includes svgContent "font-family" = false -> extractFontsFromSVG svgContent = [].
Proof.
  intros Hno; unfold extractFontsFromSVG, fontFamilySet.
  destruct requires_font_family as [R1 [R2 [R3 [R4 R5]]]].
  rewrite (addMatches_nil _ fontFaceRegex), (addMatches_nil _ textRegex),
    (addMatches_nil _ tspanRegex), (addMatches_nil _ fontAttrRegex),
    (addMatches_nil _ fontFamilyRegex)
    by (eapply requires_matchAll; eassumption).
  assert (Hcss : forall (blocks : list MatchResult),
             (forall m, In m blocks -> includes (group1 m) "font-family" = false) ->
             fold_left (fun acc cssMatch =>
                          addMatches noFlags fontFamilyRegex (group1 cssMatch) acc)
                       blocks [] = []).
  { induction blocks as [|m ms IH]; intros Hall; cbn [fold_left]; [reflexivity|].
    rewrite addMatches_nil; [apply IH; intros m' Hm'; apply Hall; now right|].
    eapply requires_matchAll; [exact R1|apply Hall; now left]. }
  rewrite Hcss; [reflexivity|].
  intros m Hin; apply matchAll_In in Hin as [q Hq].
  apply group1_inside in Hq.
  destruct (includes (group1 m) "font-family") eqn:E; [exfalso|reflexivity].
  apply includes_iff in Hq as [a [b Hq]]; apply includes_iff in E as [x [y E]].
  assert (includes (skipn q svgContent) "font-family" = true).
  { apply includes_iff; exists (a ++ x), (y ++ b).
    rewrite Hq, E; now rewrite <- !app_assoc. }
  rewrite includes_tail in H; [discriminate|exact Hno].
Qed.

Lemma no_font_family_text_no_fonts_witness :
  extractFontsFromSVG
    ("<svg><text FONT-FAMILY=" ++ dq ++ "Roboto" ++ dq ++ ">Hi</text></svg>") = [].
Proof.
  apply (no_font_family_text_no_fonts
           ("<svg><text FONT-FAMILY=" ++ dq ++ "Roboto" ++ dq ++ ">Hi</text></svg>")).
  vm_compute; reflexivity.
Defined.

(** ** Trimmed texts *)

Lemma forallb_dropWhile (p q : ascii -> bool) (s : str) :
  forallb p s = true -> forallb p (dropWhile q s) = true.
Proof.
  induction s as [|c s IH]; cbn [dropWhile forallb]; [reflexivity|].
  intros H; destruct (q c); [|exact H].
  apply andb_true_iff in H as [_ H]; now apply IH.
Qed.

Lemma forallb_takeWhile (p q : ascii -> bool) (s : str) :
  forallb p s = true -> forallb p (takeWhile q s) = true.
Proof.
  induction s as [|c s IH]; cbn [takeWhile forallb]; [reflexivity|].
  intros H; apply andb_true_iff in H as [Hc H].
  destruct (q c); cbn [forallb]; [now rewrite Hc, IH|reflexivity].
Qed.

Lemma takeWhile_all (q : ascii -> bool) (s : str) : forallb q (takeWhile q s) = true.
Proof.
  induction s as [|c s IH]; cbn [takeWhile]; [reflexivity|].
  destruct (q c) eqn:E; cbn [forallb]; [now rewrite E|reflexivity].
Qed.

Lemma forallb_rev (p : ascii -> bool) (s : str) :
  forallb p (rev s) = forallb p s.
Proof.
  induction s as [|c s IH]; cbn [rev forallb]; [reflexivity|].
  rewrite forallb_app, IH; cbn [forallb]; now rewrite andb_true_r, andb_comm.
Qed.

Lemma forallb_trim (p : ascii -> bool) (s : str) :
  forallb p s = true -> forallb p (trim s) = true.
Proof.
  intros H; unfold trim, trimEnd, trimStart.
  rewrite forallb_rev; apply forallb_dropWhile.
  rewrite forallb_rev; now apply forallb_dropWhile.
Qed.

Lemma dropWhile_fixed (p : ascii -> bool) (s : str) :
  match s with [] => True | c :: _ => p c = false end -> dropWhile p s = s.
Proof. destruct s as [|c s]; cbn [dropWhile]; [reflexivity|now intros ->]. Qed.

Lemma dropWhile_head (p : ascii -> bool) (s : str) :
  match dropWhile p s with [] => True | c :: _ => p c = false end.
Proof.
  induction s as [|c s IH]; cbn [dropWhile]; [exact I|].
  destruct (p c) eqn:E; [exact IH|exact E].
Qed.

Lemma trimEnd_prefix (s : str) : exists w, s = trimEnd s ++ w.
Proof.
  exists (rev (takeWhile isWhiteSpace (rev s))); unfold trimEnd.
  rewrite <- rev_app_distr, takeWhile_dropWhile; now rewrite rev_involutive.
Qed.

(** A trimmed text is left as it is by [trim]. *)
Lemma trim_trim (s : str) : trim (trim s) = trim s.
Proof.
  unfold trim at 1 2.
  assert (Hstart : trimStart (trimEnd (trimStart s)) = trimEnd (trimStart s)).
  { apply dropWhile_fixed.
    destruct (trimEnd_prefix (trimStart s)) as [w Hw].
    pose proof (dropWhile_head isWhiteSpace s) as Hh; fold (trimStart s) in Hh.
    destruct (trimEnd (trimStart s)) as [|c t]; [exact I|].
    now rewrite Hw in Hh. }
  rewrite Hstart; unfold trim, trimEnd; rewrite rev_involutive.
  f_equal; apply dropWhile_fixed, dropWhile_head.
Qed.

(** ** The names the extractor returns *)

Lemma setAdd_In (x y : str) (l : list str) : In y (setAdd x l) -> y = x \/ In y l.
Proof.
  unfold setAdd; destruct (existsb (str_eqb x) l); [now right|].
  intros H; apply in_app_or in H as [H|[<-|[]]]; [now right|now left].
Qed.

Lemma addMatches_In (fl : flags) (r : regex) (text : str) (y : str) :
  forall set : list str,
    In y (addMatches fl r text set) ->
    In y set \/ exists m, In m (matchAll fl r text) /\ y = trim (group1 m).
Proof.
  unfold addMatches; induction (matchAll fl r text) as [|m ms IH]; intros set;
    cbn [fold_left]; [now left|].
  intros H; apply IH in H as [H|[m' [Hin ->]]].
  - apply setAdd_In in H as [->|H]; [right; exists m; split; [now left|reflexivity]|now left].
  - right; exists m'; split; [now right|reflexivity].
Qed.

Lemma groupsOnly_noQuote :
  groupsOnly noQuote noFlags fontFamilyRegex = true
  /\ groupsOnly noQuote noFlags fontAttrRegex = true
  /\ groupsOnly noQuote noFlags tspanRegex = true
  /\ groupsOnly noQuote noFlags textRegex = true
  /\ groupsOnly noQuote noFlags fontFaceRegex = true.
Proof. repeat split; vm_compute; reflexivity. Qed.

Lemma addMatches_noQuote (r : regex) (text : str) (set : list str) :
  groupsOnly noQuote noFlags r = true ->
  Forall (fun y => forallb noQuote y = true) set ->
  Forall (fun y => forallb noQuote y = true) (addMatches noFlags r text set).
Proof.
  intros Hr Hset; apply Forall_forall; intros y Hy.
  apply addMatches_In in Hy as [Hy|[m [Hm ->]]].
  - rewrite Forall_forall in Hset; now apply Hset.
  - apply matchAll_In in Hm as [q Hq].
    apply forallb_trim; now apply (group1_onlyChars noQuote noFlags r Hr _ _ _ Hq).
Qed.

Lemma fontFamilySet_noQuote (svgContent : str) :
  Forall (fun y => forallb noQuote y = true) (fontFamilySet svgContent).
Proof.
  destruct groupsOnly_noQuote as [G1 [G2 [G3 [G4 G5]]]].
  unfold fontFamilySet.
  repeat (apply addMatches_noQuote; [assumption|]).
  generalize (matchAll noFlags cssRegex svgContent) as blocks.
  assert (H0 : Forall (fun y => forallb noQuote y = true)
                      (addMatches noFlags fontAttrRegex svgContent
                         (addMatches noFlags fontFamilyRegex svgContent [])))
    by (repeat (apply addMatches_noQuote; [assumption|]); constructor).
  revert H0; generalize (addMatches noFlags fontAttrRegex svgContent
                           (addMatches noFlags fontFamilyRegex svgContent [])) as set.
  intros set Hset blocks; revert set Hset.
  induction blocks as [|m ms IH]; intros set Hset; cbn [fold_left]; [exact Hset|].
  apply IH; now apply addMatches_noQuote.
Qed.

Lemma forallb_not_In (p : ascii -> bool) (x : ascii) (s : str) :
  p x = false -> forallb p s = true -> ~ In x s.
Proof.
  intros Hx Hs Hin; rewrite forallb_forall in Hs; apply Hs in Hin; congruence.
Qed.

(** X11.  Every name [extractFontsFromSVG] returns is a primary name in
    this sense: it holds no comma and no quote, single or double, and it
    is trimmed (it neither starts nor ends with white space). *)
Theorem extracted_names_are_primary (svgContent name : str) :
  In name (extractFontsFromSVG svgContent) ->
  ~ In ","%char name /\ ~ In cdq name /\ ~ In "'"%char name /\ trim name = name.
Proof.
  unfold extractFontsFromSVG; rewrite in_map_iff; intros [font [<- Hin]].
  pose proof (fontFamilySet_noQuote svgContent) as Hq.
  rewrite Forall_forall in Hq; apply Hq in Hin.
  assert (Hquote : forallb noQuote (trim (beforeComma font)) = true)
    by now apply forallb_trim, forallb_takeWhile.
  assert (Hcomma : forallb (fun c => negb (Ascii.eqb c ",")) (trim (beforeComma font)) = true).
  { apply forallb_trim; unfold beforeComma; apply takeWhile_all. }
  split; [|split; [|split]].
  - revert Hcomma; now apply forallb_not_In.
  - revert Hquote; now apply forallb_not_In.
  - revert Hquote; now apply forallb_not_In.
  - apply trim_trim.
Qed.

Lemma extracted_names_are_primary_witness :
  ~ In ","%char ("Arial" : str) /\ ~ In cdq ("Arial" : str)
  /\ ~ In "'"%char ("Arial" : str) /\ trim "Arial" = "Arial".
Proof.
  apply (extracted_names_are_primary twoArialElements "Arial").
  vm_compute; left; reflexivity.
Defined.

(** ** The last occurrence *)







(** ** Writing the mapping file *)










(** ** The local lookup *)

(** X15.  The local lookup reads a name through its normal form only:
    names of the same normal form ([Open Sans], [open-sans]) get the same
    answer; and a name without a letter or digit, whose normal form is
    empty, is found in every directory that has an entry. *)
Theorem local_lookup_reads_the_normal_form (a b : str) (entries : option (list str)) :
  normalized a = normalized b ->
  fontExistsLocally a entries = fontExistsLocally b entries
  /\ (normalized a = [] ->
      forall file files, entries = Some (file :: files) ->
                         fontExistsLocally a entries = true).
Proof.
  intros Hab; split.
  - unfold fontExistsLocally; destruct entries as [files|]; [|reflexivity].
    now rewrite !normalizeName_normalized, Hab.
  - intros Hnil file files ->; apply fontExistsLocally_true.
    exists file; split; [now left|].
    rewrite Hnil; apply includes_iff.
    now exists [], (normalized (basename file (extname file))).
Qed.

Lemma local_lookup_reads_the_normal_form_witness :
  fontExistsLocally "Open Sans" (Some ["OpenSans-Bold.ttf" : str])
  = fontExistsLocally "open-sans" (Some ["OpenSans-Bold.ttf" : str]).
Proof.
  apply (local_lookup_reads_the_normal_form "Open Sans" "open-sans"
           (Some ["OpenSans-Bold.ttf" : str])).
  vm_compute; reflexivity.
Defined.

(** ** Reading a match apart *)

Lemma matches_Seq_inv (fl : flags) (a b : regex) (s s2 : str) (c c2 : captures) :
  matches fl (Seq a b) s c s2 c2 ->
  exists s1 c1, matches fl a s c s1 c1 /\ matches fl b s1 c1 s2 c2.
Proof. inversion 1; subst; eauto. Qed.

Lemma matches_Chr_inv (fl : flags) (x : ascii) (s s' : str) (c c' : captures) :
  matches fl (Chr x) s c s' c' ->
  exists a, s = a :: s' /\ charMatches fl x a = true /\ c' = c.
Proof. inversion 1; subst; eauto. Qed.

Lemma matches_Class_inv (fl : flags) (negated : bool) (items : list classItem)
    (s s' : str) (c c' : captures) :
  matches fl (Class negated items) s c s' c' ->
  exists a, s = a :: s' /\ classMatches fl negated items a = true /\ c' = c.
Proof. inversion 1; subst; eauto. Qed.

Lemma matches_Group_inv (fl : flags) (i : nat) (a : regex) (s s' : str) (c c' : captures) :
  matches fl (Group i a) s c s' c' ->
  exists c1, matches fl a s c s' c1 /\ c' = (i, firstn (length s - length s') s) :: c1.
Proof. inversion 1; subst; eauto. Qed.

Lemma matches_Eps_inv (fl : flags) (s s' : str) (c c' : captures) :
  matches fl Eps s c s' c' -> s' = s /\ c' = c.
Proof. inversion 1; subst; auto. Qed.

Lemma matches_AtEnd_inv (fl : flags) (s s' : str) (c c' : captures) :
  matches fl AtEnd s c s' c' -> s = [] /\ s' = [] /\ c' = c.
Proof. inversion 1; subst; auto. Qed.

Lemma matches_Alt_inv (fl : flags) (a b : regex) (s s' : str) (c c' : captures) :
  matches fl (Alt a b) s c s' c' ->
  matches fl a s c s' c' \/ matches fl b s c s' c'.
Proof. inversion 1; subst; auto. Qed.

(** A literal matches a text equal to it up to case. *)
Lemma matches_Lit_inv (fl : flags) (l : str) :
  forall (s s' : str) (c c' : captures),
    matches fl (Lit l) s c s' c' ->
    exists x, s = x ++ s' /\ canonStr fl x = canonStr fl l /\ c' = c.
Proof.
  induction l as [|a [|b l] IH]; intros s s' c c' H.
  - apply matches_Eps_inv in H as [-> ->]; now exists [].
  - apply matches_Chr_inv in H as [x [-> [E ->]]]; exists [x]; repeat split.
    unfold charMatches in E; apply Ascii.eqb_eq in E; cbn; now rewrite E.
  - change (Lit (a :: b :: l)) with (Seq (Chr a) (Lit (b :: l))) in H.
    apply matches_Seq_inv in H as [s1 [c1 [Ha Hl]]].
    apply matches_Chr_inv in Ha as [x [-> [E ->]]].
    apply IH in Hl as [y [-> [Hy ->]]].
    exists (x :: y); repeat split.
    unfold charMatches in E; apply Ascii.eqb_eq in E.
    unfold canonStr in *; cbn [map]; now rewrite E, Hy.
Qed.

Lemma matches_Lit_intro (fl : flags) (l : str) :
  forall (x t : str) (c : captures),
    canonStr fl x = canonStr fl l -> matches fl (Lit l) (x ++ t) c t c.
Proof.
  induction l as [|a [|b l] IH]; intros x t c H.
  - destruct x; [constructor|discriminate].
  - destruct x as [|y [|z x]]; try discriminate.
    injection H as H; constructor; unfold charMatches; rewrite H; apply Ascii.eqb_refl.
  - destruct x as [|y x]; [discriminate|].
    injection H as Hy Hx.
    change (Lit (a :: b :: l)) with (Seq (Chr a) (Lit (b :: l))).
    apply (matches_Seq fl _ _ _ (x ++ t) _ c c c).
    + constructor; unfold charMatches; rewrite Hy; apply Ascii.eqb_refl.
    + now apply IH.
Qed.

(** A [*] over a class matches a run of the class. *)
Lemma matches_star_class_inv (fl : flags) (greedy negated : bool)
    (items : list classItem) (s s' : str) (c c' : captures) :
  matches fl (Star greedy (Class negated items)) s c s' c' ->
  exists b, s = b ++ s' /\ forallb (classMatches fl negated items) b = true /\ c' = c.
Proof.
  remember (Star greedy (Class negated items)) as r eqn:Er.
  induction 1 as [| | | | | | | |g a s c|g a s s1 s2 c c1 c2 Ha _ Hlt Hrest IH|];
    try discriminate; injection Er as -> ->.
  - now exists [].
  - apply matches_Class_inv in Ha as [x [-> [E ->]]].
    destruct (IH eq_refl) as [b [-> [Hb ->]]].
    exists (x :: b); repeat split; cbn [forallb]; now rewrite E.
Qed.

Lemma matches_star_class_intro (fl : flags) (greedy negated : bool)
    (items : list classItem) (t : str) (c : captures) :
  forall b : str,
    forallb (classMatches fl negated items) b = true ->
    matches fl (Star greedy (Class negated items)) (b ++ t) c t c.
Proof.
  induction b as [|x b IH]; cbn [forallb app]; intros H; [constructor|].
  apply andb_true_iff in H as [Hx Hb].
  apply (matches_StarS fl greedy _ _ (b ++ t) t c c c);
    [now constructor|cbn [length]; lia|now apply IH].
Qed.

(** Two ways to cut a text at the first character outside [p] agree. *)
Lemma first_outside (p : ascii -> bool) :
  forall (b b' : str) (q q' : ascii) (t t' : str),
    forallb p b = true -> forallb p b' = true -> p q = false -> p q' = false ->
    b ++ q :: t = b' ++ q' :: t' -> b = b' /\ q = q' /\ t = t'.
Proof.
  induction b as [|x b IH]; intros [|y b'] q q' t t' Hb Hb' Hq Hq' E;
    cbn [app forallb] in *; injection E as E1 E2.
  - now subst.
  - subst; apply andb_true_iff in Hb' as [Hy _]; congruence.
  - subst; apply andb_true_iff in Hb as [Hx _]; congruence.
  - apply andb_true_iff in Hb as [_ Hb]; apply andb_true_iff in Hb' as [_ Hb'].
    destruct (IH b' q q' t t' Hb Hb' Hq Hq' E2) as [-> [-> ->]]; now subst.
Qed.

(** ** Printed numbers *)

Lemma numberChar_digit (k : nat) : k < 10 -> numberChar (ascii_of_nat (48 + k)) = true.
Proof. do 10 (destruct k as [|k]; [reflexivity|]); lia. Qed.

Lemma numberChar_digitsOfPos (fuel : nat) :
  forall (z : Z) (acc : str),
    forallb numberChar acc = true -> forallb numberChar (digitsOfPos fuel z acc) = true.
Proof.
  induction fuel as [|fuel IH]; intros z acc Hacc; cbn [digitsOfPos]; [exact Hacc|].
  assert (Hd : forallb numberChar (ascii_of_nat (48 + Z.to_nat (z mod 10)) :: acc) = true).
  { cbn [forallb]; rewrite numberChar_digit; [exact Hacc|].
    pose proof (Z.mod_pos_bound z 10 eq_refl); lia. }
  destruct (z <? 10)%Z; [exact Hd|now apply IH].
Qed.

Lemma numberChar_digitsOf (z : Z) : forallb numberChar (digitsOf z) = true.
Proof. now apply numberChar_digitsOfPos. Qed.

Lemma numberChar_zeros (n : Z) : forallb numberChar (zeros n) = true.
Proof. unfold zeros; induction (Z.to_nat n); cbn; [reflexivity|assumption]. Qed.

Lemma forallb_firstn (p : ascii -> bool) (n : nat) (s : str) :
  forallb p s = true -> forallb p (firstn n s) = true.
Proof.
  revert n; induction s as [|c s IH]; intros [|n]; cbn; try reflexivity.
  intros H; apply andb_true_iff in H as [Hc Hs]; rewrite Hc; now apply IH.
Qed.

Lemma forallb_skipn (p : ascii -> bool) (n : nat) (s : str) :
  forallb p s = true -> forallb p (skipn n s) = true.
Proof.
  revert n; induction s as [|c s IH]; intros [|n]; cbn; try reflexivity; try easy.
  intros H; apply andb_true_iff in H as [Hc Hs]; now apply IH.
Qed.

Ltac number_parts :=
  rewrite ?forallb_app, ?andb_true_iff; repeat split;
  auto using numberChar_digitsOf, numberChar_zeros, forallb_firstn, forallb_skipn.

Lemma numberChar_formatDecimal (s n k : Z) :
  forallb numberChar (formatDecimal s n k) = true.
Proof.
  unfold formatDecimal.
  pose proof (numberChar_digitsOf s) as Hs.
  repeat match goal with |- context [if ?b then _ else _] => destruct b end;
    try (number_parts; fail).
  all: destruct (digitsOf s) as [|d rest]; [reflexivity|].
  all: cbn [forallb] in Hs; apply andb_true_iff in Hs as [Hd Hr].
  all: destruct rest; number_parts; cbn [forallb]; rewrite ?Hd; auto.
Qed.

Lemma numberChar_positiveToString (x : num) :
  forallb numberChar (positiveToString x) = true.
Proof.
  unfold positiveToString.
  destruct (Prim2SF x) as [sign| | |sign m e]; try reflexivity.
  destruct (if (0 <=? e)%Z then _ else _) as [a b].
  destruct (fold_left _ _ _) as [[s n]|]; [apply numberChar_formatDecimal|reflexivity].
Qed.

(** A printed Number is made of digits and of the characters of
    [.e+-], [NaN] and [Infinity]. *)
Lemma numberChar_toString (x : num) : forallb numberChar (toString x) = true.
Proof.
  unfold toString.
  repeat match goal with |- context [if ?b then _ else _] => destruct b end;
    try reflexivity; number_parts; apply numberChar_positiveToString.
Qed.

(** ** Frame inference, run again *)

Lemma numberChar_noQuote (a : ascii) :
  numberChar a = true -> classMatches flag_i true [One cdq; One "'"%char] a = true.
Proof.
  assert (H : forallb (fun a => implb (numberChar a)
                                      (classMatches flag_i true [One cdq; One "'"%char] a))
                      allAscii = true) by (vm_compute; reflexivity).
  intros Hn; apply forallb_allAscii with (a := a) in H; now rewrite Hn in H.
Qed.

Lemma forallb_impl (p q : ascii -> bool) (s : str) :
  (forall a, p a = true -> q a = true) -> forallb p s = true -> forallb q s = true.
Proof.
  intros Hpq; induction s as [|c s IH]; cbn [forallb]; [reflexivity|].
  intros H; apply andb_true_iff in H as [Hc Hs]; now rewrite (Hpq c Hc), IH.
Qed.

(** The root tag as [/<svg[^>]*>/i] finds it: the four characters of
    [<svg], in any case, and the rest of the tag up to its [>]. *)
Lemma svgTag_match (svgContent : str) (tag : MatchResult) :
  exec flag_i svgTagRegex svgContent = Some tag ->
  exists head body : str,
    m_text tag = head ++ body ++ ">"
    /\ canonStr flag_i head = canonStr flag_i "<svg"
    /\ forallb (classMatches flag_i true [One ">"%char]) body = true
    /\ ~ In ">"%char (head ++ body)
    /\ exists p rest, svgContent = p ++ m_text tag ++ rest.
Proof.
  intros Htag.
  apply searchFrom_sound in Htag as [p [suf [rest [c [Hs [Hm [_ Ht]]]]]]].
  pose proof (svgTag_shape suf rest c Hm) as [whole [Hwhole Hnot]].
  apply matchHere_matches in Hm; unfold svgTagRegex, notGt in Hm; cbn [Seqs] in Hm.
  apply matches_Seq_inv in Hm as [s1 [c1 [Hlit Hm]]].
  apply matches_Seq_inv in Hm as [s2 [c2 [Hstar Hgt]]].
  apply matches_Lit_inv in Hlit as [head [Hh [Hcanon _]]].
  apply matches_star_class_inv in Hstar as [body [Hb [Hclass _]]].
  apply matches_Chr_inv in Hgt as [g [Hg [Eg _]]].
  apply charMatches_gt in Eg; subst g s2 s1.
  assert (Hsame : whole = head ++ body).
  { rewrite Hh in Hwhole.
    change (whole ++ ">"%char :: rest) with (whole ++ [">"%char] ++ rest) in Hwhole.
    change (body ++ ">"%char :: rest) with (body ++ [">"%char] ++ rest) in Hwhole.
    rewrite !app_assoc in Hwhole; apply app_inv_tail in Hwhole.
    apply app_inj_tail in Hwhole as [Hw _]; now rewrite Hw. }
  subst whole.
  assert (Htext : m_text tag = head ++ body ++ ">").
  { rewrite Ht, Hh.
    replace (head ++ body ++ ">"%char :: rest) with ((head ++ body ++ ">") ++ rest)
      by (now rewrite <- !app_assoc).
    apply firstn_consumed. }
  exists head, body; repeat split; try assumption.
  exists p, rest; rewrite Hs, Hh, Htext; now rewrite <- !app_assoc.
Qed.

(** What [inferViewBox] does to a document with no declared frame and a
    declared size. *)
Lemma inferViewBox_adds (svgContent : str) (tag : MatchResult) (width height : num) :
  test flag_i viewBoxRegex svgContent = false ->
  exec flag_i svgTagRegex svgContent = Some tag ->
  declaredSize svgContent = Some (width, height) ->
  inferViewBox svgContent
  = addToSvgTag svgContent (m_text tag)
      ("viewBox=" ++ dq ++ ("0 0 " ++ toString width ++ " " ++ toString height) ++ dq).
Proof.
  intros Hview Htag Hsize; unfold inferViewBox; rewrite Hview, Htag.
  unfold declaredSize in Hsize.
  destruct (exec flag_i (svgAttrRegex "width") svgContent) as [wm|]; [|discriminate].
  destruct (exec flag_i (svgAttrRegex "height") svgContent) as [hm|]; [|discriminate].
  cbv zeta in Hsize |- *.
  destruct (negb (isNaN (parseFloat (trim (group1 wm)))) && _ && _ && _);
    [|discriminate].
  now injection Hsize as -> ->.
Qed.

Lemma inferViewBox_keeps (svgContent : str) :
  test flag_i viewBoxRegex svgContent = true
  \/ exec flag_i svgTagRegex svgContent = None
  \/ declaredSize svgContent = None ->
  inferViewBox svgContent = svgContent.
Proof.
  unfold inferViewBox, declaredSize.
  destruct (exec flag_i svgTagRegex svgContent) as [tag|]; [|reflexivity].
  destruct (test flag_i viewBoxRegex svgContent); [reflexivity|].
  intros [H|[H|H]]; try discriminate.
  destruct (exec flag_i (svgAttrRegex "width") svgContent) as [wm|]; [|reflexivity].
  destruct (exec flag_i (svgAttrRegex "height") svgContent) as [hm|]; [|reflexivity].
  cbv zeta in H |- *.
  now destruct (negb (isNaN (parseFloat (trim (group1 wm)))) && _ && _ && _).
Qed.

(** A [viewBox] attribute inside a root tag is found by
    [/<svg[^>]*viewBox\s*=\s*[\x22'][^\x22']*[\x22']/i]. *)
Lemma viewBox_declared (pre head body value post : str) :
  canonStr flag_i head = canonStr flag_i "<svg" ->
  forallb (classMatches flag_i true [One ">"%char]) body = true ->
  forallb (classMatches flag_i true [One cdq; One "'"%char]) value = true ->
  test flag_i viewBoxRegex
       (pre ++ head ++ body ++ "viewBox=" ++ dq ++ value ++ dq ++ post) = true.
Proof.
  intros Hhead Hbody Hvalue; apply test_true.
  exists pre, (head ++ body ++ "viewBox" ++ "="%char :: cdq :: value ++ cdq :: post),
    post, []; split; [reflexivity|].
  unfold viewBoxRegex, notGt, notQuote, ws; cbn [Seqs].
  eapply matches_Seq; [now apply matches_Lit_intro|].
  eapply matches_Seq; [now apply matches_star_class_intro|].
  eapply matches_Seq; [now apply matches_Lit_intro|].
  eapply matches_Seq; [apply matches_Star0|].
  eapply matches_Seq; [now constructor|].
  eapply matches_Seq; [apply matches_Star0|].
  eapply matches_Seq; [now constructor|].
  eapply matches_Seq;
    [apply (matches_star_class_intro flag_i true true _ (cdq :: post) [] value Hvalue)
    |now constructor].
Qed.

(** So is the frame attribute. *)
Lemma frame_is_declared (pre head body post : str) (width height : num) :
  canonStr flag_i head = canonStr flag_i "<svg" ->
  forallb (classMatches flag_i true [One ">"%char]) body = true ->
  test flag_i viewBoxRegex (pre ++ (head ++ body) ++ frameAttribute width height ++ post)
  = true.
Proof.
  intros Hhead Hbody.
  assert (E : pre ++ (head ++ body) ++ frameAttribute width height ++ post
              = pre ++ head ++ (body ++ " ") ++ "viewBox=" ++ dq
                ++ ("0 0 " ++ toString width ++ " " ++ toString height) ++ dq
                ++ ">" ++ post)
    by (unfold frameAttribute; rewrite <- !app_assoc; reflexivity).
  rewrite E; apply viewBox_declared; [exact Hhead| |].
  - now rewrite forallb_app, Hbody.
  - rewrite !forallb_app.
    rewrite !(forallb_impl numberChar _ (toString _) numberChar_noQuote)
      by apply numberChar_toString.
    reflexivity.
Qed.

(** X16.  On a document whose root tag holds no [$], frame inference runs
    to a fixed point at once: either it leaves the document as it is, or
    the document it returns declares a frame; a second run changes
    nothing. *)
Theorem frame_inference_is_idempotent (svgContent : str) :
  (forall tag, exec flag_i svgTagRegex svgContent = Some tag ->
               forallb (fun c => negb (Ascii.eqb c "$")) (m_text tag) = true) ->
  (inferViewBox svgContent = svgContent
   \/ test flag_i viewBoxRegex (inferViewBox svgContent) = true)
  /\ inferViewBox (inferViewBox svgContent) = inferViewBox svgContent.
Proof.
  intros Hplain.
  assert (Hmain : inferViewBox svgContent = svgContent
                  \/ test flag_i viewBoxRegex (inferViewBox svgContent) = true).
  { destruct (test flag_i viewBoxRegex svgContent) eqn:Hview;
      [left; apply inferViewBox_keeps; now left|].
    destruct (exec flag_i svgTagRegex svgContent) as [tag|] eqn:Htag;
      [|left; apply inferViewBox_keeps; right; now left].
    destruct (declaredSize svgContent) as [[width height]|] eqn:Hsize;
      [|left; apply inferViewBox_keeps; right; now right].
    right; rewrite (inferViewBox_adds svgContent tag width height Hview Htag Hsize).
    specialize (Hplain tag eq_refl).
    destruct (svgTag_match svgContent tag Htag)
      as [head [body [Htext [Hhead [Hbody [Hnot [p [rest Hdoc]]]]]]]].
    rewrite app_assoc in Htext; rewrite Htext in Hdoc, Hplain |- *.
    rewrite addToSvgTag_frame by exact Hnot.
    destruct (replaceStr_occurrence svgContent ((head ++ body) ++ ">")
                ((head ++ body) ++ frameAttribute width height) p rest Hdoc)
      as [pre [post [_ Hrep]]].
    rewrite Hrep, getSubstitution_plain.
    - rewrite <- (app_assoc (head ++ body)); now apply frame_is_declared.
    - unfold plain; rewrite forallb_app in Hplain |- *.
      apply andb_true_iff in Hplain as [Hb _]; rewrite Hb.
      apply plain_frameAttribute. }
  split; [exact Hmain|].
  destruct Hmain as [Hsame|Hdeclared]; [now rewrite !Hsame|].
  apply inferViewBox_keeps; now left.
Qed.

Lemma frame_inference_is_idempotent_witness :
  inferViewBox (inferViewBox sized) = inferViewBox sized.
Proof.
  apply (frame_inference_is_idempotent sized).
  intros tag Htag; vm_compute in Htag; injection Htag as <-; vm_compute; reflexivity.
Defined.

(** ** Searching a text with a known head *)

Lemma searchFrom_skip (fl : flags) (r : regex) (a : ascii) (s : str) (i : nat) :
  matchHere fl r (a :: s) = None ->
  searchFrom fl r (a :: s) i = searchFrom fl r s (S i).
Proof. intros H; cbn [searchFrom]; now rewrite H. Qed.

Lemma searchFrom_here (fl : flags) (r : regex) (s rest : str) (c : captures) (i : nat) :
  matchHere fl r s = Some (rest, c) ->
  searchFrom fl r s i
  = Some {| m_index := i;
            m_text := firstn (length s - length rest) s;
            m_groups := map (fun g => lookupCapture g c) (seq 1 (countGroups r)) |}.
Proof. intros H; destruct s; cbn [searchFrom]; now rewrite H. Qed.

Lemma charMatches_dq (fl : flags) (a : ascii) :
  charMatches fl cdq a = true -> a = cdq.
Proof.
  destruct fl as [[|] d];
    destruct a as [[|] [|] [|] [|] [|] [|] [|] [|]]; vm_compute; congruence.
Qed.

Lemma charMatches_eq_sign (fl : flags) (a : ascii) :
  charMatches fl "=" a = true -> a = "="%char.
Proof.
  destruct fl as [[|] d];
    destruct a as [[|] [|] [|] [|] [|] [|] [|] [|]]; vm_compute; congruence.
Qed.

Lemma canonStr_length (fl : flags) (x y : str) :
  canonStr fl x = canonStr fl y -> length x = length y.
Proof.
  intros H; apply (f_equal (@List.length ascii)) in H.
  unfold canonStr in H; now rewrite !length_map in H.
Qed.

Lemma app_same_length (x y s t : str) :
  x ++ s = y ++ t -> length x = length y -> x = y /\ s = t.
Proof.
  revert y; induction x as [|a x IH]; intros [|b y] H Hl; try discriminate.
  - now split.
  - injection H as <- H; injection Hl as Hl.
    destruct (IH y H Hl) as [-> ->]; now split.
Qed.

(** [/attr=\x22([^\x22]+)\x22/i] at the front of [attr=\x22v\x22...]. *)
Lemma dimension_matchHere (attr attr' v rest : str) :
  canonStr flag_i attr' = canonStr flag_i attr ->
  v <> [] ->
  forallb (classMatches flag_i true [One cdq]) v = true ->
  matchHere flag_i (dimensionRegex attr) (attr' ++ "="%char :: cdq :: v ++ cdq :: rest)
  = Some (rest, [(1, v)]).
Proof.
  intros Hattr Hv Hclass.
  assert (Hex : matchHere flag_i (dimensionRegex attr)
                  (attr' ++ "="%char :: cdq :: v ++ cdq :: rest) <> None).
  { destruct v as [|y b]; [now contradiction Hv|].
    cbn [forallb] in Hclass; apply andb_true_iff in Hclass as [Hy Hb].
    eapply matches_matchHere; unfold dimensionRegex, Plus; cbn [Seqs].
    eapply matches_Seq; [now apply matches_Lit_intro|].
    eapply matches_Seq; [now constructor|].
    eapply matches_Seq; [now constructor|].
    eapply matches_Seq;
      [apply matches_Group; eapply matches_Seq;
       [constructor; exact Hy
       |now apply (matches_star_class_intro flag_i true true _ (cdq :: rest) [] b)]
      |now constructor]. }
  destruct (matchHere flag_i (dimensionRegex attr) _) as [[rest' c']|] eqn:E;
    [clear Hex|now contradiction Hex].
  apply matchHere_matches in E; unfold dimensionRegex, Plus in E; cbn [Seqs] in E.
  apply matches_Seq_inv in E as [s1 [c1 [Hlit E]]].
  apply matches_Seq_inv in E as [s2 [c2 [Heq E]]].
  apply matches_Seq_inv in E as [s3 [c3 [Hq1 E]]].
  apply matches_Seq_inv in E as [s4 [c4 [Hgroup Hq2]]].
  apply matches_Lit_inv in Hlit as [x [Hx [Hcanon ->]]].
  apply matches_Chr_inv in Heq as [e [-> [_ ->]]].
  apply matches_Chr_inv in Hq1 as [q1 [-> [_ ->]]].
  apply matches_Group_inv in Hgroup as [c5 [Hplus ->]].
  apply matches_Seq_inv in Hplus as [s5 [c6 [Hone Hstar]]].
  apply matches_Class_inv in Hone as [y [-> [Hy ->]]].
  apply matches_star_class_inv in Hstar as [b [-> [Hb ->]]].
  apply matches_Chr_inv in Hq2 as [q2 [-> [Eq2 ->]]].
  apply charMatches_dq in Eq2; subst q2.
  apply app_same_length in Hx as [<- Hx];
    [|now rewrite (canonStr_length _ _ _ Hattr), (canonStr_length _ _ _ Hcanon)].
  injection Hx as <- <- Hx.
  change (y :: b ++ cdq :: rest') with ((y :: b) ++ cdq :: rest') in Hx |- *.
  destruct (first_outside (classMatches flag_i true [One cdq]) v (y :: b) cdq cdq
              rest rest') as [Hv' [_ Hr]];
    [exact Hclass|cbn [forallb]; now rewrite Hy, Hb|reflexivity|reflexivity|exact Hx|].
  subst rest'; rewrite <- Hv'.
  now rewrite firstn_consumed.
Qed.

(** ** The normalised document *)

Lemma modifySvgDimensions_shape (svgContent : str) (tag : MatchResult) :
  exec flag_i svgTagRegex svgContent = Some tag ->
  exists inner : str,
    modifySvgDimensions svgContent TARGET_PDF_SIZE = targetSvgTag ++ inner.
Proof.
  intros Htag; unfold modifySvgDimensions; rewrite Htag.
  replace (toString TARGET_PDF_SIZE) with ("102" : str) by (vm_compute; reflexivity).
  eexists; unfold targetSvgTag; rewrite <- !app_assoc; reflexivity.
Qed.

Lemma targetSvgTag_dimensions (inner : str) :
  originalDimensions (targetSvgTag ++ inner) = (TARGET_PDF_SIZE, TARGET_PDF_SIZE).
Proof.
  unfold originalDimensions, exec.
  assert (Hw : exists m, searchFrom flag_i (dimensionRegex "width") (targetSvgTag ++ inner) 0
                         = Some m /\ group1 m = "102pt").
  { change (targetSvgTag ++ inner)
      with ("<svg " ++ ("width" ++ "="%char :: cdq :: "102pt" ++ cdq
                         :: skipn 18 targetSvgTag ++ inner)).
    cbn [app list_ascii_of_string] .
    rewrite !searchFrom_skip by (vm_compute; reflexivity).
    eexists; split.
    - apply searchFrom_here.
      apply (dimension_matchHere "width" "width" "102pt"); [reflexivity|discriminate|].
      reflexivity.
    - reflexivity. }
  assert (Hh : exists m, searchFrom flag_i (dimensionRegex "height") (targetSvgTag ++ inner) 0
                         = Some m /\ group1 m = "102pt").
  { change (targetSvgTag ++ inner)
      with (firstn 19 targetSvgTag
            ++ ("height" ++ "="%char :: cdq :: "102pt" ++ cdq
                  :: skipn 33 targetSvgTag ++ inner)).
    cbn [app list_ascii_of_string firstn targetSvgTag dq].
    rewrite !searchFrom_skip by (vm_compute; reflexivity).
    eexists; split.
    - apply searchFrom_here.
      apply (dimension_matchHere "height" "height" "102pt"); [reflexivity|discriminate|].
      reflexivity.
    - reflexivity. }
  destruct Hw as [wm [-> Hwm]]; destruct Hh as [hm [-> Hhm]].
  rewrite Hwm, Hhm; vm_compute; reflexivity.
Qed.

Lemma targetSvgTag_frame (inner : str) :
  test flag_i viewBoxRegex (targetSvgTag ++ inner) = true.
Proof.
  change (targetSvgTag ++ inner)
    with ([] ++ "<svg" ++ firstn 30 (skipn 4 targetSvgTag) ++ "viewBox=" ++ dq
          ++ "0 0 102 102" ++ dq ++ skipn 55 targetSvgTag ++ inner).
  apply viewBox_declared; reflexivity.
Qed.

(** X17.  The document [modifySvgDimensions] makes for the target size of
    the server declares that size: read again by the same pass its
    dimensions are 102 by 102, so the transform of a second pass is the
    scale 1 with offsets 0; and it declares a frame, which frame
    inference keeps. *)
Theorem normalised_document_declares_the_target_size (svgContent : str) :
  exec flag_i svgTagRegex svgContent <> None ->
  originalDimensions (modifySvgDimensions svgContent TARGET_PDF_SIZE)
  = (TARGET_PDF_SIZE, TARGET_PDF_SIZE)
  /\ documentTransform (modifySvgDimensions svgContent TARGET_PDF_SIZE) TARGET_PDF_SIZE
     = {| scaleFactor := 1%float; centerX := 0%float; centerY := 0%float |}
  /\ inferViewBox (modifySvgDimensions svgContent TARGET_PDF_SIZE)
     = modifySvgDimensions svgContent TARGET_PDF_SIZE.
Proof.
  intros Htag.
  destruct (exec flag_i svgTagRegex svgContent) as [tag|] eqn:E; [|now contradiction Htag].
  destruct (modifySvgDimensions_shape svgContent tag E) as [inner ->].
  split; [apply targetSvgTag_dimensions|split].
  - unfold documentTransform; rewrite targetSvgTag_dimensions.
    vm_compute; reflexivity.
  - apply inferViewBox_keeps; left; apply targetSvgTag_frame.
Qed.

Lemma normalised_document_declares_the_target_size_witness :
  originalDimensions (modifySvgDimensions sized TARGET_PDF_SIZE)
  = (TARGET_PDF_SIZE, TARGET_PDF_SIZE).
Proof.
  apply (normalised_document_declares_the_target_size sized).
  vm_compute; discriminate.
Defined.

(** ** The text elements of the font pass *)

(** A text element starts with a text tag. *)
Lemma textElement_match (s rest : str) (c : captures) :
  matchHere flag_is textElementRegex s = Some (rest, c) ->
  exists head body more,
    s = (head ++ body ++ ">"%char :: more) ++ rest
    /\ canonStr flag_i head = canonStr flag_i "<text"
    /\ forallb (classMatches flag_i true [One ">"%char]) body = true.
Proof.
  intros H; apply matchHere_matches in H.
  unfold textElementRegex, notGt in H; cbn [Seqs] in H.
  apply matches_Seq_inv in H as [s1 [c1 [Hlit H]]].
  apply matches_Seq_inv in H as [s2 [c2 [Hstar H]]].
  apply matches_Seq_inv in H as [s3 [c3 [Hgt H]]].
  apply matches_Lit_inv in Hlit as [head [-> [Hhead _]]].
  apply matches_star_class_inv in Hstar as [body [-> [Hbody _]]].
  apply matches_Chr_inv in Hgt as [g [-> [Eg _]]].
  apply charMatches_gt in Eg; subst g.
  apply matches_suffix in H as [more ->].
  exists head, body, more; repeat split; try assumption.
  now rewrite <- !app_assoc.
Qed.

Lemma textTag_found (pre head body tail : str) :
  canonStr flag_i head = canonStr flag_i "<text" ->
  forallb (classMatches flag_i true [One ">"%char]) body = true ->
  test flag_i textTagRegex (pre ++ head ++ body ++ ">"%char :: tail) = true.
Proof.
  intros Hhead Hbody; apply test_true.
  exists pre, (head ++ body ++ ">"%char :: tail), tail, []; split; [reflexivity|].
  unfold textTagRegex, notGt; cbn [Seqs].
  eapply matches_Seq; [now apply matches_Lit_intro|].
  eapply matches_Seq; [now apply matches_star_class_intro|now constructor].
Qed.

(** Without a text tag there is no text element. *)
Lemma no_textTag_no_textElement (svgContent : str) :
  test flag_i textTagRegex svgContent = false ->
  matchAll flag_is textElementRegex svgContent = [].
Proof.
  intros Hno; unfold matchAll; cbn [matchAllFrom skipn].
  destruct (length svgContent <? 0); [reflexivity|].
  destruct (searchFrom flag_is textElementRegex svgContent 0) as [m|] eqn:E;
    [exfalso|reflexivity].
  apply searchFrom_sound in E as [pre [suf [rest [c [-> [Hm _]]]]]].
  apply textElement_match in Hm as [head [body [more [-> [Hhead Hbody]]]]].
  rewrite <- !app_assoc in Hno; cbn [app] in Hno.
  now rewrite textTag_found in Hno.
Qed.

Lemma no_textTag_unchanged (fontPath : str) (typeXml : option str)
    (files : option (list str)) (svgContent : str) :
  test flag_i textTagRegex svgContent = false ->
  preprocessSvgForBetterFonts fontPath typeXml files svgContent = svgContent.
Proof.
  intros Hno; unfold preprocessSvgForBetterFonts.
  now rewrite (no_textTag_no_textElement svgContent Hno).
Qed.

Lemma prepareDocument_passes (fontPath : str) (typeXml : option str)
    (files : option (list str)) (svgContent : str) :
  prepareDocument fontPath typeXml files svgContent
  = preprocessSvgForBetterFonts fontPath typeXml files
      (modifySvgDimensions (preprocessSvg svgContent) TARGET_PDF_SIZE).
Proof.
  unfold prepareDocument.
  destruct (test flag_i textTagRegex _) eqn:E; [reflexivity|].
  symmetry; now apply no_textTag_unchanged.
Qed.

(** X18.  The test for a text tag in front of the font pass in the handler
    decides nothing: a document without a text tag is one the font pass
    leaves as it is, so the handler's passes are the three passes in a
    row. *)
Theorem text_tag_test_is_redundant (fontPath : str) (typeXml : option str)
    (files : option (list str)) (svgContent : str) :
  (test flag_i textTagRegex svgContent = false ->
   preprocessSvgForBetterFonts fontPath typeXml files svgContent = svgContent)
  /\ prepareDocument fontPath typeXml files svgContent
     = preprocessSvgForBetterFonts fontPath typeXml files
         (modifySvgDimensions (preprocessSvg svgContent) TARGET_PDF_SIZE).
Proof.
  split; [apply no_textTag_unchanged|].
  unfold prepareDocument.
  destruct (test flag_i textTagRegex
              (modifySvgDimensions (preprocessSvg svgContent) TARGET_PDF_SIZE)) eqn:E;
    [reflexivity|].
  unfold preprocessSvgForBetterFonts.
  now rewrite (no_textTag_no_textElement _ E).
Qed.

(** ** The root tag of the normalised document *)

(** [/<svg[^>]*>/i] at the front of a root tag. *)
Lemma svgTag_matchHere (head body rest : str) :
  canonStr flag_i head = canonStr flag_i "<svg" ->
  forallb (classMatches flag_i true [One ">"%char]) body = true ->
  matchHere flag_i svgTagRegex (head ++ body ++ ">"%char :: rest) = Some (rest, []).
Proof.
  intros Hhead Hbody.
  assert (Hex : matchHere flag_i svgTagRegex (head ++ body ++ ">"%char :: rest) <> None).
  { eapply matches_matchHere; unfold svgTagRegex, notGt; cbn [Seqs].
    eapply matches_Seq; [now apply matches_Lit_intro|].
    eapply matches_Seq; [now apply matches_star_class_intro|now constructor]. }
  destruct (matchHere flag_i svgTagRegex _) as [[rest' c']|] eqn:E;
    [clear Hex|now contradiction Hex].
  apply matchHere_matches in E; unfold svgTagRegex, notGt in E; cbn [Seqs] in E.
  apply matches_Seq_inv in E as [s1 [c1 [Hlit E]]].
  apply matches_Seq_inv in E as [s2 [c2 [Hstar Hgt]]].
  apply matches_Lit_inv in Hlit as [x [Hx [Hcanon ->]]].
  apply matches_star_class_inv in Hstar as [b [-> [Hb ->]]].
  apply matches_Chr_inv in Hgt as [g [-> [Eg ->]]].
  apply charMatches_gt in Eg; subst g.
  apply app_same_length in Hx as [<- Hx];
    [|now rewrite (canonStr_length _ _ _ Hhead), (canonStr_length _ _ _ Hcanon)].
  destruct (first_outside (classMatches flag_i true [One ">"%char]) body b ">" ">"
              rest rest') as [_ [_ ->]]; auto.
Qed.

Lemma targetSvgTag_exec (inner : str) :
  exec flag_i svgTagRegex (targetSvgTag ++ inner)
  = Some {| m_index := 0; m_text := targetSvgTag; m_groups := [] |}.
Proof.
  unfold exec.
  rewrite (searchFrom_here flag_i svgTagRegex (targetSvgTag ++ inner) inner []).
  - now rewrite firstn_consumed.
  - change (targetSvgTag ++ inner)
      with ("<svg" ++ firstn 248 (skipn 4 targetSvgTag) ++ ">"%char :: inner).
    apply svgTag_matchHere; reflexivity.
Qed.

Lemma app_cut_In (X Y pre rest : str) (c : ascii) :
  X ++ Y = pre ++ c :: rest -> length pre < length X -> In c X.
Proof.
  revert pre; induction X as [|x X IH]; intros pre E Hl; [cbn [length] in Hl; lia|].
  destruct pre as [|p pre]; injection E as -> E; [now left|right].
  apply (IH pre E); cbn [length] in Hl; lia.
Qed.

(** No other tag starts inside the root tag of the normalised
    document. *)
Lemma targetSvgTag_inside (Y pre suf : str) :
  targetSvgTag ++ Y = pre ++ suf ->
  otherTag suf ->
  length targetSvgTag <= length pre.
Proof.
  intros E [c1 [c2 [c3 [rest [-> [H1 H23]]]]]].
  destruct (Nat.le_gt_cases (length targetSvgTag) (length pre)) as [Hle|Hlt];
    [exact Hle|exfalso].
  destruct pre as [|p pre].
  - assert (E3 : ["<"; "s"; "v"]%char = [c1; c2; c3])
      by (apply (f_equal (firstn 3)) in E; exact E).
    injection E3 as _ <- <-.
    destruct H23 as [H|H]; now apply H.
  - assert (E' : skipn 1 targetSvgTag ++ Y = pre ++ c1 :: c2 :: c3 :: rest)
      by (apply (f_equal (@tl ascii)) in E; exact E).
    assert (Hlen : length targetSvgTag = S (length (skipn 1 targetSvgTag)))
      by reflexivity.
    apply app_cut_In in E'; [|cbn [length] in Hlt; lia].
    assert (Hno : forallb (fun c => negb (Ascii.eqb (canon flag_i c) "<"))
                          (skipn 1 targetSvgTag) = true) by (vm_compute; reflexivity).
    rewrite forallb_forall in Hno; apply Hno in E'.
    rewrite H1 in E'; discriminate.
Qed.

Lemma firstn_head (P Y : str) (n : nat) :
  length P <= n -> firstn n (P ++ Y) = P ++ firstn (n - length P) Y.
Proof. intros H; now rewrite firstn_app, firstn_all2 by exact H. Qed.

(** A replacement that starts behind [P] keeps [P] in front. *)
Lemma replaceStr_keeps_head (P Y pat tpl : str) :
  (forall pre post, P ++ Y = pre ++ pat ++ post -> length P <= length pre) ->
  exists X, replaceStr (P ++ Y) pat tpl = P ++ X.
Proof.
  intros Hbehind; unfold replaceStr.
  destruct (indexOfNat pat (P ++ Y) 0) as [i|] eqn:E; [|now exists Y].
  apply indexOfNat_sound in E as [pre [post [E ->]]].
  rewrite firstn_head by (apply (Hbehind pre post E)).
  eexists; now rewrite <- app_assoc.
Qed.

Lemma replaceAll_keeps_head (fl : flags) (r : regex) (P Y tpl : str) :
  (forall m, searchFrom fl r (P ++ Y) 0 = Some m -> length P <= m_index m) ->
  exists X, replaceAllRe fl r (P ++ Y) tpl = P ++ X.
Proof.
  intros Hbehind; unfold replaceAllRe, matchAll; cbn [matchAllFrom skipn].
  destruct (length (P ++ Y) <? 0); [now exists Y|].
  destruct (searchFrom fl r (P ++ Y) 0) as [m|] eqn:E; [|now exists Y].
  cbn [rebuild skipn]; rewrite Nat.sub_0_r, firstn_head by now apply Hbehind.
  eexists; now rewrite <- app_assoc.
Qed.

Lemma canon_head (head : str) (l1 l2 l3 : ascii) (l : str) :
  canonStr flag_i head = canonStr flag_i (l1 :: l2 :: l3 :: l) ->
  exists c1 c2 c3 rest,
    head = c1 :: c2 :: c3 :: rest
    /\ canon flag_i c1 = canon flag_i l1
    /\ canon flag_i c2 = canon flag_i l2
    /\ canon flag_i c3 = canon flag_i l3.
Proof.
  destruct head as [|c1 [|c2 [|c3 rest]]]; try discriminate.
  intros H; injection H as H1 H2 H3 _; now exists c1, c2, c3, rest.
Qed.

(** The text elements of a document start like tags other than the root
    tag. *)
Lemma textElements_otherTag (svgContent t : str) :
  In t (map m_text (matchAll flag_is textElementRegex svgContent)) -> otherTag t.
Proof.
  rewrite in_map_iff; intros [m [<- Hin]].
  apply matchAll_In in Hin as [q Hq].
  apply searchFrom_sound in Hq as [pre [suf [rest [c [_ [Hm [_ Ht]]]]]]].
  apply textElement_match in Hm as [head [body [more [Hs [Hhead _]]]]].
  rewrite Hs, firstn_consumed in Ht.
  apply canon_head in Hhead as [c1 [c2 [c3 [tail [-> [H1 [H2 H3]]]]]]].
  rewrite Ht; cbn [app].
  exists c1, c2, c3, (tail ++ body ++ ">"%char :: more); repeat split; [exact H1|].
  left; rewrite H2; discriminate.
Qed.

Lemma fontFaceBlock_otherTag (s rest : str) (c : captures) :
  matchHere flag_i fontFaceBlockRegex s = Some (rest, c) -> otherTag s.
Proof.
  intros H; apply matchHere_matches in H.
  unfold fontFaceBlockRegex in H; cbn [Seqs] in H.
  apply matches_Seq_inv in H as [s1 [c1 [Hlit _]]].
  apply matches_Lit_inv in Hlit as [head [-> [Hhead _]]].
  apply canon_head in Hhead as [x1 [x2 [x3 [tail [-> [H1 [H2 H3]]]]]]].
  exists x1, x2, x3, (tail ++ s1); repeat split; [exact H1|].
  right; rewrite H3; discriminate.
Qed.

Lemma injectStyleBlock_keeps_head (inner styleBlock : str) :
  exists X, fst (injectStyleBlock (targetSvgTag ++ inner) styleBlock) = targetSvgTag ++ X.
Proof.
  unfold injectStyleBlock.
  destruct (replaceAll_keeps_head flag_i fontFaceBlockRegex targetSvgTag inner [])
    as [X ->].
  - intros m Hm.
    apply searchFrom_sound in Hm as [pre [suf [rest [c [E [Hm [Hi _]]]]]]].
    rewrite Hi; cbn [Nat.add].
    apply (targetSvgTag_inside inner pre suf E).
    now apply fontFaceBlock_otherTag in Hm.
  - rewrite targetSvgTag_exec; unfold m_end; cbn [m_index m_text Nat.add fst].
    rewrite firstn_app, firstn_all, Nat.sub_diag; cbn [firstn].
    eexists; now rewrite app_nil_r.
Qed.

Lemma enhanceElements_keeps_head (textElements : list str) :
  (forall t, In t textElements -> otherTag t) ->
  forall state : str * bool,
    (exists X, fst state = targetSvgTag ++ X) ->
    exists X, fst (enhanceElements state textElements) = targetSvgTag ++ X.
Proof.
  unfold enhanceElements.
  induction textElements as [|t rest IH]; intros Hall [svgContent modified] Hhead;
    cbn [fold_left]; [exact Hhead|].
  apply IH; [intros t' Ht'; apply Hall; now right|].
  destruct (enhanceElement t) as [newText|]; [|exact Hhead].
  destruct (str_eqb newText t); [exact Hhead|].
  cbn [fst] in Hhead |- *; destruct Hhead as [X ->].
  apply replaceStr_keeps_head; intros pre post E.
  apply (targetSvgTag_inside X pre (t ++ post) E).
  destruct (Hall t (or_introl eq_refl)) as [c1 [c2 [c3 [tail [-> H]]]]].
  now exists c1, c2, c3, (tail ++ post).
Qed.

Lemma font_pass_head (fontPath : str) (typeXml : option str)
    (files : option (list str)) (inner : str) :
  exists rest : str,
    preprocessSvgForBetterFonts fontPath typeXml files (targetSvgTag ++ inner)
    = targetSvgTag ++ rest.
Proof.
  unfold preprocessSvgForBetterFonts.
  pose proof (textElements_otherTag (targetSvgTag ++ inner)) as Hother.
  destruct (map m_text (matchAll flag_is textElementRegex (targetSvgTag ++ inner)))
    as [|t ts]; [now exists inner|].
  destruct files as [files|]; [|now exists inner].
  match goal with
  | |- context [enhanceElements ?state (t :: ts)] =>
    destruct (enhanceElements_keeps_head (t :: ts) Hother state) as [X HX]
  end.
  { destruct (referencedFamilies (t :: ts)); [now exists inner|].
    apply injectStyleBlock_keeps_head. }
  destruct (enhanceElements _ (t :: ts)) as [newContent [|]]; [|now exists inner].
  now exists X.
Qed.

(** X19.  The font pass keeps the root tag canvas normalisation has
    written: whatever the font directory holds, the document it returns
    for a normalised document starts with that tag, which sets width and
    height to 102pt and the frame to [0 0 102 102]; read again, its
    dimensions are still 102 by 102. *)
Theorem font_pass_keeps_the_normalised_root_tag
    (fontPath : str) (typeXml : option str) (files : option (list str))
    (svgContent : str) :
  exec flag_i svgTagRegex svgContent <> None ->
  (exists rest : str,
      preprocessSvgForBetterFonts fontPath typeXml files
        (modifySvgDimensions svgContent TARGET_PDF_SIZE)
      = targetSvgTag ++ rest)
  /\ originalDimensions
       (preprocessSvgForBetterFonts fontPath typeXml files
          (modifySvgDimensions svgContent TARGET_PDF_SIZE))
     = (TARGET_PDF_SIZE, TARGET_PDF_SIZE).
Proof.
  intros Htag.
  destruct (exec flag_i svgTagRegex svgContent) as [tag|] eqn:E; [|now contradiction Htag].
  destruct (modifySvgDimensions_shape svgContent tag E) as [inner ->].
  destruct (font_pass_head fontPath typeXml files inner) as [rest ->].
  split; [now exists rest|apply targetSvgTag_dimensions].
Qed.

Lemma font_pass_keeps_the_normalised_root_tag_witness :
  originalDimensions
    (preprocessSvgForBetterFonts fontsDir None (Some [])
       (modifySvgDimensions arialText TARGET_PDF_SIZE))
  = (TARGET_PDF_SIZE, TARGET_PDF_SIZE).
Proof.
  apply (font_pass_keeps_the_normalised_root_tag fontsDir None (Some []) arialText).
  vm_compute; discriminate.
Defined.

(** ** The root tag through [preprocessSvg] *)

Lemma in_split_first (x : ascii) (l : str) :
  In x l -> exists l1 l2, l = l1 ++ x :: l2 /\ ~ In x l1.
Proof.
  induction l as [|a l IH]; [intros []|].
  destruct (ascii_dec a x) as [->|Hne]; [intros _; now exists [], l|].
  intros [E|Hin]; [congruence|].
  destruct (IH Hin) as [l1 [l2 [-> Hnot]]].
  exists (a :: l1), l2; split; [reflexivity|].
  intros [E|H]; [congruence|now apply Hnot].
Qed.

Lemma notGt_class (a : ascii) :
  a <> ">"%char -> classMatches flag_i true [One ">"%char] a = true.
Proof.
  destruct a as [[|] [|] [|] [|] [|] [|] [|] [|]]; intros H;
    try reflexivity; now contradiction H.
Qed.

Lemma notGt_forallb (b : str) :
  ~ In ">"%char b -> forallb (classMatches flag_i true [One ">"%char]) b = true.
Proof.
  intros H; apply forallb_forall; intros a Ha; apply notGt_class.
  intros ->; now apply H.
Qed.

Lemma hasRootTag_exec (s : str) :
  hasRootTag s <-> exec flag_i svgTagRegex s <> None.
Proof.
  split.
  - intros [p [head [t [-> [Hhead Ht]]]]].
    apply in_split_first in Ht as [b [t' [-> Hb]]].
    assert (H : test flag_i svgTagRegex (p ++ head ++ b ++ ">"%char :: t') = true).
    { apply test_true; exists p, (head ++ b ++ ">"%char :: t'), t', [].
      split; [reflexivity|].
      apply matchHere_matches, svgTag_matchHere; [exact Hhead|now apply notGt_forallb]. }
    unfold test in H; destruct (exec flag_i svgTagRegex _); [discriminate|discriminate].
  - intros H; destruct (exec flag_i svgTagRegex s) as [tag|] eqn:E; [|now contradiction H].
    destruct (svgTag_match s tag E) as [head [body [Htext [Hhead [_ [_ [p [rest Hdoc]]]]]]]].
    exists p, head, (body ++ ">" ++ rest); split; [|split; [exact Hhead|]].
    + rewrite Hdoc, Htext; now rewrite <- !app_assoc.
    + apply in_or_app; right; now left.
Qed.

(** Text put in behind an occurrence of [<text] leaves the root tag in
    place. *)
Lemma hasRootTag_insert (A B ins : str) :
  (exists A0, A = A0 ++ "<text") ->
  hasRootTag (A ++ B) -> hasRootTag (A ++ ins ++ B).
Proof.
  intros [A0 HA] [p [head [t [E [Hhead Ht]]]]].
  apply app_eq_app in E as [l [[Ep Et]|[Ep Et]]].
  - (* the cut lies in or behind the root tag *)
    symmetry in Et; apply app_eq_app in Et as [l2 [[Eh Eb]|[Eh Eb]]].
    + (* behind the characters of the root tag *)
      exists p, head, (l2 ++ ins ++ B); split; [|split; [exact Hhead|]].
      * rewrite Ep, Eh; now rewrite <- !app_assoc.
      * rewrite Eb in Ht; apply in_app_or in Ht as [H|H]; apply in_or_app;
          [now left|right; apply in_or_app; now right].
    + (* inside them: impossible unless in front of them *)
      destruct l as [|x l'] using rev_ind.
      * exists (A ++ ins), head, t; split; [|split; assumption].
        cbn [app] in Eh; rewrite <- Eh in Eb; rewrite Eb; now rewrite <- !app_assoc.
      * exfalso; clear IHl'.
        rewrite Ep, HA in *.
        assert (Hx : x = "t"%char).
        { rewrite app_assoc in HA.
          change ("<text" : str) with ("<tex" ++ ["t"%char] : str) in HA.
          rewrite !app_assoc in HA; apply app_inj_tail in HA as [_ Hx]; exact Hx. }
        subst x.
        assert (Hin : In "t"%char head) by (rewrite Eh; apply in_or_app; left;
                                            apply in_or_app; right; now left).
        destruct head as [|h1 [|h2 [|h3 [|h4 [|h5 head]]]]]; try discriminate.
        injection Hhead as H1 H2 H3 H4.
        destruct Hin as [E|[E|[E|[E|[]]]]]; rewrite E in *;
          vm_compute in H1, H2, H3, H4; congruence.
  - (* the cut lies in front of the root tag *)
    exists (A ++ ins ++ l), head, t; split; [|split; assumption].
    rewrite Et; now rewrite <- !app_assoc.
Qed.

Lemma replaceStr_plain (s pat tpl : str) :
  plain tpl = true ->
  replaceStr s pat tpl = s
  \/ exists pre post, s = pre ++ pat ++ post /\ replaceStr s pat tpl = pre ++ tpl ++ post.
Proof.
  intros Htpl; unfold replaceStr.
  destruct (indexOfNat pat s 0) as [i|] eqn:E; [right|now left].
  apply indexOfNat_sound in E as [pre [post [-> ->]]].
  exists pre, post; split; [reflexivity|]; cbn [Nat.add].
  rewrite getSubstitution_plain by exact Htpl.
  rewrite firstn_app, firstn_all, Nat.sub_diag; cbn [firstn]; rewrite app_nil_r.
  rewrite skipn_app.
  replace (length pre + length pat - length pre) with (length pat) by lia.
  rewrite (skipn_all2 pre) by lia; cbn [app].
  now rewrite skipn_app, skipn_all, Nat.sub_diag.
Qed.

(** An attribute list added to the root tag of a document without [$]. *)
Lemma addToSvgTag_root (content attrs : str) (tag : MatchResult) :
  exec flag_i svgTagRegex content = Some tag ->
  plain content = true -> plain attrs = true ->
  plain (addToSvgTag content (m_text tag) attrs) = true
  /\ hasRootTag (addToSvgTag content (m_text tag) attrs).
Proof.
  intros Htag Hplain Hattrs.
  destruct (svgTag_match content tag Htag)
    as [head [body [Htext [Hhead [_ [Hnot [p [rest Hdoc]]]]]]]].
  rewrite app_assoc in Htext; rewrite Htext in Hdoc |- *.
  assert (Hparts : plain p = true /\ plain (head ++ body) = true /\ plain rest = true).
  { rewrite Hdoc, !plain_app in Hplain.
    repeat (apply andb_true_iff in Hplain as [? Hplain] || idtac).
    repeat match goal with H : _ && _ = true |- _ => apply andb_true_iff in H as [? ?] end.
    rewrite plain_app; split; [assumption|split; [|assumption]].
    apply andb_true_iff; now split. }
  destruct Hparts as [Hp [Hb Hr]].
  unfold addToSvgTag; rewrite replace_closingGt by exact Hnot.
  assert (Htpl : plain (" " ++ attrs ++ ">") = true)
    by (rewrite !plain_app, Hattrs; reflexivity).
  rewrite getSubstitution_plain by exact Htpl.
  assert (Hnew : plain ((head ++ body) ++ " " ++ attrs ++ ">") = true)
    by (now rewrite plain_app, Hb, Htpl).
  destruct (replaceStr_occurrence content ((head ++ body) ++ ">")
              ((head ++ body) ++ " " ++ attrs ++ ">") p rest Hdoc)
    as [pre [post [Hdoc' ->]]].
  rewrite getSubstitution_plain by exact Hnew.
  split.
  - rewrite Hdoc', !plain_app in Hplain.
    apply andb_true_iff in Hplain as [Hpre Hplain].
    apply andb_true_iff in Hplain as [_ Hpost].
    rewrite plain_app, Hpre, plain_app, Hnew, Hpost; reflexivity.
  - exists pre, head, (body ++ " " ++ attrs ++ ">" ++ post); split; [|split].
    + now rewrite <- !app_assoc.
    + exact Hhead.
    + apply in_or_app; right; apply in_or_app; right; apply in_or_app; right.
      apply in_or_app; left; now left.
Qed.

Lemma inferViewBox_rooted (svgContent : str) :
  rooted svgContent -> rooted (inferViewBox svgContent).
Proof.
  intros [Hplain Hroot]; unfold inferViewBox.
  destruct (exec flag_i svgTagRegex svgContent) as [tag|] eqn:Htag; [|now split].
  destruct (test flag_i viewBoxRegex svgContent); [now split|].
  destruct (exec flag_i (svgAttrRegex "width") svgContent) as [wm|]; [|now split].
  destruct (exec flag_i (svgAttrRegex "height") svgContent) as [hm|]; [|now split].
  cbv zeta.
  destruct (_ && _); [|now split].
  apply (addToSvgTag_root svgContent _ tag Htag Hplain).
  rewrite !plain_app, !plain_toString; reflexivity.
Qed.

Lemma textOpen_replace (textElement tpl : str) :
  plain tpl = true ->
  replaceRe noFlags textOpen textElement tpl = textElement
  \/ exists e1 e2, textElement = e1 ++ "<text" ++ e2
                   /\ replaceRe noFlags textOpen textElement tpl = e1 ++ tpl ++ e2.
Proof.
  intros Htpl; unfold replaceRe.
  destruct (exec noFlags textOpen textElement) as [m|] eqn:E; [right|now left].
  unfold exec in E.
  destruct (searchFrom_sound _ _ _ _ _ E) as [pre [suf [rest [c [Hs [Hm [Hi Ht]]]]]]].
  apply matchHere_matches in Hm.
  apply matches_Lit_inv in Hm as [x [Hsuf [Hx _]]].
  rewrite !canonStr_noFlags in Hx; subst x.
  exists pre, rest; split; [now rewrite Hs, Hsuf|].
  unfold substitute, m_end; rewrite getSubstitution_plain by exact Htpl.
  rewrite Hi, Ht, Hs, Hsuf, firstn_consumed; cbn [Nat.add].
  rewrite firstn_app, firstn_all, Nat.sub_diag; cbn [firstn]; rewrite app_nil_r.
  f_equal; f_equal.
  rewrite skipn_app, (skipn_all2 pre) by lia; cbn [app].
  replace (length pre + length ("<text" : str) - length pre) with 5 by (cbn; lia).
  reflexivity.
Qed.

Lemma plain_app_iff (a b : str) :
  plain (a ++ b) = true <-> plain a = true /\ plain b = true.
Proof. rewrite plain_app; apply andb_true_iff. Qed.

Lemma matchAll_plain (fl : flags) (r : regex) (s : str) (m : MatchResult) :
  plain s = true -> In m (matchAll fl r s) -> plain (m_text m) = true.
Proof.
  intros Hs Hin; apply matchAll_In in Hin as [q Hq].
  apply searchFrom_inside in Hq as [pre [post [E _]]].
  apply (plain_skipn q) in Hs; rewrite E in Hs.
  now apply plain_app_iff in Hs as [_ [H _]%plain_app_iff].
Qed.

(** One step of the loop over the text elements. *)
Lemma enhanceElement_rooted (svgContent textElement ins : str) :
  plain textElement = true -> plain ins = true ->
  rooted svgContent ->
  rooted (replaceStr svgContent textElement
            (replaceRe noFlags textOpen textElement ("<text" ++ ins))).
Proof.
  intros Hte Hins [Hplain Hroot].
  assert (Htpl : plain ("<text" ++ ins) = true) by (now apply plain_app_iff).
  destruct (textOpen_replace textElement _ Htpl) as [->|[e1 [e2 [Ete ->]]]].
  - destruct (replaceStr_plain svgContent textElement textElement Hte)
      as [->|[pre [post [E ->]]]]; [now split|]; rewrite <- E; now split.
  - assert (Hnew : plain (e1 ++ ("<text" ++ ins) ++ e2) = true).
    { rewrite Ete in Hte.
      apply plain_app_iff in Hte as [H1 [_ H2]%plain_app_iff].
      apply plain_app_iff; split; [exact H1|]; apply plain_app_iff; now split. }
    destruct (replaceStr_plain svgContent textElement _ Hnew)
      as [->|[pre [post [E ->]]]]; [now split|].
    split.
    + rewrite E in Hplain.
      apply plain_app_iff in Hplain as [H1 [_ H2]%plain_app_iff].
      apply plain_app_iff; split; [exact H1|]; apply plain_app_iff; now split.
    + replace (pre ++ (e1 ++ ("<text" ++ ins) ++ e2) ++ post)
        with ((pre ++ e1 ++ "<text") ++ ins ++ (e2 ++ post))
        by (now rewrite <- !app_assoc).
      apply hasRootTag_insert; [exists (pre ++ e1); now rewrite <- app_assoc|].
      rewrite E, Ete in Hroot; now rewrite <- !app_assoc in Hroot |- *.
Qed.

Lemma enhanceText_rooted (svgContent : str) :
  rooted svgContent -> rooted (enhanceText svgContent).
Proof.
  intros Hr; unfold enhanceText.
  assert (Hall : forall te, In te (map m_text (matchAll flag_i plainTextRegex svgContent)) ->
                            plain te = true).
  { intros te [m [<- Hm]]%in_map_iff; exact (matchAll_plain _ _ _ m (proj1 Hr) Hm). }
  destruct (map m_text (matchAll flag_i plainTextRegex svgContent)) as [|te0 tes] eqn:Etes;
    [exact Hr|].
  cbv zeta.
  match goal with |- rooted (fold_left ?f _ ?start) =>
    assert (Hstart : rooted start); [|generalize dependent start] end.
  { destruct (exec flag_i svgTagRegex svgContent) as [tag|] eqn:Htag; [|exact Hr].
    destruct (includes svgContent "text-rendering"); [exact Hr|].
    apply (addToSvgTag_root svgContent _ tag Htag (proj1 Hr)); reflexivity. }
  clear Etes Hr; generalize dependent (te0 :: tes); clear te0 tes.
  intros l; induction l as [|te l IH]; intros Hall start Hstart; [exact Hstart|].
  cbn [fold_left]; apply IH; [intros x Hx; apply Hall; now right|].
  destruct (_ && _); [|exact Hstart].
  apply (enhanceElement_rooted start te
           (" font-weight=" ++ dq ++ "normal" ++ dq ++ " font-style=" ++ dq ++ "normal" ++ dq));
    [apply Hall; now left|reflexivity|exact Hstart].
Qed.

Lemma preprocessSvg_rooted (svgContent : str) :
  rooted svgContent -> rooted (preprocessSvg svgContent).
Proof. intros H; now apply enhanceText_rooted, inferViewBox_rooted. Qed.

(** X20.  The document the handler hands to the converter: for an upload
    without [$] that has a root tag, the three passes run one after the
    other return a document that starts with the root tag of canvas
    normalisation, whatever frame inference and the text hints have added
    and whatever the font directory holds; its dimensions read 102 by
    102. *)
Theorem prepared_document_starts_with_the_target_tag
    (fontPath : str) (typeXml : option str) (files : option (list str))
    (svgContent : str) :
  plain svgContent = true ->
  exec flag_i svgTagRegex svgContent <> None ->
  (exists rest : str,
      prepareDocument fontPath typeXml files svgContent = targetSvgTag ++ rest)
  /\ originalDimensions (prepareDocument fontPath typeXml files svgContent)
     = (TARGET_PDF_SIZE, TARGET_PDF_SIZE).
Proof.
  intros Hplain Htag.
  assert (Hrooted : rooted (preprocessSvg svgContent)).
  { apply preprocessSvg_rooted; split; [exact Hplain|now apply hasRootTag_exec]. }
  destruct Hrooted as [_ Hroot]; apply hasRootTag_exec in Hroot.
  rewrite prepareDocument_passes.
  destruct (exec flag_i svgTagRegex (preprocessSvg svgContent)) as [tag|] eqn:E;
    [|now contradiction Hroot].
  destruct (modifySvgDimensions_shape _ tag E) as [inner ->].
  destruct (font_pass_head fontPath typeXml files inner) as [rest ->].
  split; [now exists rest|apply targetSvgTag_dimensions].
Qed.

Lemma prepared_document_starts_with_the_target_tag_witness :
  originalDimensions (prepareDocument fontsDir None (Some []) arialText)
  = (TARGET_PDF_SIZE, TARGET_PDF_SIZE).
Proof.
  apply (prepared_document_starts_with_the_target_tag fontsDir None (Some []) arialText).
  - vm_compute; reflexivity.
  - vm_compute; discriminate.
Defined.
